(** * ResultMarketing CRM backend: resource governance layer

    A shallow embedding of the quota gate, the upload job tracker, the
    spreadsheet import pipeline, the reminder recurrence scheduler and the
    sliding-window rate limiter, with the properties the specification
    states about them; then the routes and helpers around them (cell
    normalisation, OTP phone numbers, search terms, the import report, job
    progress, the today window, contact updates, authentication) with
    properties read off the code. *)

From stdpp Require Import gmap strings list fin_maps pretty.
From Stdlib Require Import ZArith Lia Ascii Sorted.

Local Open Scope Z_scope.

(** ** JavaScript string helpers

    ASCII readings of [String.prototype.trim], [toLowerCase] and the
    regular expressions the routes test cells with; characters outside
    ASCII are left as they are and never count as white space. *)
Module JSString.

Local Open Scope string_scope.

Definition code (c : ascii) : N := Ascii.N_of_ascii c.

(** The class [\s], within ASCII. *)
Definition isSpace (c : ascii) : bool :=
  ((9 <=? code c) && (code c <=? 13))%N || (code c =? 32)%N.

(** The class [\d]. *)
Definition isDigit (c : ascii) : bool := ((48 <=? code c) && (code c <=? 57))%N.

Fixpoint trimStart (s : string) : string :=
  match s with
  | String c rest => if isSpace c then trimStart rest else s
  | EmptyString => EmptyString
  end.

Definition trim (s : string) : string :=
  String.rev (trimStart (String.rev (trimStart s))).

Definition lowerChar (c : ascii) : ascii :=
  if ((65 <=? code c) && (code c <=? 90))%N
  then Ascii.ascii_of_N (code c + 32) else c.

Fixpoint toLowerCase (s : string) : string :=
  match s with
  | String c rest => String (lowerChar c) (toLowerCase rest)
  | EmptyString => EmptyString
  end.

Fixpoint filterChars (keep : ascii -> bool) (s : string) : string :=
  match s with
  | String c rest =>
      if keep c then String c (filterChars keep rest) else filterChars keep rest
  | EmptyString => EmptyString
  end.

Fixpoint allChars (p : ascii -> bool) (s : string) : bool :=
  match s with
  | String c rest => p c && allChars p rest
  | EmptyString => true
  end.

Definition startsWith (s prefix : string) : bool := String.prefix prefix s.

(** Truthiness of a string-or-null value: [null] and the empty string are
    falsy. *)
Definition truthy (v : option string) : bool :=
  match v with
  | Some s => negb (String.eqb s "")
  | None => false
  end.

(** [v || null] for a string-or-null [v]. *)
Definition orNull (v : option string) : option string :=
  if truthy v then v else None.

(** [v || d]. *)
Definition orElse (v : option string) (d : string) : string :=
  match v with
  | Some s => if String.eqb s "" then d else s
  | None => d
  end.

(** [[^\s@]]. *)
Definition emailChar (c : ascii) : bool :=
  negb (isSpace c) && negb (Ascii.eqb c "@").

(** [s] matches [[^\s@]+\.[^\s@]+]: some dot has at least one character
    on each side of it. [seen] tells whether a character came before. *)
Fixpoint dotInside (seen : bool) (s : string) : bool :=
  match s with
  | String c rest =>
      (seen && Ascii.eqb c "." && negb (String.eqb rest "")) || dotInside true rest
  | EmptyString => false
  end.

(** Splitting at the first ["@"]. *)
Fixpoint splitAt (s : string) : string * option string :=
  match s with
  | String c rest =>
      if Ascii.eqb c "@" then (EmptyString, Some rest)
      else let '(l, r) := splitAt rest in (String c l, r)
  | EmptyString => (EmptyString, None)
  end.

(** The test [/^[^\s@]+@[^\s@]+\.[^\s@]+$/]. *)
Definition emailRegex (s : string) : bool :=
  match splitAt s with
  | (l, Some d) =>
      negb (String.eqb l "") && allChars emailChar l &&
      allChars emailChar d && dotInside false d
  | (_, None) => false
  end.

Example emailRegex_accepts : emailRegex "amy.tan@example.com.my" = true.
Proof. reflexivity. Qed.

Example emailRegex_rejects :
  emailRegex "amy@example" = false /\ emailRegex "a b@x.y" = false /\
  emailRegex "a@@x.y" = false /\ emailRegex "a@.y" = false /\ emailRegex "@x.y" = false.
Proof. repeat split; reflexivity. Qed.

Example trim_example : trim "  Amy Tan  " = "Amy Tan".
Proof. reflexivity. Qed.

(** [[\d\s\-+()]]. *)
Definition phoneChar (c : ascii) : bool :=
  isDigit c || isSpace c || Ascii.eqb c "-" || Ascii.eqb c "+" ||
  Ascii.eqb c "(" || Ascii.eqb c ")".

(** The test [/^[\d\s\-+()]{8,}$/]. *)
Definition phoneRegex (s : string) : bool :=
  allChars phoneChar s && (8 <=? String.length s)%nat.

End JSString.

(** ** JavaScript [Date] arithmetic (ECMA-262, "Date Objects")

    [routes/reminders.js] advances due dates with [Date.prototype.setDate],
    [setMonth] and [setFullYear]. These are the abstract operations of the
    language standard, written over integers. A time value is a number of
    milliseconds since the epoch; [None] stands for [NaN] (an invalid
    date). The host time zone is taken with a fixed offset [LocalTZA]
    (no daylight-saving transitions), which covers UTC and
    Asia/Kuala_Lumpur hosts. *)
Module JSDate.

Definition msPerDay : Z := 86400000.
Definition maxTime : Z := 8640000000000000.

Definition Day (t : Z) : Z := t / msPerDay.
Definition TimeWithinDay (t : Z) : Z := t mod msPerDay.

Definition DaysInYear (y : Z) : Z :=
  if negb (y mod 4 =? 0) then 365
  else if negb (y mod 100 =? 0) then 366
  else if negb (y mod 400 =? 0) then 365
  else 366.

Definition DayFromYear (y : Z) : Z :=
  365 * (y - 1970) + (y - 1969) / 4 - (y - 1901) / 100 + (y - 1601) / 400.

(** The standard defines [YearFromTime t] as the largest [y] with
    [TimeFromYear y <= t]; [YearFromDay] computes it from an estimate that is
    off by at most one ([YearFromDay_spec] and [YearFromDay_unique] below
    show that it is that largest year). *)
Definition YearFromDay (d : Z) : Z :=
  let y := 1970 + (d * 400) / 146097 in
  if DayFromYear (y + 1) <=? d then y + 1
  else if d <? DayFromYear y then y - 1
  else y.

Definition YearFromTime (t : Z) : Z := YearFromDay (Day t).

Definition LeapOfYear (y : Z) : Z := if DaysInYear y =? 366 then 1 else 0.
Definition InLeapYear (t : Z) : Z := LeapOfYear (YearFromTime t).

Definition DayWithinYear (t : Z) : Z := Day t - DayFromYear (YearFromTime t).

Definition MonthFromTime (t : Z) : Z :=
  let d := DayWithinYear t in
  let l := InLeapYear t in
  if d <? 31 then 0
  else if d <? 59 + l then 1
  else if d <? 90 + l then 2
  else if d <? 120 + l then 3
  else if d <? 151 + l then 4
  else if d <? 181 + l then 5
  else if d <? 212 + l then 6
  else if d <? 243 + l then 7
  else if d <? 273 + l then 8
  else if d <? 304 + l then 9
  else if d <? 334 + l then 10
  else 11.

Definition DateFromTime (t : Z) : Z :=
  let d := DayWithinYear t in
  let l := InLeapYear t in
  match MonthFromTime t with
  | 0 => d + 1
  | 1 => d - 30
  | 2 => d - 58 - l
  | 3 => d - 89 - l
  | 4 => d - 119 - l
  | 5 => d - 150 - l
  | 6 => d - 180 - l
  | 7 => d - 211 - l
  | 8 => d - 242 - l
  | 9 => d - 272 - l
  | 10 => d - 303 - l
  | _ => d - 333 - l
  end.

(** Day number, within a year of leap flag [l], of the first day of month
    [m] (0 = January). *)
Definition MonthStart (m l : Z) : Z :=
  match m with
  | 0 => 0
  | 1 => 31
  | 2 => 59 + l
  | 3 => 90 + l
  | 4 => 120 + l
  | 5 => 151 + l
  | 6 => 181 + l
  | 7 => 212 + l
  | 8 => 243 + l
  | 9 => 273 + l
  | 10 => 304 + l
  | _ => 334 + l
  end.

Definition DaysInMonth (y m : Z) : Z :=
  match m with
  | 1 => 28 + LeapOfYear y
  | 3 | 5 | 8 | 10 => 30
  | _ => 31
  end.

(** [MakeDay year month date]: the day number of the first of the month
    [month mod 12] of the year [year + floor (month / 12)], plus
    [date - 1]. *)
Definition MakeDay (year month date : Z) : Z :=
  let ym := year + month / 12 in
  let mn := month mod 12 in
  DayFromYear ym + MonthStart mn (LeapOfYear ym) + date - 1.

Definition MakeDate (day time : Z) : Z := day * msPerDay + time.

Definition TimeClip (time : Z) : option Z :=
  if maxTime <? Z.abs time then None else Some time.

Section LocalZone.

Variable LocalTZA : Z.

Definition LocalTime (t : Z) : Z := t + LocalTZA.
Definition UTC (t : Z) : Z := t - LocalTZA.

Definition getFullYear (t : Z) : Z := YearFromTime (LocalTime t).
Definition getMonth (t : Z) : Z := MonthFromTime (LocalTime t).
Definition getDate (t : Z) : Z := DateFromTime (LocalTime t).

Definition setDate (t dt : Z) : option Z :=
  let lt := LocalTime t in
  TimeClip (UTC (MakeDate (MakeDay (YearFromTime lt) (MonthFromTime lt) dt)
                          (TimeWithinDay lt))).

Definition setMonth (t m : Z) : option Z :=
  let lt := LocalTime t in
  TimeClip (UTC (MakeDate (MakeDay (YearFromTime lt) m (DateFromTime lt))
                          (TimeWithinDay lt))).

Definition setFullYear (t y : Z) : option Z :=
  let lt := LocalTime t in
  TimeClip (UTC (MakeDate (MakeDay y (MonthFromTime lt) (DateFromTime lt))
                          (TimeWithinDay lt))).

End LocalZone.

(** *** Calendar lemmas *)

Lemma YearFromDay_spec d :
  DayFromYear (YearFromDay d) <= d < DayFromYear (YearFromDay d + 1).
Proof.
  unfold YearFromDay. cbv zeta.
  destruct (Z.leb_spec (DayFromYear (1970 + d * 400 / 146097 + 1)) d);
    [|destruct (Z.ltb_spec d (DayFromYear (1970 + d * 400 / 146097)))];
    unfold DayFromYear in *; Z.div_mod_to_equations; lia.
Qed.

Lemma DayFromYear_succ y : DayFromYear (y + 1) = DayFromYear y + DaysInYear y.
Proof.
  unfold DayFromYear, DaysInYear.
  repeat match goal with
         | |- context [?a =? ?b] => destruct (Z.eqb_spec a b); cbn [negb]
         end;
    Z.div_mod_to_equations; lia.
Qed.

Lemma DaysInYear_cases y : DaysInYear y = 365 + LeapOfYear y /\ 0 <= LeapOfYear y <= 1.
Proof.
  unfold LeapOfYear, DaysInYear.
  repeat match goal with
         | |- context [negb (?a =? ?b)] => destruct (Z.eqb_spec a b); cbn [negb]
         end; cbn; lia.
Qed.

Lemma DayFromYear_mono y1 y2 : y1 <= y2 -> DayFromYear y1 <= DayFromYear y2.
Proof.
  intros H. unfold DayFromYear. Z.div_mod_to_equations. lia.
Qed.

Lemma YearFromDay_unique d y :
  DayFromYear y <= d < DayFromYear (y + 1) -> YearFromDay d = y.
Proof.
  intros Hy. pose proof (YearFromDay_spec d) as Hs.
  destruct (Z.lt_trichotomy (YearFromDay d) y) as [Hlt | [Heq | Hgt]]; [| exact Heq |].
  - pose proof (DayFromYear_mono (YearFromDay d + 1) y ltac:(lia)). lia.
  - pose proof (DayFromYear_mono (y + 1) (YearFromDay d) ltac:(lia)). lia.
Qed.

Lemma Day_MakeDate d tm : 0 <= tm < msPerDay -> Day (MakeDate d tm) = d.
Proof.
  intros H. unfold Day, MakeDate, msPerDay in *. Z.div_mod_to_equations. lia.
Qed.

Lemma TimeWithinDay_MakeDate d tm :
  0 <= tm < msPerDay -> TimeWithinDay (MakeDate d tm) = tm.
Proof.
  intros H. unfold TimeWithinDay, MakeDate, msPerDay in *.
  Z.div_mod_to_equations. lia.
Qed.

Lemma TimeWithinDay_range t : 0 <= TimeWithinDay t < msPerDay.
Proof. unfold TimeWithinDay, msPerDay. apply Z.mod_pos_bound. lia. Qed.

Lemma MakeDate_Day_TimeWithinDay t : MakeDate (Day t) (TimeWithinDay t) = t.
Proof.
  unfold MakeDate, Day, TimeWithinDay, msPerDay. Z.div_mod_to_equations. lia.
Qed.

Lemma DayWithinYear_range t :
  0 <= DayWithinYear t < 365 + InLeapYear t.
Proof.
  unfold DayWithinYear, InLeapYear, YearFromTime.
  pose proof (YearFromDay_spec (Day t)) as Hs.
  rewrite DayFromYear_succ in Hs.
  pose proof (DaysInYear_cases (YearFromDay (Day t))). lia.
Qed.

Ltac case_ltb :=
  repeat match goal with
         | |- context [?a <? ?b] => destruct (Z.ltb_spec a b)
         end.

(** Every time value decomposes into its calendar fields, and [MakeDay]
    rebuilds its day number from them. *)
Lemma fields_of_time t :
  let y := YearFromTime t in
  let m := MonthFromTime t in
  let dt := DateFromTime t in
  0 <= m <= 11 /\ 1 <= dt <= DaysInMonth y m /\
  Day t = DayFromYear y + MonthStart m (LeapOfYear y) + dt - 1.
Proof.
  cbv zeta.
  pose proof (DayWithinYear_range t) as Hr.
  assert (Hd : Day t = DayFromYear (YearFromTime t) + DayWithinYear t)
    by (unfold DayWithinYear; lia).
  rewrite Hd. unfold DateFromTime, MonthFromTime, InLeapYear in *.
  pose proof (DaysInYear_cases (YearFromTime t)) as [_ Hl].
  case_ltb; cbn [MonthStart DaysInMonth]; lia.
Qed.

Lemma MakeDay_fields t :
  MakeDay (YearFromTime t) (MonthFromTime t) (DateFromTime t) = Day t.
Proof.
  pose proof (fields_of_time t) as (Hm & _ & Hd). cbv zeta in *.
  unfold MakeDay. rewrite Z.div_small, Z.mod_small by lia.
  rewrite Z.add_0_r. lia.
Qed.

Lemma MonthStart_range m l :
  0 <= m <= 11 -> 0 <= l <= 1 ->
  0 <= MonthStart m l /\ MonthStart m l + 31 <= 365 + l.
Proof.
  intros Hm Hl. assert (Hc : m = 0 \/ m = 1 \/ m = 2 \/ m = 3 \/ m = 4 \/ m = 5 \/
    m = 6 \/ m = 7 \/ m = 8 \/ m = 9 \/ m = 10 \/ m = 11) by lia.
  destruct_or!; subst m; cbn; lia.
Qed.

(** Conversely, a valid calendar date is the date of the day [MakeDay]
    builds for it. *)
Lemma fields_of_MakeDate y m dt tm :
  0 <= m <= 11 -> 1 <= dt <= DaysInMonth y m -> 0 <= tm < msPerDay ->
  let t := MakeDate (MakeDay y m dt) tm in
  YearFromTime t = y /\ MonthFromTime t = m /\ DateFromTime t = dt /\
  TimeWithinDay t = tm.
Proof.
  intros Hm Hdt Htm. cbv zeta.
  assert (HD : Day (MakeDate (MakeDay y m dt) tm) =
               DayFromYear y + MonthStart m (LeapOfYear y) + dt - 1).
  { rewrite Day_MakeDate by exact Htm. unfold MakeDay.
    rewrite Z.div_small, Z.mod_small by lia. rewrite Z.add_0_r. reflexivity. }
  pose proof (DaysInYear_cases y) as [Hdy Hl].
  assert (Hc : m = 0 \/ m = 1 \/ m = 2 \/ m = 3 \/ m = 4 \/ m = 5 \/
    m = 6 \/ m = 7 \/ m = 8 \/ m = 9 \/ m = 10 \/ m = 11) by lia.
  assert (HY : YearFromTime (MakeDate (MakeDay y m dt) tm) = y).
  { unfold YearFromTime. rewrite HD. apply YearFromDay_unique.
    rewrite DayFromYear_succ, Hdy.
    destruct_or!; subst m; cbn [MonthStart DaysInMonth] in *; lia. }
  split; [exact HY|].
  rewrite TimeWithinDay_MakeDate by exact Htm.
  unfold DateFromTime, MonthFromTime, InLeapYear, DayWithinYear.
  rewrite HY, HD.
  destruct_or!; subst m; cbn [MonthStart DaysInMonth] in *;
    case_ltb; try lia; repeat split; lia.
Qed.

Lemma DaysInMonth_range y m : 28 <= DaysInMonth y m <= 31.
Proof.
  pose proof (DaysInYear_cases y) as [_ Hl].
  unfold DaysInMonth.
  repeat match goal with |- context [match ?x with _ => _ end] => destruct x end;
    lia.
Qed.

Lemma month_index_cases r :
  0 <= r < 12 ->
  r = 0 \/ r = 1 \/ r = 2 \/ r = 3 \/ r = 4 \/ r = 5 \/
  r = 6 \/ r = 7 \/ r = 8 \/ r = 9 \/ r = 10 \/ r = 11.
Proof. lia. Qed.

(** Months beyond December carry into the year. *)
Lemma MakeDay_norm y M dt :
  MakeDay y M dt = MakeDay (y + M / 12) (M mod 12) dt.
Proof.
  unfold MakeDay.
  rewrite (Z.div_small (M mod 12)), (Z.mod_small (M mod 12))
    by (apply Z.mod_pos_bound; lia).
  rewrite Z.add_0_r. reflexivity.
Qed.

Lemma MakeDay_year y M dt : MakeDay y M dt = MakeDay 0 (12 * y + M) dt.
Proof.
  unfold MakeDay.
  replace ((12 * y + M) / 12) with (y + M / 12) by (Z.div_mod_to_equations; lia).
  replace ((12 * y + M) mod 12) with (M mod 12) by (Z.div_mod_to_equations; lia).
  reflexivity.
Qed.

(** One more month is as many more days as the month has. *)
Lemma MakeDay_month_succ y M dt :
  MakeDay y (M + 1) dt = MakeDay y M dt + DaysInMonth (y + M / 12) (M mod 12).
Proof.
  unfold MakeDay.
  assert (Hr : 0 <= M mod 12 < 12) by (apply Z.mod_pos_bound; lia).
  pose proof (DaysInYear_cases (y + M / 12)) as [Hdy Hl].
  destruct (Z.eq_dec (M mod 12) 11) as [H11 | Hn11].
  - replace ((M + 1) / 12) with (M / 12 + 1) by (Z.div_mod_to_equations; lia).
    replace ((M + 1) mod 12) with 0 by (Z.div_mod_to_equations; lia).
    rewrite H11, Z.add_assoc, DayFromYear_succ, Hdy. cbn. lia.
  - replace ((M + 1) / 12) with (M / 12) by (Z.div_mod_to_equations; lia).
    pose proof (month_index_cases _ Hr) as Hc.
    destruct_or!;
      match goal with
      | Hc : M mod 12 = ?c |- _ =>
          let c' := eval vm_compute in (c + 1) in
          replace ((M + 1) mod 12) with c' by (Z.div_mod_to_equations; lia);
          rewrite Hc
      end; cbn [MonthStart DaysInMonth]; lia.
Qed.

Lemma MakeDay_date y M dt k : MakeDay y M (dt + k) = MakeDay y M dt + k.
Proof. unfold MakeDay. lia. Qed.

Lemma MakeDay_month_le y M dt k :
  0 <= k -> MakeDay y M dt <= MakeDay y (M + k) dt <= MakeDay y M dt + 31 * k.
Proof.
  intros Hk. revert k Hk.
  apply (natlike_ind (fun k => MakeDay y M dt <= MakeDay y (M + k) dt
                               <= MakeDay y M dt + 31 * k)).
  - rewrite Z.add_0_r. lia.
  - intros k Hk IH. unfold Z.succ. rewrite Z.add_assoc, MakeDay_month_succ.
    pose proof (DaysInMonth_range (y + (M + k) / 12) ((M + k) mod 12)). lia.
Qed.

(** A year later is 365 or 366 days later. *)
Lemma MakeDay_next_year y m dt :
  0 <= m <= 11 ->
  MakeDay y m dt + 365 <= MakeDay (y + 1) m dt <= MakeDay y m dt + 366.
Proof.
  intros Hm. unfold MakeDay.
  rewrite Z.div_small, Z.mod_small, !Z.add_0_r by lia.
  rewrite DayFromYear_succ.
  pose proof (DaysInYear_cases y) as [Hdy Hl].
  pose proof (DaysInYear_cases (y + 1)) as [_ Hl'].
  pose proof (month_index_cases m ltac:(lia)) as Hc.
  destruct_or!; subst m; cbn [MonthStart]; lia.
Qed.

Lemma TimeClip_in_range t : - maxTime <= t <= maxTime -> TimeClip t = Some t.
Proof.
  intros H. unfold TimeClip. destruct (Z.ltb_spec maxTime (Z.abs t)); [lia | reflexivity].
Qed.

Lemma TimeClip_Some t u : TimeClip t = Some u -> u = t /\ - maxTime <= t <= maxTime.
Proof.
  unfold TimeClip. destruct (Z.ltb_spec maxTime (Z.abs t)); [discriminate|].
  intros [= <-]. lia.
Qed.

Section LocalZoneFacts.

Variable LocalTZA : Z.

(** Rebuilding a local time on another day moves the time value by whole
    days; the zone offset cancels. *)
Lemma UTC_MakeDate_shift t D :
  UTC LocalTZA (MakeDate D (TimeWithinDay (LocalTime LocalTZA t))) =
  t + (D - Day (LocalTime LocalTZA t)) * msPerDay.
Proof.
  pose proof (MakeDate_Day_TimeWithinDay (LocalTime LocalTZA t)) as H.
  unfold UTC, MakeDate, LocalTime in *. lia.
Qed.

Lemma LocalTime_UTC x : LocalTime LocalTZA (UTC LocalTZA x) = x.
Proof. unfold LocalTime, UTC. lia. Qed.

Lemma setDate_plus t n :
  setDate LocalTZA t (getDate LocalTZA t + n) = TimeClip (t + n * msPerDay).
Proof.
  unfold setDate, getDate. cbv zeta.
  rewrite UTC_MakeDate_shift, MakeDay_date, MakeDay_fields.
  f_equal. lia.
Qed.

End LocalZoneFacts.

End JSDate.

(** ** Recurrence scheduler ([routes/reminders.js], calculateNextRecurrence) *)
Module Recurrence.
Import JSDate.

(** What a call produces: the JavaScript value [null], an ISO timestamp
    (identified with its time value, which [toISOString] prints to the
    millisecond and [new Date] reads back), or the [RangeError] that
    [toISOString] throws on an invalid date. *)
Inductive outcome : Type :=
  | Null
  | Iso (t : Z)
  | RangeError.

Section LocalZone.

Variable LocalTZA : Z.

(** [currentDate] is the time value [new Date(currentDate)] holds ([None]
    for an invalid date); [recurrence] is [None] for [null]. Each branch of
    the [switch] mutates [date]; [None] below is the [default] branch. *)
Definition calculateNextRecurrence
    (currentDate : option Z) (recurrence : option string) : outcome :=
  let date := currentDate in
  let advanced : option (option Z) :=
    match recurrence with
    | Some r =>
        if String.eqb r "daily" then
          Some (t ← date; setDate LocalTZA t (getDate LocalTZA t + 1))
        else if String.eqb r "weekly" then
          Some (t ← date; setDate LocalTZA t (getDate LocalTZA t + 7))
        else if String.eqb r "biweekly" then
          Some (t ← date; setDate LocalTZA t (getDate LocalTZA t + 14))
        else if String.eqb r "monthly" then
          Some (t ← date; setMonth LocalTZA t (getMonth LocalTZA t + 1))
        else if String.eqb r "quarterly" then
          Some (t ← date; setMonth LocalTZA t (getMonth LocalTZA t + 3))
        else if String.eqb r "yearly" then
          Some (t ← date; setFullYear LocalTZA t (getFullYear LocalTZA t + 1))
        else None
    | None => None
    end in
  match advanced with
  | None => Null
  | Some None => RangeError
  | Some (Some t) => Iso t
  end.

(** Feeding the timestamp one call returns into the next call. *)
Definition andThen (o : outcome) (f : Z -> outcome) : outcome :=
  match o with
  | Iso t => f t
  | Null => Null
  | RangeError => RangeError
  end.

Fixpoint repeatRule (n : nat) (recurrence : option string) (o : outcome) : outcome :=
  match n with
  | O => o
  | S k => andThen (repeatRule k recurrence o)
             (fun t => calculateNextRecurrence (Some t) recurrence)
  end.

(** The calendar reading of a time value in the host zone: year, month
    (0 = January), day of month, milliseconds into the day. *)
Definition localFields (t : Z) : Z * Z * Z * Z :=
  (getFullYear LocalTZA t, getMonth LocalTZA t, getDate LocalTZA t,
   TimeWithinDay (LocalTime LocalTZA t)).

End LocalZone.

(** The specification's calendar arithmetic: advance the month by [k],
    keep the day of month; a day the target month does not have rolls over
    into the following month (Jan 31 plus one month is Mar 3, or Mar 2 in a
    leap year). *)
Definition plusMonths (k : Z) (f : Z * Z * Z * Z) : Z * Z * Z * Z :=
  let '(y, m, dt, tm) := f in
  let M := 12 * y + m + k in
  if dt <=? DaysInMonth (M / 12) (M mod 12) then (M / 12, M mod 12, dt, tm)
  else ((M + 1) / 12, (M + 1) mod 12, dt - DaysInMonth (M / 12) (M mod 12), tm).

Definition plusDays (n : Z) (t : Z) : Z := t + n * msPerDay.

Section LocalZoneFacts.

Variable LocalTZA : Z.

Local Abbreviation localFields := (localFields LocalTZA).
Local Abbreviation calculateNextRecurrence := (calculateNextRecurrence LocalTZA).
Local Abbreviation repeatRule := (repeatRule LocalTZA).

(** The time value [setMonth] and [setFullYear] reach before [TimeClip]:
    [k] months after [t], on the same day of month and time of day. *)
Definition advanceMonths (t k : Z) : Z :=
  let lt := LocalTime LocalTZA t in
  UTC LocalTZA (MakeDate (MakeDay (YearFromTime lt) (MonthFromTime lt + k)
                                  (DateFromTime lt))
                         (TimeWithinDay lt)).

Lemma setMonth_advance t k :
  setMonth LocalTZA t (getMonth LocalTZA t + k) = TimeClip (advanceMonths t k).
Proof. unfold setMonth, advanceMonths, getMonth. cbv zeta. reflexivity. Qed.

Lemma setFullYear_advance t :
  setFullYear LocalTZA t (getFullYear LocalTZA t + 1) = TimeClip (advanceMonths t 12).
Proof.
  unfold setFullYear, advanceMonths, getFullYear. cbv zeta.
  do 3 f_equal.
  rewrite (MakeDay_year (YearFromTime _ + 1)), (MakeDay_year (YearFromTime _) (_ + 12)).
  f_equal. lia.
Qed.

Lemma localFields_of_make y m dt tm :
  0 <= m <= 11 -> 1 <= dt <= DaysInMonth y m -> 0 <= tm < msPerDay ->
  localFields (UTC LocalTZA (MakeDate (MakeDay y m dt) tm)) = (y, m, dt, tm).
Proof.
  intros Hm Hdt Htm.
  unfold Recurrence.localFields, getFullYear, getMonth, getDate.
  rewrite LocalTime_UTC.
  pose proof (fields_of_MakeDate y m dt tm Hm Hdt Htm) as (-> & -> & -> & ->).
  reflexivity.
Qed.

(** The calendar reading determines the time value. *)
Lemma localFields_inj t1 t2 : localFields t1 = localFields t2 -> t1 = t2.
Proof.
  unfold Recurrence.localFields, getFullYear, getMonth, getDate.
  intros [= Hy Hm Hd Ht].
  pose proof (MakeDate_Day_TimeWithinDay (LocalTime LocalTZA t1)) as E1.
  pose proof (MakeDate_Day_TimeWithinDay (LocalTime LocalTZA t2)) as E2.
  rewrite <- MakeDay_fields, Hy, Hm, Hd, Ht, MakeDay_fields in E1.
  unfold LocalTime in *. lia.
Qed.

Lemma advanceMonths_fields t k :
  localFields (advanceMonths t k) = plusMonths k (localFields t).
Proof.
  unfold advanceMonths. cbv zeta.
  unfold plusMonths, Recurrence.localFields at 2, getFullYear, getMonth, getDate.
  set (lt := LocalTime LocalTZA t).
  pose proof (fields_of_time lt) as (Hm & Hdt & _). cbv zeta in Hm, Hdt.
  pose proof (TimeWithinDay_range lt) as Htm.
  set (y := YearFromTime lt) in *. set (m := MonthFromTime lt) in *.
  set (dt := DateFromTime lt) in *. set (M := 12 * y + (m + k)).
  replace (12 * y + m + k) with M by (unfold M; lia).
  assert (HM : 0 <= M mod 12 <= 11)
    by (pose proof (Z.mod_pos_bound M 12 ltac:(lia)); lia).
  assert (HM1 : 0 <= (M + 1) mod 12 <= 11)
    by (pose proof (Z.mod_pos_bound (M + 1) 12 ltac:(lia)); lia).
  pose proof (DaysInMonth_range y m).
  pose proof (DaysInMonth_range (M / 12) (M mod 12)).
  pose proof (DaysInMonth_range ((M + 1) / 12) ((M + 1) mod 12)).
  rewrite MakeDay_year. fold M.
  destruct (Z.leb_spec dt (DaysInMonth (M / 12) (M mod 12))) as [Hle | Hgt].
  - rewrite MakeDay_norm, Z.add_0_l. apply localFields_of_make; lia.
  - replace (MakeDay 0 M dt)
      with (MakeDay 0 (M + 1) (dt - DaysInMonth (M / 12) (M mod 12))).
    + rewrite MakeDay_norm, Z.add_0_l. apply localFields_of_make; lia.
    + rewrite MakeDay_month_succ, Z.add_0_l.
      rewrite <- (Z.add_opp_r dt), MakeDay_date. lia.
Qed.

Lemma advanceMonths_shift t k :
  0 <= k -> t <= advanceMonths t k <= t + 31 * k * msPerDay.
Proof.
  intros Hk. unfold advanceMonths. cbv zeta.
  rewrite UTC_MakeDate_shift, <- (MakeDay_fields (LocalTime LocalTZA t)).
  pose proof (MakeDay_month_le (YearFromTime (LocalTime LocalTZA t))
                (MonthFromTime (LocalTime LocalTZA t))
                (DateFromTime (LocalTime LocalTZA t)) k Hk).
  unfold msPerDay. nia.
Qed.

Lemma advanceMonths_year t :
  t + 365 * msPerDay <= advanceMonths t 12 <= t + 366 * msPerDay.
Proof.
  unfold advanceMonths. cbv zeta.
  rewrite UTC_MakeDate_shift, <- (MakeDay_fields (LocalTime LocalTZA t)).
  set (lt := LocalTime LocalTZA t).
  pose proof (fields_of_time lt) as (Hm & _ & _). cbv zeta in Hm.
  pose proof (MakeDay_next_year (YearFromTime lt) (MonthFromTime lt)
                (DateFromTime lt) Hm) as Hy.
  rewrite (MakeDay_year (_ + 1)) in Hy.
  rewrite (MakeDay_year _ (_ + 12)).
  replace (12 * YearFromTime lt + (MonthFromTime lt + 12))
    with (12 * (YearFromTime lt + 1) + MonthFromTime lt) by lia.
  unfold msPerDay. nia.
Qed.

(** On a day every month has, [j] months and then [k] months are [j + k]
    months. *)
Lemma advanceMonths_add t j k :
  getDate LocalTZA t <= 28 ->
  advanceMonths (advanceMonths t j) k = advanceMonths t (j + k).
Proof.
  intros H28. apply localFields_inj.
  rewrite !advanceMonths_fields.
  unfold Recurrence.localFields at 1, plusMonths.
  pose proof (fields_of_time (LocalTime LocalTZA t)) as (Hm & Hdt & _).
  cbv zeta in Hm, Hdt. unfold getFullYear, getMonth, getDate in *.
  set (y := YearFromTime _) in *. set (m := MonthFromTime _) in *.
  set (dt := DateFromTime _) in *.
  pose proof (DaysInMonth_range ((12 * y + m + j) / 12) ((12 * y + m + j) mod 12)).
  destruct (Z.leb_spec dt (DaysInMonth ((12 * y + m + j) / 12) ((12 * y + m + j) mod 12)));
    [| lia].
  replace (12 * ((12 * y + m + j) / 12) + (12 * y + m + j) mod 12 + k)
    with (12 * y + m + (j + k)) by (Z.div_mod_to_equations; lia).
  reflexivity.
Qed.

Lemma advanceMonths_date t k :
  getDate LocalTZA t <= 28 -> getDate LocalTZA (advanceMonths t k) = getDate LocalTZA t.
Proof.
  intros H28. pose proof (advanceMonths_fields t k) as Hf.
  unfold Recurrence.localFields, plusMonths in Hf.
  pose proof (DaysInMonth_range
    ((12 * getFullYear LocalTZA t + getMonth LocalTZA t + k) / 12)
    ((12 * getFullYear LocalTZA t + getMonth LocalTZA t + k) mod 12)).
  destruct (Z.leb_spec (getDate LocalTZA t)
    (DaysInMonth ((12 * getFullYear LocalTZA t + getMonth LocalTZA t + k) / 12)
       ((12 * getFullYear LocalTZA t + getMonth LocalTZA t + k) mod 12))); [| lia].
  congruence.
Qed.

(** What [toISOString] makes of the date a branch of the [switch] leaves. *)
Definition ofDate (o : option Z) : outcome :=
  match o with
  | Some t => Iso t
  | None => RangeError
  end.

Lemma calc_daily t :
  calculateNextRecurrence (Some t) (Some "daily") = ofDate (TimeClip (plusDays 1 t)).
Proof.
  unfold Recurrence.calculateNextRecurrence.
  cbn [String.eqb Ascii.eqb Bool.eqb mbind option_bind].
  rewrite setDate_plus. now destruct (TimeClip _).
Qed.

Ltac eval_switch :=
  unfold Recurrence.calculateNextRecurrence;
  cbn [String.eqb Ascii.eqb Bool.eqb mbind option_bind].

Lemma calc_weekly t :
  calculateNextRecurrence (Some t) (Some "weekly") = ofDate (TimeClip (plusDays 7 t)).
Proof. eval_switch. rewrite setDate_plus. now destruct (TimeClip _). Qed.

Lemma calc_biweekly t :
  calculateNextRecurrence (Some t) (Some "biweekly") = ofDate (TimeClip (plusDays 14 t)).
Proof. eval_switch. rewrite setDate_plus. now destruct (TimeClip _). Qed.

Lemma calc_monthly t :
  calculateNextRecurrence (Some t) (Some "monthly") = ofDate (TimeClip (advanceMonths t 1)).
Proof. eval_switch. rewrite setMonth_advance. now destruct (TimeClip _). Qed.

Lemma calc_quarterly t :
  calculateNextRecurrence (Some t) (Some "quarterly") = ofDate (TimeClip (advanceMonths t 3)).
Proof. eval_switch. rewrite setMonth_advance. now destruct (TimeClip _). Qed.

Lemma calc_yearly t :
  calculateNextRecurrence (Some t) (Some "yearly") = ofDate (TimeClip (advanceMonths t 12)).
Proof. eval_switch. rewrite setFullYear_advance. now destruct (TimeClip _). Qed.

(** The six rules the [switch] knows. *)
Definition knownRule (r : string) : bool :=
  String.eqb r "daily" || String.eqb r "weekly" || String.eqb r "biweekly" ||
  String.eqb r "monthly" || String.eqb r "quarterly" || String.eqb r "yearly".

Lemma calc_unknown d r :
  knownRule r = false -> calculateNextRecurrence d (Some r) = Null.
Proof.
  unfold knownRule, Recurrence.calculateNextRecurrence. intros H.
  repeat (apply orb_false_elim in H; destruct H as [H ?]).
  repeat match goal with E : String.eqb _ _ = false |- _ => rewrite E; clear E end.
  reflexivity.
Qed.

(** On an invalid date a known rule makes [toISOString] throw. *)
Lemma calc_invalid r :
  knownRule r = true -> calculateNextRecurrence None (Some r) = RangeError.
Proof.
  unfold knownRule, Recurrence.calculateNextRecurrence. intros H.
  repeat match goal with
         | |- context [String.eqb r ?s] => destruct (String.eqb r s)
         end; try reflexivity; discriminate.
Qed.

Lemma advanceMonths_zero t : advanceMonths t 0 = t.
Proof.
  unfold advanceMonths. cbv zeta.
  rewrite UTC_MakeDate_shift, Z.add_0_r, MakeDay_fields. lia.
Qed.

Lemma repeat_weekly_twice t :
  - maxTime <= t <= maxTime ->
  repeatRule 2 (Some "weekly") (Iso t) = calculateNextRecurrence (Some t) (Some "biweekly").
Proof.
  intros Ht. cbn [repeatRule andThen].
  rewrite calc_weekly, calc_biweekly. unfold plusDays, TimeClip, msPerDay, maxTime in *.
  destruct (Z.ltb_spec 8640000000000000 (Z.abs (t + 7 * 86400000))) as [H7 | H7];
    destruct (Z.ltb_spec 8640000000000000 (Z.abs (t + 14 * 86400000))) as [H14 | H14];
    cbn [ofDate andThen]; try reflexivity; try lia.
  - rewrite calc_weekly. unfold plusDays, TimeClip, msPerDay, maxTime.
    destruct (Z.ltb_spec 8640000000000000 (Z.abs (t + 7 * 86400000 + 7 * 86400000)));
      [reflexivity | lia].
  - rewrite calc_weekly. unfold plusDays, TimeClip, msPerDay, maxTime.
    destruct (Z.ltb_spec 8640000000000000 (Z.abs (t + 7 * 86400000 + 7 * 86400000)));
      [lia | cbn; f_equal; lia].
Qed.

Lemma repeat_monthly t (n : nat) :
  getDate LocalTZA t <= 28 -> - maxTime <= t <= maxTime ->
  repeatRule n (Some "monthly") (Iso t) =
  ofDate (TimeClip (advanceMonths t (Z.of_nat n))).
Proof.
  intros H28 Ht. induction n as [| n IH].
  - cbn [repeatRule]. change (Z.of_nat 0) with 0. rewrite advanceMonths_zero.
    rewrite TimeClip_in_range by lia. reflexivity.
  - cbn [repeatRule]. rewrite IH.
    replace (Z.of_nat (S n)) with (Z.of_nat n + 1) by lia.
    rewrite <- advanceMonths_add by exact H28.
    pose proof (advanceMonths_shift t (Z.of_nat n) ltac:(lia)) as Hk.
    pose proof (advanceMonths_shift (advanceMonths t (Z.of_nat n)) 1 ltac:(lia)) as Hk1.
    unfold TimeClip at 1.
    destruct (Z.ltb_spec maxTime (Z.abs (advanceMonths t (Z.of_nat n)))) as [Hout | Hin];
      cbn [ofDate andThen].
    + unfold TimeClip.
      destruct (Z.ltb_spec maxTime
        (Z.abs (advanceMonths (advanceMonths t (Z.of_nat n)) 1))); [reflexivity | lia].
    + apply calc_monthly.
Qed.

End LocalZoneFacts.



(** 2023-01-31T10:00:00Z on a UTC host: one month later is
    2023-03-03T10:00:00Z, since February 2023 has no 31st. *)
Example monthly_from_jan_31 :
  calculateNextRecurrence 0 (Some 1675159200000) (Some "monthly") = Iso 1677837600000.
Proof. vm_compute. reflexivity. Qed.



(** The overflow on a day not every month has: from 2023-01-31 twelve
    monthly steps reach 2024-02-03, a yearly step 2024-01-31. *)
Example monthly_twelve_from_jan_31 :
  repeatRule 0 12 (Some "monthly") (Iso 1675159200000) = Iso 1706954400000 /\
  calculateNextRecurrence 0 (Some 1675159200000) (Some "yearly") = Iso 1706695200000.
Proof. split; vm_compute; reflexivity. Qed.

Lemma knownRule_cases r :
  knownRule r = true ->
  r = "daily" \/ r = "weekly" \/ r = "biweekly" \/
  r = "monthly" \/ r = "quarterly" \/ r = "yearly".
Proof.
  unfold knownRule. intros H.
  repeat (apply orb_prop in H; destruct H as [H | H]);
    apply String.eqb_eq in H; tauto.
Qed.

(** Away from the end of the representable range every known rule yields
    a later timestamp. *)
Lemma calc_known_in_range (LocalTZA t : Z) (r : string) :
  knownRule r = true -> - maxTime <= t -> t + 366 * msPerDay <= maxTime ->
  exists t', calculateNextRecurrence LocalTZA (Some t) (Some r) = Iso t' /\ t <= t'.
Proof.
  intros Hr Hlo Hhi.
  pose proof (advanceMonths_shift LocalTZA t 1 ltac:(lia)) as H1.
  pose proof (advanceMonths_shift LocalTZA t 3 ltac:(lia)) as H3.
  pose proof (advanceMonths_year LocalTZA t) as H12.
  destruct (knownRule_cases r Hr) as [-> | [-> | [-> | [-> | [-> | ->]]]]].
  - rewrite calc_daily, TimeClip_in_range by (unfold plusDays, msPerDay in *; lia).
    eexists; split; [reflexivity | unfold plusDays, msPerDay; lia].
  - rewrite calc_weekly, TimeClip_in_range by (unfold plusDays, msPerDay in *; lia).
    eexists; split; [reflexivity | unfold plusDays, msPerDay; lia].
  - rewrite calc_biweekly, TimeClip_in_range by (unfold plusDays, msPerDay in *; lia).
    eexists; split; [reflexivity | unfold plusDays, msPerDay; lia].
  - rewrite calc_monthly, TimeClip_in_range by (unfold msPerDay in *; lia).
    eexists; split; [reflexivity | lia].
  - rewrite calc_quarterly, TimeClip_in_range by (unfold msPerDay in *; lia).
    eexists; split; [reflexivity | lia].
  - rewrite calc_yearly, TimeClip_in_range by (unfold msPerDay in *; lia).
    eexists; split; [reflexivity | lia].
Qed.

End Recurrence.

(** ** Completing a reminder ([routes/reminders.js], PUT /api/reminders/:id/complete) *)
Module Reminders.
Import JSString JSDate Recurrence.

(** A row of the [reminders] table. [due_date] is the time value
    [new Date(due_date)] denotes ([None] when it denotes none); the
    timestamps the handler writes are time values as well. *)
Record reminder : Type := {
  user_id : string;
  title : string;
  description : option string;
  contact_id : option string;
  due_date : option Z;
  type : string;
  priority : string;
  status : string;
  recurrence : option string;
  notification_minutes : option Z;
  completed_at : option Z;
  updated_at : option Z;
  completion_notes : option string;
}.

Inductive response : Type :=
  | Ok200 (data : reminder)
  | NotFound404
  | Internal500.

Section Handler.

Variable LocalTZA : Z.

(** The [updates] object applied to the matched row. *)
Definition applyUpdates (now : Z) (notes : option string) (r : reminder) : reminder :=
  {| user_id := user_id r;
     title := title r;
     description := description r;
     contact_id := contact_id r;
     due_date := due_date r;
     type := type r;
     priority := priority r;
     status := "completed";
     recurrence := recurrence r;
     notification_minutes := notification_minutes r;
     completed_at := Some now;
     updated_at := Some now;
     completion_notes := if truthy notes then notes else completion_notes r |}.

(** The row the handler inserts for the next occurrence; columns it does
    not name take no value. *)
Definition successor (userId : string) (data : reminder) (nextDue : Z) : reminder :=
  {| user_id := userId;
     title := title data;
     description := description data;
     contact_id := contact_id data;
     due_date := Some nextDue;
     type := type data;
     priority := priority data;
     status := "pending";
     recurrence := recurrence data;
     notification_minutes := notification_minutes data;
     completed_at := None;
     updated_at := None;
     completion_notes := None |}.

(** The table is keyed by the primary key [id]. The update is filtered by
    [id] and [user_id]; [.single()] reports PGRST116 when no row matches.
    [newId] is the key the store gives the inserted row; the handler does
    not look at the insert's result, so an insert the store refuses (key
    taken) leaves the table as it was. *)
Definition complete (now : Z) (newId : string) (userId id : string)
    (notes : option string) (db : gmap string reminder)
    : gmap string reminder * response :=
  match db !! id with
  | Some r =>
      if String.eqb (user_id r) userId then
        let data := applyUpdates now notes r in
        let db1 := <[id := data]> db in
        if truthy (recurrence data) then
          match calculateNextRecurrence LocalTZA (due_date data) (recurrence data) with
          | Iso nextDue =>
              match db1 !! newId with
              | None => (<[newId := successor userId data nextDue]> db1, Ok200 data)
              | Some _ => (db1, Ok200 data)
              end
          | Null => (db1, Ok200 data)
          | RangeError => (db1, Internal500)
          end
        else (db1, Ok200 data)
      else (db, NotFound404)
  | None => (db, NotFound404)
  end.

End Handler.

Lemma truthy_known r : knownRule r = true -> truthy (Some r) = true.
Proof.
  intros H. destruct (knownRule_cases r H) as [-> | [-> | [-> | [-> | [-> | ->]]]]];
    reflexivity.
Qed.

(** C6: completing a reminder whose recurrence is one of the six rules
    keeps the original row, now with status completed, and inserts exactly
    one new row: status pending, due date advanced by the rule, and title,
    description, contact, type, priority, recurrence and notification
    setting copied. With a null or unknown recurrence only the original row
    changes. *)
Theorem complete_creates_one_successor
    (LocalTZA now : Z) (newId userId id : string) (notes : option string)
    (db : gmap string reminder) (r : reminder) :
  db !! id = Some r -> user_id r = userId ->
  (forall rule t,
     recurrence r = Some rule -> knownRule rule = true ->
     due_date r = Some t -> - maxTime <= t -> t + 366 * msPerDay <= maxTime ->
     db !! newId = None ->
     exists nextDue s,
       calculateNextRecurrence LocalTZA (Some t) (Some rule) = Iso nextDue /\
       complete LocalTZA now newId userId id notes db =
         (<[newId := s]> (<[id := applyUpdates now notes r]> db),
          Ok200 (applyUpdates now notes r)) /\
       status (applyUpdates now notes r) = "completed" /\
       status s = "pending" /\ due_date s = Some nextDue /\
       title s = title r /\ description s = description r /\
       contact_id s = contact_id r /\ type s = type r /\
       priority s = priority r /\ recurrence s = recurrence r /\
       notification_minutes s = notification_minutes r /\
       dom (complete LocalTZA now newId userId id notes db).1 = {[newId]} ∪ dom db /\
       (complete LocalTZA now newId userId id notes db).1 !! id =
         Some (applyUpdates now notes r)) /\
  ((forall rule, recurrence r = Some rule -> knownRule rule = false) ->
     complete LocalTZA now newId userId id notes db =
       (<[id := applyUpdates now notes r]> db, Ok200 (applyUpdates now notes r)) /\
     dom (complete LocalTZA now newId userId id notes db).1 = dom db).
Proof.
  intros Hid Hu. split.
  - intros rule t Hrec Hk Hdue Hlo Hhi Hnew.
    destruct (calc_known_in_range LocalTZA t rule Hk Hlo Hhi) as (nextDue & Hc & _).
    exists nextDue, (successor userId (applyUpdates now notes r) nextDue).
    assert (Hne : id ≠ newId) by (intros ->; congruence).
    assert (Hrun : complete LocalTZA now newId userId id notes db =
              (<[newId := successor userId (applyUpdates now notes r) nextDue]>
                 (<[id := applyUpdates now notes r]> db),
               Ok200 (applyUpdates now notes r))).
    { unfold complete. rewrite Hid, Hu, String.eqb_refl.
      cbn [applyUpdates recurrence due_date]. rewrite Hrec, Hdue, (truthy_known rule Hk), Hc.
      rewrite lookup_insert_ne, Hnew by exact Hne. reflexivity. }
    rewrite Hrun. cbn [fst successor applyUpdates status due_date title description
      contact_id type priority recurrence notification_minutes].
    repeat split; try reflexivity; try assumption.
    + rewrite dom_insert_L, dom_insert_lookup_L by eauto. reflexivity.
    + rewrite lookup_insert_ne, lookup_insert_eq by congruence. reflexivity.
  - intros Hnone.
    assert (Hrun : complete LocalTZA now newId userId id notes db =
              (<[id := applyUpdates now notes r]> db, Ok200 (applyUpdates now notes r))).
    { unfold complete. rewrite Hid, Hu, String.eqb_refl.
      cbn [applyUpdates recurrence due_date].
      destruct (recurrence r) as [rule |] eqn:Hrec; [| reflexivity].
      destruct (truthy (Some rule)); [| reflexivity].
      rewrite (calc_unknown LocalTZA (due_date r) rule (Hnone rule eq_refl)).
      reflexivity. }
    rewrite Hrun. split; [reflexivity |]. cbn [fst].
    apply dom_insert_lookup_L. eauto.
Qed.

(** A weekly follow-up call due 2024-01-15T10:00:00Z. *)
Definition weeklyCall : reminder :=
  {| user_id := "u1";
     title := "Call back";
     description := None;
     contact_id := Some "c7";
     due_date := Some 1705312800000;
     type := "call";
     priority := "high";
     status := "pending";
     recurrence := Some "weekly";
     notification_minutes := Some 30;
     completed_at := None;
     updated_at := None;
     completion_notes := None |}.

Lemma complete_creates_one_successor_witness :
  ({[ "r1" := weeklyCall ]} : gmap string reminder) !! "r1" = Some weeklyCall /\
  dom (complete 0 1705400000000 "r2" "u1" "r1" None {[ "r1" := weeklyCall ]}).1 =
    {[ "r2" ]} ∪ dom ({[ "r1" := weeklyCall ]} : gmap string reminder).
Proof.
  split; [apply lookup_singleton_eq |].
  destruct (proj1 (complete_creates_one_successor 0 1705400000000 "r2" "u1" "r1" None
                     {[ "r1" := weeklyCall ]} weeklyCall
                     (lookup_singleton_eq _ _) eq_refl)
                  "weekly" 1705312800000 eq_refl eq_refl eq_refl
                  ltac:(unfold maxTime; lia)
                  ltac:(unfold maxTime, msPerDay; lia)
                  ltac:(apply lookup_singleton_ne; discriminate))
    as (nextDue & s & H).
  apply H.
Defined.

End Reminders.

(** ** Contact quota ([middleware/auth.js], checkContactLimit) and the
    contact-creating routes of [routes/contacts.js] *)
Module Quota.
Import JSString.

Local Open Scope string_scope.

(** The columns of a [profiles] row the quota gate reads. *)
Record profile : Type := {
  subscription_plan : option string;
  contact_count : option Z;
}.

(** A row of the [contacts] table (the columns that take part in quota
    and de-duplication, and the ones every route fills). *)
Record contact : Type := {
  user_id : string;
  name : string;
  email : option string;
  phone : option string;
  company : option string;
  position : option string;
  industry : option string;
  category : string;
  notes : option string;
  source : string;
  status : string;
}.

Record db : Type := {
  contacts : list contact;
  profiles : gmap string profile;
}.

(** The [planLimits] object literal, by its own keys. *)
Definition planLimits (plan : string) : option Z :=
  if String.eqb plan "free" then Some 50
  else if String.eqb plan "trial" then Some 50
  else if String.eqb plan "base" then Some 250000
  else if String.eqb plan "enterprise" then Some 1000000
  else None.

(** [req.contactLimit]. *)
Record contactLimit : Type := {
  current : Z;
  max : Z;
  remaining : Z;
}.

Inductive gate : Type :=
  | Unauthorized
  | ContactLimitReached (currentCount limit : Z) (plan : string)
  | Next (limit : contactLimit).

(** [x || 0] for a number-or-null [x]. *)
Definition orZero (x : option Z) : Z :=
  match x with
  | Some n => n
  | None => 0
  end.

Definition checkContactLimit (user : option string) (userProfile : option profile)
    : gate :=
  match user with
  | None => Unauthorized
  | Some _ =>
      let userPlan := orElse (p ← userProfile; subscription_plan p) "free" in
      let maxContacts :=
        match planLimits userPlan with
        | Some n => n
        | None => 50
        end in
      let currentCount := orZero (p ← userProfile; contact_count p) in
      if (maxContacts <=? currentCount)%Z
      then ContactLimitReached currentCount maxContacts userPlan
      else Next {| current := currentCount; max := maxContacts;
                   remaining := maxContacts - currentCount |}
  end.

(** Modelled from the spec: the stored procedure [increment_contact_count]
    the routes call through [supabase.rpc] is not among the source files.
    The specification describes the commit as "a single atomic increment
    operation at the storage layer": the counter of the user's profile row
    grows by the amount. *)
Definition increment_contact_count (userId : string) (amount : Z) (d : db) : db :=
  {| contacts := contacts d;
     profiles :=
       alter (fun p => {| subscription_plan := subscription_plan p;
                          contact_count := Some (orZero (contact_count p) + amount) |})
             userId (profiles d) |}.

(** [.insert(rows)] on the [contacts] table. *)
Definition insertContacts (rows : list contact) (d : db) : db :=
  {| contacts := contacts d ++ rows; profiles := profiles d |}.

(** The response envelope, by what the quota turns on: a success with
    the number of contacts created, or an error with its HTTP status and
    code. *)
Inductive response : Type :=
  | Created (n : nat)
  | Rejected (httpStatus : Z) (code : string).

(** The body of POST /api/contacts and an element of the [contacts] array
    of POST /api/contacts/bulk. *)
Record contactBody : Type := {
  body_name : option string;
  body_email : option string;
  body_phone : option string;
  body_company : option string;
  body_position : option string;
  body_industry : option string;
  body_category : option string;
  body_notes : option string;
  body_source : option string;
}.

(** [validateContact] finds no error. *)
Definition validateContact (b : contactBody) : bool :=
  (truthy (body_name b) &&
     (2 <=? String.length (trim (orElse (body_name b) "")))%nat) &&
  (negb (truthy (body_email b)) || emailRegex (orElse (body_email b) "")) &&
  (negb (truthy (body_phone b)) || phoneRegex (orElse (body_phone b) "")).

(** [v?.trim() || null]. *)
Definition trimOrNull (v : option string) : option string := orNull (trim <$> v).

(** The row POST /api/contacts inserts. *)
Definition newContact (userId : string) (b : contactBody) : contact :=
  {| user_id := userId;
     name := trim (orElse (body_name b) "");
     email := orNull (trim <$> (toLowerCase <$> body_email b));
     phone := trimOrNull (body_phone b);
     company := trimOrNull (body_company b);
     position := trimOrNull (body_position b);
     industry := orNull (body_industry b);
     category := orElse (body_category b) "Lead";
     notes := trimOrNull (body_notes b);
     source := orElse (body_source b) "manual";
     status := "active" |}.

(** POST /api/contacts, behind [authenticateToken] (which leaves the user
    the token names and that user's profile row on the request) and
    [checkContactLimit]; the rate limiter between the two passes a request
    on unchanged or answers it itself, and is left out. [duplicates] is
    what the duplicate lookup returns and [insertOk] whether the store
    accepts the insert. *)
Definition createContact (user : option string) (b : contactBody)
    (duplicates : list contact) (insertOk : bool) (d : db) : db * response :=
  match user with
  | None => (d, Rejected 401 "NO_TOKEN")
  | Some userId =>
      match checkContactLimit user (profiles d !! userId) with
      | Unauthorized => (d, Rejected 401 "UNAUTHORIZED")
      | ContactLimitReached _ _ _ => (d, Rejected 403 "CONTACT_LIMIT_REACHED")
      | Next _ =>
          if negb (validateContact b) then (d, Rejected 400 "VALIDATION_ERROR")
          else if (truthy (body_email b) || truthy (body_phone b)) &&
                  negb (bool_decide (duplicates = []))
          then (d, Rejected 409 "DUPLICATE_CONTACT")
          else if negb insertOk then (d, Rejected 500 "INTERNAL_ERROR")
          else (increment_contact_count userId 1
                  (insertContacts [newContact userId b] d), Created 1)
      end
  end.

(** An element of the bulk array as the route prepares it. *)
Definition prepareContact (userId : string) (c : contactBody) : contact :=
  {| user_id := userId;
     name := orElse (trim <$> body_name c) "Unknown";
     email := orNull (trim <$> (toLowerCase <$> body_email c));
     phone := trimOrNull (body_phone c);
     company := trimOrNull (body_company c);
     position := trimOrNull (body_position c);
     industry := orNull (body_industry c);
     category := orElse (body_category c) "Lead";
     notes := trimOrNull (body_notes c);
     source := orElse (body_source c) "bulk_import";
     status := "active" |}.

(** POST /api/contacts/bulk. [contacts] is [None] when the body holds no
    array. *)
Definition bulkCreate (user : option string) (bodies : option (list contactBody))
    (insertOk : bool) (d : db) : db * response :=
  match user with
  | None => (d, Rejected 401 "NO_TOKEN")
  | Some userId =>
      match checkContactLimit user (profiles d !! userId) with
      | Unauthorized => (d, Rejected 401 "UNAUTHORIZED")
      | ContactLimitReached _ _ _ => (d, Rejected 403 "CONTACT_LIMIT_REACHED")
      | Next limit =>
          match bodies with
          | None | Some [] => (d, Rejected 400 "INVALID_INPUT")
          | Some cs =>
              if (500 <? length cs)%nat then (d, Rejected 400 "TOO_MANY_CONTACTS")
              else if (remaining limit <? Z.of_nat (length cs))%Z
              then (d, Rejected 403 "CONTACT_LIMIT_EXCEEDED")
              else if negb insertOk then (d, Rejected 500 "INTERNAL_ERROR")
              else
                let preparedContacts := prepareContact userId <$> cs in
                (increment_contact_count userId (Z.of_nat (length preparedContacts))
                   (insertContacts preparedContacts d),
                 Created (length preparedContacts))
          end
      end
  end.

(** *** Concurrent creations

    A handler runs on one thread and yields at each [await]; between two
    awaits it is atomic. POST /api/contacts touches the store three times:
    [authenticateToken] reads the profile row, the handler inserts the
    contact (after the gate has judged the profile read earlier; the
    duplicate lookup before the insert only reads), and the handler calls
    the increment procedure. *)
Record request : Type := {
  req_user : string;
  req_body : contactBody;
  req_duplicates : list contact;
  req_insertOk : bool;
}.

Inductive phase : Type :=
  | Arrived
  | Authenticated (userProfile : option profile)
  | Inserted
  | Responded (r : response).

Definition stepRequest (r : request) (ph : phase) (d : db) : phase * db :=
  match ph with
  | Arrived => (Authenticated (profiles d !! req_user r), d)
  | Authenticated userProfile =>
      match checkContactLimit (Some (req_user r)) userProfile with
      | Unauthorized => (Responded (Rejected 401 "UNAUTHORIZED"), d)
      | ContactLimitReached _ _ _ =>
          (Responded (Rejected 403 "CONTACT_LIMIT_REACHED"), d)
      | Next _ =>
          if negb (validateContact (req_body r))
          then (Responded (Rejected 400 "VALIDATION_ERROR"), d)
          else if (truthy (body_email (req_body r)) || truthy (body_phone (req_body r))) &&
                  negb (bool_decide (req_duplicates r = []))
          then (Responded (Rejected 409 "DUPLICATE_CONTACT"), d)
          else if negb (req_insertOk r)
          then (Responded (Rejected 500 "INTERNAL_ERROR"), d)
          else (Inserted, insertContacts [newContact (req_user r) (req_body r)] d)
      end
  | Inserted => (Responded (Created 1), increment_contact_count (req_user r) 1 d)
  | Responded _ => (ph, d)
  end.

(** The requests in flight, each at its phase, and the store they share. *)
Definition world : Type := list phase * db.

Definition stepAt (rs : list request) (i : nat) (w : world) : world :=
  match rs !! i, w.1 !! i with
  | Some r, Some ph =>
      let '(ph', d') := stepRequest r ph w.2 in (<[i := ph']> w.1, d')
  | _, _ => w
  end.

(** A schedule names, step by step, the request that runs next. *)
Definition run (rs : list request) (schedule : list nat) (w : world) : world :=
  foldl (fun w i => stepAt rs i w) w schedule.

Definition isCreated (ph : phase) : bool :=
  match ph with
  | Responded (Created _) => true
  | _ => false
  end.

(** How many requests have been answered with a success. *)
Fixpoint created (phs : list phase) : nat :=
  match phs with
  | [] => O
  | ph :: rest => ((if isCreated ph then 1 else 0) + created rest)%nat
  end.

Definition countOf (userId : string) (d : db) : Z :=
  orZero (p ← profiles d !! userId; contact_count p).

(** *** The service helper [incrementContactCount] ([services/supabase.js])

    When the procedure call reports an error the helper reads the profile
    and then writes the sum back: two store accesses with an [await]
    between them. *)
Definition updateContactCount (userId : string) (newCount : Z) (d : db) : db :=
  {| contacts := contacts d;
     profiles :=
       alter (fun p => {| subscription_plan := subscription_plan p;
                          contact_count := Some newCount |})
             userId (profiles d) |}.

Inductive fallbackPhase : Type :=
  | RpcFailed
  | ProfileRead (userProfile : option profile)
  | Written.

Definition stepFallback (userId : string) (count : Z) (ph : fallbackPhase) (d : db)
    : fallbackPhase * db :=
  match ph with
  | RpcFailed => (ProfileRead (profiles d !! userId), d)
  | ProfileRead (Some p) =>
      (Written, updateContactCount userId (orZero (contact_count p) + count) d)
  | ProfileRead None => (Written, d)
  | Written => (Written, d)
  end.

(** [incrementContactCount userId count]; [rpcOk] tells whether the
    procedure call succeeds. Run without interruption. *)
Definition incrementContactCount (userId : string) (count : Z) (rpcOk : bool) (d : db)
    : db :=
  if rpcOk then increment_contact_count userId count d
  else
    let '(ph1, d1) := stepFallback userId count RpcFailed d in
    (stepFallback userId count ph1 d1).2.

(** The ceiling the gate applies to a profile, and the count it reads. *)
Definition ceilingOf (userProfile : option profile) : Z :=
  match planLimits (orElse (p ← userProfile; subscription_plan p) "free") with
  | Some n => n
  | None => 50
  end.

Definition currentOf (userProfile : option profile) : Z :=
  orZero (p ← userProfile; contact_count p).

(** Creations one after another: each request runs to its response before
    the next one starts. Returns the store and the number of successes. *)
Fixpoint createAll (userId : string) (bodies : list contactBody) (d : db) : db * nat :=
  match bodies with
  | [] => (d, O)
  | b :: rest =>
      let '(d1, resp) := createContact (Some userId) b [] true d in
      let '(d2, n) := createAll userId rest d1 in
      (d2, match resp with Created _ => S n | Rejected _ _ => n end)
  end.

(** *** Facts about the gate and the interleavings *)

Lemma checkContactLimit_eq (userId : string) (userProfile : option profile) :
  checkContactLimit (Some userId) userProfile =
  if (ceilingOf userProfile <=? currentOf userProfile)%Z
  then ContactLimitReached (currentOf userProfile) (ceilingOf userProfile)
         (orElse (p ← userProfile; subscription_plan p) "free")
  else Next {| current := currentOf userProfile; max := ceilingOf userProfile;
               remaining := ceilingOf userProfile - currentOf userProfile |}.
Proof. reflexivity. Qed.

(** The three steps of a request, run without interruption, are the
    handler. *)
Lemma steps_uninterrupted (r : request) (d : db) :
  let '(ph1, d1) := stepRequest r Arrived d in
  let '(ph2, d2) := stepRequest r ph1 d1 in
  let '(ph3, d3) := stepRequest r ph2 d2 in
  (d3, ph3) =
  ((createContact (Some (req_user r)) (req_body r) (req_duplicates r) (req_insertOk r) d).1,
   Responded (createContact (Some (req_user r)) (req_body r) (req_duplicates r)
                (req_insertOk r) d).2).
Proof.
  unfold createContact. cbn [stepRequest].
  destruct (checkContactLimit (Some (req_user r)) (profiles d !! req_user r));
    cbn [stepRequest fst snd]; try reflexivity.
  destruct (negb (validateContact (req_body r))); cbn [stepRequest fst snd];
    [reflexivity |].
  destruct ((truthy (body_email (req_body r)) || truthy (body_phone (req_body r))) &&
            negb (bool_decide (req_duplicates r = []))); cbn [stepRequest fst snd];
    [reflexivity |].
  destruct (negb (req_insertOk r)); reflexivity.
Qed.

Lemma created_insert (phs : list phase) (i : nat) (ph ph' : phase) :
  phs !! i = Some ph ->
  (created (<[i := ph']> phs) + (if isCreated ph then 1 else 0) =
   created phs + (if isCreated ph' then 1 else 0))%nat.
Proof.
  revert i. induction phs as [| x phs IH]; intros [| i] H; try discriminate.
  - injection H as ->. cbn. destruct (isCreated ph), (isCreated ph'); lia.
  - change (phs !! i = Some ph) in H. specialize (IH i H).
    change (<[S i := ph']> (x :: phs)) with (x :: <[i := ph']> phs).
    cbn [created]. destruct (isCreated ph), (isCreated ph'), (isCreated x); lia.
Qed.

Lemma countOf_increment (userId : string) (amount : Z) (d : db) (p : profile) :
  profiles d !! userId = Some p ->
  countOf userId (increment_contact_count userId amount d) = countOf userId d + amount.
Proof.
  intros Hp. unfold countOf, increment_contact_count. cbn [profiles].
  rewrite lookup_alter_eq, Hp. reflexivity.
Qed.

Lemma profile_kept_by_step (r : request) (ph : phase) (d : db) (userId : string) :
  is_Some (profiles d !! userId) ->
  is_Some (profiles (stepRequest r ph d).2 !! userId).
Proof.
  intros Hp. destruct ph as [| up | | resp]; cbn [stepRequest]; try exact Hp.
  - destruct (checkContactLimit _ _); try exact Hp.
    destruct (negb (validateContact (req_body r))); [exact Hp |].
    destruct ((truthy (body_email (req_body r)) || truthy (body_phone (req_body r))) &&
              negb (bool_decide (req_duplicates r = []))); [exact Hp |].
    destruct (negb (req_insertOk r)); exact Hp.
  - cbn [snd increment_contact_count profiles].
    destruct (decide (req_user r = userId)) as [-> | Hne].
    + rewrite lookup_alter_eq. destruct Hp as [p ->]. eauto.
    + rewrite lookup_alter_ne by exact Hne. exact Hp.
Qed.

(** A step changes the counter exactly when it answers with a success. *)
Lemma countOf_step (r : request) (ph : phase) (d : db) :
  is_Some (profiles d !! req_user r) ->
  countOf (req_user r) (stepRequest r ph d).2 + (if isCreated ph then 1 else 0) =
  countOf (req_user r) d + (if isCreated (stepRequest r ph d).1 then 1 else 0).
Proof.
  intros [p Hp]. destruct ph as [| up | | resp]; cbn [stepRequest fst snd isCreated].
  - lia.
  - destruct (checkContactLimit _ _); cbn [fst snd isCreated]; try lia.
    destruct (negb (validateContact (req_body r))); cbn [fst snd isCreated]; [lia |].
    destruct ((truthy (body_email (req_body r)) || truthy (body_phone (req_body r))) &&
              negb (bool_decide (req_duplicates r = []))); cbn [fst snd isCreated];
      [lia |].
    destruct (negb (req_insertOk r)); cbn [fst snd isCreated]; [lia |].
    unfold countOf; cbn [insertContacts profiles]; lia.
  - rewrite (countOf_increment _ _ _ p Hp). lia.
  - lia.
Qed.

Lemma run_counter (userId : string) (rs : list request) (schedule : list nat) (w : world) :
  Forall (fun r => req_user r = userId) rs ->
  is_Some (profiles w.2 !! userId) ->
  is_Some (profiles (run rs schedule w).2 !! userId) /\
  countOf userId (run rs schedule w).2 + Z.of_nat (created w.1) =
  countOf userId w.2 + Z.of_nat (created (run rs schedule w).1).
Proof.
  intros Hrs. revert w. induction schedule as [| i schedule IH]; intros w Hp.
  - cbn. split; [exact Hp | lia].
  - cbn [run foldl]. fold (run rs schedule (stepAt rs i w)).
    assert (Hstep : is_Some (profiles (stepAt rs i w).2 !! userId) /\
              countOf userId (stepAt rs i w).2 + Z.of_nat (created w.1) =
              countOf userId w.2 + Z.of_nat (created (stepAt rs i w).1)).
    { unfold stepAt.
      destruct (rs !! i) as [r |] eqn:Hr; [| split; [exact Hp | lia]].
      destruct (w.1 !! i) as [ph |] eqn:Hph; [| split; [exact Hp | lia]].
      assert (Hu : req_user r = userId)
        by (eapply (proj1 (Forall_forall _ _) Hrs), list_elem_of_lookup_2, Hr).
      pose proof (profile_kept_by_step r ph w.2 userId Hp) as Hk.
      pose proof (countOf_step r ph w.2) as Hc. rewrite Hu in Hc.
      specialize (Hc Hp).
      pose proof (created_insert w.1 i ph (stepRequest r ph w.2).1 Hph) as Hi.
      destruct (stepRequest r ph w.2) as [ph' d'] eqn:Hs. cbn [fst snd] in *.
      split; [exact Hk |].
      destruct (isCreated ph), (isCreated ph'); lia. }
    destruct Hstep as [Hp' Hc'].
    destruct (IH (stepAt rs i w) Hp') as [Hp'' Hc'']. split; [exact Hp'' | lia].
Qed.

Lemma createContact_valid (userId : string) (b : contactBody) (d : db) :
  validateContact b = true ->
  createContact (Some userId) b [] true d =
  if (ceilingOf (profiles d !! userId) <=? currentOf (profiles d !! userId))%Z
  then (d, Rejected 403 "CONTACT_LIMIT_REACHED")
  else (increment_contact_count userId 1 (insertContacts [newContact userId b] d),
        Created 1).
Proof.
  intros Hv. unfold createContact. rewrite checkContactLimit_eq.
  destruct (ceilingOf (profiles d !! userId) <=? currentOf (profiles d !! userId))%Z;
    [reflexivity |].
  rewrite Hv. cbn [negb]. rewrite andb_false_r. reflexivity.
Qed.

Lemma profile_after_create (userId : string) (row : contact) (d : db) (p : profile) :
  profiles d !! userId = Some p ->
  profiles (increment_contact_count userId 1 (insertContacts [row] d)) !! userId =
  Some {| subscription_plan := subscription_plan p;
          contact_count := Some (orZero (contact_count p) + 1) |}.
Proof.
  intros Hp. cbn [increment_contact_count insertContacts profiles].
  rewrite lookup_alter_eq, Hp. reflexivity.
Qed.

(** One creation after another fills the quota and stops there. *)
Lemma createAll_sequential (userId : string) (bodies : list contactBody) :
  Forall (fun b => validateContact b = true) bodies ->
  forall (d : db) (p : profile),
  profiles d !! userId = Some p ->
  Z.of_nat (createAll userId bodies d).2 =
    Z.min (Z.of_nat (length bodies))
          (Z.max 0 (ceilingOf (Some p) - currentOf (Some p))) /\
  countOf userId (createAll userId bodies d).1 =
    currentOf (Some p) + Z.of_nat (createAll userId bodies d).2 /\
  length (contacts (createAll userId bodies d).1) =
    (length (contacts d) + (createAll userId bodies d).2)%nat.
Proof.
  induction 1 as [| b bodies Hb Hbs IH]; intros d p Hp.
  - cbn [createAll fst snd length]. unfold countOf, currentOf. rewrite Hp.
    cbn. split; [lia | split; lia].
  - cbn [createAll]. rewrite (createContact_valid userId b d Hb), Hp.
    destruct (Z.leb_spec (ceilingOf (Some p)) (currentOf (Some p))) as [Hfull | Hroom].
    + destruct (IH d p Hp) as (Hn & Hc & Hl).
      destruct (createAll userId bodies d) as [d2 n]. cbn [fst snd length] in *.
      split; [lia | split; [exact Hc | exact Hl]].
    + pose proof (profile_after_create userId (newContact userId b) d p Hp) as Hp1.
      destruct (IH _ _ Hp1) as (Hn & Hc & Hl).
      destruct (createAll userId bodies _) as [d2 n]. cbn [fst snd length] in *.
      assert (Hceil : ceilingOf (Some {| subscription_plan := subscription_plan p;
                        contact_count := Some (orZero (contact_count p) + 1) |}) =
                      ceilingOf (Some p)) by reflexivity.
      assert (Hcur : currentOf (Some {| subscription_plan := subscription_plan p;
                        contact_count := Some (orZero (contact_count p) + 1) |}) =
                     currentOf (Some p) + 1) by reflexivity.
      rewrite Hceil, Hcur in *.
      cbn [increment_contact_count insertContacts contacts] in Hl.
      rewrite length_app in Hl. cbn [length] in Hl.
      split; [lia | split; lia].
Qed.

Lemma created_arrived (n : nat) : created (replicate n Arrived) = O.
Proof. induction n as [| n IH]; [reflexivity | cbn; exact IH]. Qed.

(** *** A tenant one contact below the free ceiling *)

Definition freeAt49 : db :=
  {| contacts := [];
     profiles := {[ "u1" := {| subscription_plan := Some "free";
                               contact_count := Some 49 |} ]} |}.

Definition bodyNamed (n : string) : contactBody :=
  {| body_name := Some n; body_email := None; body_phone := None;
     body_company := None; body_position := None; body_industry := None;
     body_category := None; body_notes := None; body_source := None |}.

Definition twoRequests : list request :=
  [ {| req_user := "u1"; req_body := bodyNamed "Amy Tan";
       req_duplicates := []; req_insertOk := true |};
    {| req_user := "u1"; req_body := bodyNamed "Ben Lim";
       req_duplicates := []; req_insertOk := true |} ].

(** Both requests are authenticated before either commits: both pass the
    gate, both insert, both increment. The counter ends at 51, above the
    ceiling of 50, and two creations succeed where [min 2 (50 - 49)] is
    one. *)
Lemma interleaved_creations_exceed_ceiling :
  (run twoRequests [0; 1; 0; 1; 0; 1]%nat ([Arrived; Arrived], freeAt49)).1 =
    [Responded (Created 1); Responded (Created 1)] /\
  countOf "u1" (run twoRequests [0; 1; 0; 1; 0; 1]%nat ([Arrived; Arrived], freeAt49)).2 = 51 /\
  length (contacts (run twoRequests [0; 1; 0; 1; 0; 1]%nat
                      ([Arrived; Arrived], freeAt49)).2) = 2%nat /\
  ceilingOf (profiles freeAt49 !! "u1") = 50 /\
  currentOf (profiles freeAt49 !! "u1") = 49 /\
  Z.min 2 (50 - 49) = 1.
Proof. vm_compute. repeat split; reflexivity. Qed.

(** The helper's fallback loses an increment when two calls interleave:
    both read 49, both write 50. *)
Example fallback_loses_update :
  let '(a1, d1) := stepFallback "u1" 1 RpcFailed freeAt49 in
  let '(b1, d2) := stepFallback "u1" 1 RpcFailed d1 in
  let '(a2, d3) := stepFallback "u1" 1 a1 d2 in
  let '(b2, d4) := stepFallback "u1" 1 b1 d3 in
  a2 = Written /\ b2 = Written /\ countOf "u1" d4 = 50.
Proof. vm_compute. repeat split; reflexivity. Qed.

(** C3, as the code has it: an increment made through the storage
    procedure is never lost, so under every interleaving of creations of
    one tenant the counter is the initial count plus the number of
    successful creations; and when the creations run one after another,
    exactly [min N (max - c)] of them succeed and the counter does not pass
    the ceiling. *)
Theorem commits_counted_and_sequential_bound
    (userId : string) (d : db) (p : profile) :
  profiles d !! userId = Some p ->
  (forall (rs : list request) (schedule : list nat),
     Forall (fun r => req_user r = userId) rs ->
     countOf userId (run rs schedule (replicate (length rs) Arrived, d)).2 =
       currentOf (Some p) +
       Z.of_nat (created (run rs schedule (replicate (length rs) Arrived, d)).1)) /\
  (forall bodies : list contactBody,
     Forall (fun b => validateContact b = true) bodies ->
     currentOf (Some p) <= ceilingOf (Some p) ->
     Z.of_nat (createAll userId bodies d).2 =
       Z.min (Z.of_nat (length bodies)) (ceilingOf (Some p) - currentOf (Some p)) /\
     countOf userId (createAll userId bodies d).1 =
       currentOf (Some p) + Z.of_nat (createAll userId bodies d).2 /\
     countOf userId (createAll userId bodies d).1 <= ceilingOf (Some p)).
Proof.
  intros Hp. split.
  - intros rs schedule Hrs.
    destruct (run_counter userId rs schedule (replicate (length rs) Arrived, d) Hrs)
      as [_ Hc]; [cbn [snd]; eauto |].
    cbn [fst snd] in Hc.
    rewrite created_arrived in Hc. unfold countOf in Hc at 2. rewrite Hp in Hc.
    unfold currentOf. cbn in *. lia.
  - intros bodies Hb Hle.
    destruct (createAll_sequential userId bodies Hb d p Hp) as (Hn & Hc & _).
    rewrite Hc, Hn. split; [lia | split; lia].
Qed.

Lemma commits_counted_and_sequential_bound_witness :
  profiles freeAt49 !! "u1" =
    Some {| subscription_plan := Some "free"; contact_count := Some 49 |} /\
  countOf "u1" (createAll "u1" [bodyNamed "Amy Tan"; bodyNamed "Ben Lim"] freeAt49).1 <= 50.
Proof.
  split; [reflexivity |].
  refine (proj2 (proj2 (proj2 (commits_counted_and_sequential_bound "u1" freeAt49
            {| subscription_plan := Some "free"; contact_count := Some 49 |} eq_refl)
            [bodyNamed "Amy Tan"; bodyNamed "Ben Lim"] _ _))).
  - repeat constructor.
  - vm_compute. discriminate.
Defined.

End Quota.

(** ** Uploads ([routes/uploads.js]): spreadsheet import, background jobs *)
Module Uploads.
Import JSString Quota.

Local Open Scope string_scope.

(** A row of the first sheet as [XLSX.utils.sheet_to_json] returns it:
    header to cell, the cell already printed as [String(value)]. *)
Abbreviation row := (gmap string string).

Record columnMappings : Type := {
  map_name : option string;
  map_email : option string;
  map_phone : option string;
  map_company : option string;
  map_position : option string;
  map_industry : option string;
  map_notes : option string;
}.

Definition extractField (r : row) (columnName : option string) : option string :=
  match columnName with
  | Some c => if String.eqb c "" then None else trim <$> r !! c
  | None => None
  end.

Definition normalizeEmail (email : option string) : option string :=
  match email with
  | Some e =>
      if String.eqb e "" then None
      else let cleaned := trim (toLowerCase e) in
           if emailRegex cleaned then Some cleaned else None
  | None => None
  end.

(** [cleaned.slice(1)]. *)
Definition slice1 (s : string) : string :=
  match s with
  | String _ rest => rest
  | EmptyString => EmptyString
  end.

Definition normalizePhone (phone : option string) : option string :=
  match phone with
  | Some p =>
      if String.eqb p "" then None
      else
        let cleaned := filterChars (fun c => isDigit c || Ascii.eqb c "+") p in
        let cleaned :=
          if startsWith cleaned "0" then "+60" ++ slice1 cleaned
          else if startsWith cleaned "60" && negb (startsWith cleaned "+")
          then "+" ++ cleaned
          else if negb (startsWith cleaned "+") && (9 <=? String.length cleaned)%nat
          then "+60" ++ cleaned
          else cleaned in
        if (10 <=? String.length cleaned)%nat then Some cleaned else None
  | None => None
  end.

Example normalizePhone_local : normalizePhone (Some "012-345 6789") = Some "+60123456789".
Proof. reflexivity. Qed.

Example normalizePhone_short : normalizePhone (Some "12345") = None.
Proof. reflexivity. Qed.

(** The contact the import builds from a row. *)
Definition rowContact (userId : string) (m : columnMappings) (defaultCategory : string)
    (r : row) : contact :=
  {| user_id := userId;
     name := orElse (extractField r (map_name m)) "Unknown";
     email := normalizeEmail (extractField r (map_email m));
     phone := normalizePhone (extractField r (map_phone m));
     company := extractField r (map_company m);
     position := extractField r (map_position m);
     industry := extractField r (map_industry m);
     category := defaultCategory;
     notes := extractField r (map_notes m);
     source := "spreadsheet_import";
     status := "active" |}.

(** [contact.name === 'Unknown' && !contact.email && !contact.phone]. *)
Definition unidentifiable (c : contact) : bool :=
  String.eqb (name c) "Unknown" && negb (truthy (email c)) && negb (truthy (phone c)).

Record rowError : Type := {
  row_number : nat;
  reason : string;
}.

(** The transformation loop over [data], from index [i]. Without a
    mappings object every row throws inside the loop's [try] and lands in
    [errors]. *)
Fixpoint transformRows (userId : string) (m : option columnMappings)
    (defaultCategory : string) (i : nat) (data : list row)
    : list contact * list rowError :=
  match data with
  | [] => ([], [])
  | r :: rest =>
      let '(cs, es) := transformRows userId m defaultCategory (S i) rest in
      match m with
      | None =>
          (cs, {| row_number := i + 2;
                  reason := "Cannot read properties of undefined (reading 'name')" |} :: es)
      | Some m =>
          let c := rowContact userId m defaultCategory r in
          if unidentifiable c
          then (cs, {| row_number := i + 2; reason := "No identifiable information" |} :: es)
          else (c :: cs, es)
      end
  end.

(** The tenant's stored contacts whose email is among [emails] or whose
    phone is among [phones]. *)
Definition existingMatches (userId : string) (emails phones : list (option string))
    (d : db) : list contact :=
  filter (fun c => user_id c = userId /\
                   ((email c <> None /\ email c ∈ emails) \/
                    (phone c <> None /\ phone c ∈ phones)))
         (contacts d).

Definition isDupe (existingEmails existingPhones : list (option string)) (c : contact)
    : bool :=
  (truthy (email c) && bool_decide (email c ∈ existingEmails)) ||
  (truthy (phone c) && bool_decide (phone c ∈ existingPhones)).

Record duplicateDetail : Type := {
  dup_name : string;
  dup_email : option string;
  dup_phone : option string;
}.

(** The counters of the import's success response. *)
Record importData : Type := {
  imported : nat;
  total : nat;
  skipped : Z;
  duplicates : nat;
  errors : nat;
  errorDetails : list rowError;
  duplicateDetails : list duplicateDetail;
}.

Inductive importResponse : Type :=
  | Imported (data : importData)
  | ImportRejected (httpStatus : Z) (code : string).

(** POST /api/uploads/spreadsheet/import, behind [authenticateToken] and
    [checkContactLimit]. [file] is the parsed sheet ([None]: no file was
    sent; a file the parser cannot read is answered with 500 and is not
    among the inputs), [mappings] the column mappings of the body ([None]:
    absent). *)
Definition importSpreadsheet (user : option string) (file : option (list row))
    (mappings : option columnMappings) (skipDuplicates : bool)
    (defaultCategory : string) (insertOk : bool) (d : db) : db * importResponse :=
  match user with
  | None => (d, ImportRejected 401 "NO_TOKEN")
  | Some userId =>
      match checkContactLimit user (profiles d !! userId) with
      | Unauthorized => (d, ImportRejected 401 "UNAUTHORIZED")
      | ContactLimitReached _ _ _ => (d, ImportRejected 403 "CONTACT_LIMIT_REACHED")
      | Next limit =>
          match file with
          | None => (d, ImportRejected 400 "NO_FILE")
          | Some data =>
              if (remaining limit <? Z.of_nat (length data))%Z
              then (d, ImportRejected 403 "CONTACT_LIMIT_EXCEEDED")
              else
                let '(contacts0, errors) :=
                  transformRows userId mappings defaultCategory 0 data in
                let '(contacts1, duplicates) :=
                  if skipDuplicates && negb (bool_decide (contacts0 = [])) then
                    let emails := filter (fun e => truthy e = true) (email <$> contacts0) in
                    let phones := filter (fun e => truthy e = true) (phone <$> contacts0) in
                    let existingContacts := existingMatches userId emails phones d in
                    let existingEmails := email <$> existingContacts in
                    let existingPhones := phone <$> existingContacts in
                    (filter (fun c => isDupe existingEmails existingPhones c = false) contacts0,
                     (fun c => {| dup_name := name c; dup_email := email c;
                                  dup_phone := phone c |}) <$>
                       filter (fun c => isDupe existingEmails existingPhones c = true) contacts0)
                  else (contacts0, []) in
                if negb (bool_decide (contacts1 = [])) && negb insertOk
                then (d, ImportRejected 500 "IMPORT_ERROR")
                else
                  let d' :=
                    if bool_decide (contacts1 = []) then d
                    else increment_contact_count userId (Z.of_nat (length contacts1))
                           (insertContacts contacts1 d) in
                  (d', Imported
                         {| imported := length contacts1;
                            total := length data;
                            skipped := Z.of_nat (length data) - Z.of_nat (length contacts1)
                                       - Z.of_nat (length errors);
                            duplicates := length duplicates;
                            errors := length errors;
                            errorDetails := take 10 errors;
                            duplicateDetails := take 10 duplicates |})
          end
      end
  end.

(** *** Background jobs ([processingJobs], a [Map] from job id to job) *)

Inductive jobStatus : Type :=
  | processing
  | completed
  | failed.

(** What the business card reader returns in [structured]. *)
Record card : Type := {
  card_name : option string;
  card_email : option string;
  card_phone : option string;
  card_company : option string;
  card_position : option string;
  card_raw_text : option string;
}.

Inductive jobResult : Type :=
  | SheetResult (imported total : nat) (skipped : option nat)
  | CardResult (created : contact) (extracted : card).

(** A job record. [createdAt] is the time value of the ISO string, [None]
    when the property is [undefined]. *)
Record job : Type := {
  job_status : jobStatus;
  progress : Z;
  message : string;
  result : option jobResult;
  error : option string;
  createdAt : option Z;
}.

Definition processingJob (p : Z) (msg : string) (created : option Z) : job :=
  {| job_status := processing; progress := p; message := msg;
     result := None; error := None; createdAt := created |}.

Definition completedJob (msg : string) (r : jobResult) (created : option Z) : job :=
  {| job_status := completed; progress := 100; message := msg;
     result := Some r; error := None; createdAt := created |}.

Definition failedJob (msg : string) (e : string) (created : option Z) : job :=
  {| job_status := failed; progress := 100; message := msg;
     result := None; error := Some e; createdAt := created |}.

(** The job the upload routes register before they start the pipeline. *)
Definition createJob (jobId : string) (msg : string) (now : Z) (jobs : gmap string job)
    : gmap string job :=
  <[jobId := processingJob 0 msg (Some now)]> jobs.

(** [processingJobs.set(jobId, { ..., createdAt:
    processingJobs.get(jobId).createdAt })]: reading [createdAt] of a job
    that is not in the map throws, which [None] stands for. *)
Definition setKeepingCreatedAt (jobId : string) (mk : option Z -> job)
    (jobs : gmap string job) : option (gmap string job) :=
  j ← jobs !! jobId; Some (<[jobId := mk (createdAt j)]> jobs).

(** The [catch] block of both pipelines. *)
Definition catchFailed (jobId : string) (errMessage : string) (jobs : gmap string job)
    : gmap string job :=
  <[jobId := failedJob "Processing failed" errMessage (j ← jobs !! jobId; createdAt j)]> jobs.

Definition typeError : string := "Cannot read properties of undefined".

(** GET /api/uploads/status/:jobId, behind [authenticateToken]. *)
Inductive statusResponse : Type :=
  | JobFound (jobId : string) (j : job)
  | StatusRejected (httpStatus : Z) (code : string).

Definition getStatus (user : option string) (jobId : string) (jobs : gmap string job)
    : statusResponse :=
  match user with
  | None => StatusRejected 401 "NO_TOKEN"
  | Some _ =>
      match jobs !! jobId with
      | Some j => JobFound jobId j
      | None => StatusRejected 404 "JOB_NOT_FOUND"
      end
  end.

(** The periodic clean-up, run at time [now]: a job goes when
    [new Date(job.createdAt) < oneHourAgo]; an [undefined] [createdAt] makes
    an invalid date, which compares false. *)
Definition retentionMs : Z := 60 * 60 * 1000.
Definition sweepIntervalMs : Z := 15 * 60 * 1000.

Definition expired (now : Z) (j : job) : bool :=
  match createdAt j with
  | Some t => (t <? now - retentionMs)%Z
  | None => false
  end.

Definition sweep (now : Z) (jobs : gmap string job) : gmap string job :=
  filter (fun kv => expired now kv.2 = false) jobs.

(** *** The spreadsheet pipeline, between its awaits *)

Inductive analysisResult : Type :=
  | AnalysisFailed (err : string)
  | Analysed (mappings : option columnMappings).

(** What the pipeline waits for next. *)
Inductive sheetPhase : Type :=
  | Reading
  | Analyzing (data : list row)
  | Inserting (data : list row) (toInsert : list contact)
  | Counting (data : list row) (toInsert inserted : list contact)
  | SheetDone.

(** [contacts.slice(0, remaining)], [None] standing for [Infinity]. *)
Definition slice0 {A} (l : list A) (n : option Z) : list A :=
  match n with
  | None => l
  | Some n =>
      if (0 <=? n)%Z then take (Z.to_nat n) l
      else take (length l - Z.to_nat (- n)) l
  end.

(** [contactLimit?.remaining || Infinity]. *)
Definition remainingOrInfinity (limit : option contactLimit) : option Z :=
  match limit with
  | Some l => if (remaining l =? 0)%Z then None else Some (remaining l)
  | None => None
  end.

Definition sheetContacts (userId : string) (m : columnMappings) (data : list row)
    : list contact :=
  filter (fun c => unidentifiable c = false)
         ((fun r =>
             {| user_id := userId;
                name := orElse (extractField r (map_name m)) "Unknown";
                email := normalizeEmail (extractField r (map_email m));
                phone := normalizePhone (extractField r (map_phone m));
                company := extractField r (map_company m);
                position := extractField r (map_position m);
                industry := extractField r (map_industry m);
                category := "Lead";
                notes := None;
                source := "spreadsheet_import";
                status := "active" |}) <$> data).

Section SheetPipeline.

Variables (jobId userId : string).
(** The parsed sheet ([None]: the workbook cannot be read), the limit the
    gate left on the request, the reply of the analysis service and
    whether the store accepts the insert. *)
Variables (file : option (list row)) (limit : option contactLimit)
          (analysis : analysisResult) (insertOk : bool).

Definition orCatch (jobs : gmap string job) (attempt : option (gmap string job))
    : gmap string job :=
  match attempt with
  | Some jobs' => jobs'
  | None => catchFailed jobId typeError jobs
  end.

(** One stretch of [processSpreadsheet] between two awaits, run at time
    [now] on the job map and the store. *)
Definition sheetStep (now : Z) (ph : sheetPhase) (jobs : gmap string job) (d : db)
    : sheetPhase * gmap string job * db :=
  match ph with
  | Reading =>
      let jobs1 := <[jobId := processingJob 10 "Reading file..." (Some now)]> jobs in
      match file with
      | None => (SheetDone, catchFailed jobId "Cannot read workbook" jobs1, d)
      | Some data =>
          (Analyzing data,
           orCatch jobs1
             (setKeepingCreatedAt jobId
                (processingJob 30
                   ("Found " ++ pretty (length data) ++ " rows. Analyzing...")) jobs1),
           d)
      end
  | Analyzing data =>
      match analysis with
      | AnalysisFailed err =>
          (SheetDone,
           orCatch jobs
             (setKeepingCreatedAt jobId
                (fun c => {| job_status := failed; progress := 100;
                             message := "Failed to analyze spreadsheet";
                             result := None; error := Some err; createdAt := c |}) jobs),
           d)
      | Analysed mappings =>
          match setKeepingCreatedAt jobId (processingJob 50 "Importing contacts...") jobs with
          | None => (SheetDone, catchFailed jobId typeError jobs, d)
          | Some jobs1 =>
              match mappings with
              | None => (SheetDone, catchFailed jobId typeError jobs1, d)
              | Some m =>
                  let contacts := sheetContacts userId m data in
                  let toInsert := slice0 contacts (remainingOrInfinity limit) in
                  if bool_decide (toInsert = []) then
                    (SheetDone,
                     orCatch jobs1
                       (setKeepingCreatedAt jobId
                          (completedJob "No valid contacts found to import"
                             (SheetResult 0 (length data) None)) jobs1),
                     d)
                  else (Inserting data toInsert, jobs1, d)
              end
          end
      end
  | Inserting data toInsert =>
      if insertOk then (Counting data toInsert toInsert, jobs, insertContacts toInsert d)
      else (SheetDone, catchFailed jobId typeError jobs, d)
  | Counting data toInsert inserted =>
      let d1 := increment_contact_count userId (Z.of_nat (length inserted)) d in
      (SheetDone,
       orCatch jobs
         (setKeepingCreatedAt jobId
            (completedJob
               ("Successfully imported " ++ pretty (length inserted) ++ " contacts")
               (SheetResult (length inserted) (length data)
                  (Some (length data - length toInsert)%nat))) jobs),
       d1)
  | SheetDone => (SheetDone, jobs, d)
  end.

(** The pipeline run to its end with nothing in between. *)
Definition processSpreadsheet (now : Z) (jobs : gmap string job) (d : db)
    : gmap string job * db :=
  let '(ph1, jobs1, d1) := sheetStep now Reading jobs d in
  let '(ph2, jobs2, d2) := sheetStep now ph1 jobs1 d1 in
  let '(ph3, jobs3, d3) := sheetStep now ph2 jobs2 d2 in
  let '(ph4, jobs4, d4) := sheetStep now ph3 jobs3 d3 in
  (jobs4, d4).

End SheetPipeline.

(** POST /api/uploads/spreadsheet, behind [authenticateToken] and
    [checkContactLimit]: registers the job and starts the pipeline, which
    runs up to its first await before the response is sent. *)
Inductive uploadResponse : Type :=
  | Accepted (jobId : string)
  | UploadRejected (httpStatus : Z) (code : string).

Definition uploadSpreadsheet (user : option string) (filePresent : bool)
    (file : option (list row)) (jobId : string) (now : Z)
    (jobs : gmap string job) (d : db)
    : uploadResponse * sheetPhase * gmap string job * option contactLimit :=
  match user with
  | None => (UploadRejected 401 "NO_TOKEN", SheetDone, jobs, None)
  | Some userId =>
      match checkContactLimit user (profiles d !! userId) with
      | Unauthorized => (UploadRejected 401 "UNAUTHORIZED", SheetDone, jobs, None)
      | ContactLimitReached _ _ _ =>
          (UploadRejected 403 "CONTACT_LIMIT_REACHED", SheetDone, jobs, None)
      | Next limit =>
          if negb filePresent then (UploadRejected 400 "NO_FILE", SheetDone, jobs, None)
          else
            let jobs0 := createJob jobId "Starting file processing..." now jobs in
            let '(ph, jobs1, _) :=
              sheetStep jobId userId file (Some limit) (AnalysisFailed "") true
                        now Reading jobs0 d in
            (Accepted jobId, ph, jobs1, Some limit)
      end
  end.

(** *** The business card pipeline, between its awaits *)

Inductive extraction : Type :=
  | ExtractionFailed (err : string)
  | Extracted (structured : option card).

Inductive cardPhase : Type :=
  | CardStart
  | Extracting
  | Storing (structured : option card)
  | InsertingCard (created : contact) (extracted : card)
  | CountingCard (created : contact) (extracted : card)
  | CardDone.

(** The contact [processNamecard] inserts ([category] is left to the
    column default). *)
Definition cardContact (userId : string) (extracted : card) : contact :=
  {| user_id := userId;
     name := orElse (card_name extracted) "Unknown";
     email := normalizeEmail (card_email extracted);
     phone := normalizePhone (card_phone extracted);
     company := card_company extracted;
     position := card_position extracted;
     industry := None;
     category := "";
     notes := card_raw_text extracted;
     source := "namecard_scan";
     status := "active" |}.

Section CardPipeline.

Variables (jobId userId : string).
Variables (reading : extraction) (insertError : option string).

Definition cardStep (ph : cardPhase) (jobs : gmap string job) (d : db)
    : cardPhase * gmap string job * db :=
  match ph with
  | CardStart =>
      match setKeepingCreatedAt jobId
              (processingJob 30 "Extracting text from image...") jobs with
      | None => (CardDone, catchFailed jobId typeError jobs, d)
      | Some jobs1 => (Extracting, jobs1, d)
      end
  | Extracting =>
      match reading with
      | ExtractionFailed err =>
          (CardDone,
           orCatch jobId jobs
             (setKeepingCreatedAt jobId
                (fun c => {| job_status := failed; progress := 100;
                             message := "Failed to extract text";
                             result := None; error := Some err; createdAt := c |})
                jobs),
           d)
      | Extracted structured =>
          match setKeepingCreatedAt jobId (processingJob 70 "Saving contact...") jobs with
          | None => (CardDone, catchFailed jobId typeError jobs, d)
          | Some jobs1 => (Storing structured, jobs1, d)
          end
      end
  | Storing structured =>
      match structured with
      | None => (CardDone, catchFailed jobId typeError jobs, d)
      | Some extracted =>
          (InsertingCard (cardContact userId extracted) extracted, jobs, d)
      end
  | InsertingCard c extracted =>
      match insertError with
      | Some err => (CardDone, catchFailed jobId err jobs, d)
      | None => (CountingCard c extracted, jobs, insertContacts [c] d)
      end
  | CountingCard c extracted =>
      (CardDone,
       orCatch jobId jobs
         (setKeepingCreatedAt jobId
            (completedJob "Contact created successfully" (CardResult c extracted)) jobs),
       increment_contact_count userId 1 d)
  | CardDone => (CardDone, jobs, d)
  end.

Definition processNamecard (jobs : gmap string job) (d : db) : gmap string job * db :=
  let '(ph1, jobs1, d1) := cardStep CardStart jobs d in
  let '(ph2, jobs2, d2) := cardStep ph1 jobs1 d1 in
  let '(ph3, jobs3, d3) := cardStep ph2 jobs2 d2 in
  let '(ph4, jobs4, d4) := cardStep ph3 jobs3 d3 in
  let '(ph5, jobs5, d5) := cardStep ph4 jobs4 d4 in
  (jobs5, d5).

End CardPipeline.

(** POST /api/uploads/namecard, behind [authenticateToken] (and the upload
    rate limiter): no quota gate stands before it. It registers the job and
    starts the pipeline, which runs up to its first await. *)
Definition uploadNamecard (user : option string) (filePresent : bool)
    (jobId : string) (now : Z) (jobs : gmap string job) (d : db)
    : uploadResponse * cardPhase * gmap string job :=
  match user with
  | None => (UploadRejected 401 "NO_TOKEN", CardDone, jobs)
  | Some userId =>
      if negb filePresent then (UploadRejected 400 "NO_FILE", CardDone, jobs)
      else
        let jobs0 := createJob jobId "Processing business card..." now jobs in
        let '(ph, jobs1, _) :=
          cardStep jobId userId (ExtractionFailed "") None CardStart jobs0 d in
        (Accepted jobId, ph, jobs1)
  end.

(** A job at rest: completed with a result or failed with an error, in
    both cases at progress 100. *)
Definition terminal (j : job) : Prop :=
  progress j = 100 /\
  ((job_status j = completed /\ is_Some (result j)) \/
   (job_status j = failed /\ is_Some (error j))).

(** *** Facts about the import *)

Lemma transformRows_length userId m defaultCategory i data :
  (length (transformRows userId m defaultCategory i data).1 +
   length (transformRows userId m defaultCategory i data).2 = length data)%nat.
Proof.
  revert i. induction data as [| r data IH]; intros i; [reflexivity |].
  cbn [transformRows]. specialize (IH (S i)).
  destruct (transformRows userId m defaultCategory (S i) data) as [cs es].
  destruct m as [m |]; [destruct (unidentifiable _) |]; cbn [fst snd length] in *; lia.
Qed.

Lemma filter_split_length {A} (f : A -> bool) (l : list A) :
  (length (filter (fun x => f x = false) l) +
   length (filter (fun x => f x = true) l) = length l)%nat.
Proof.
  induction l as [| x l IH]; [reflexivity |].
  rewrite !filter_cons. destruct (f x) eqn:Hx.
  - rewrite decide_False, decide_True by congruence. cbn [length]. lia.
  - rewrite decide_True, decide_False by congruence. cbn [length]. lia.
Qed.

(** Every response of the synchronous import either rejects the request
    and leaves the store as it was, or counts each row once. *)
Lemma import_rows_accounted_aux
    (user : option string) (file : option (list row))
    (mappings : option columnMappings) (skipDuplicates : bool)
    (defaultCategory : string) (insertOk : bool) (d : db) :
  match importSpreadsheet user file mappings skipDuplicates defaultCategory insertOk d with
  | (d', Imported r) =>
      (imported r + duplicates r + errors r = total r)%nat /\
      Some (total r) = length <$> file /\
      skipped r = Z.of_nat (duplicates r) /\
      length (contacts d') = (length (contacts d) + imported r)%nat
  | (d', ImportRejected _ _) => d' = d
  end /\
  (forall userId limit data,
     user = Some userId ->
     checkContactLimit user (profiles d !! userId) = Next limit ->
     file = Some data -> Z.of_nat (length data) <= remaining limit ->
     insertOk = true ->
     exists r d',
       importSpreadsheet user file mappings skipDuplicates defaultCategory insertOk d =
       (d', Imported r)).
Proof.
  split.
  - unfold importSpreadsheet.
    destruct user as [userId |]; [| reflexivity].
    destruct (checkContactLimit _ _) as [| ? ? ? | limit]; try reflexivity.
    destruct file as [data |]; [| reflexivity].
    destruct (remaining limit <? Z.of_nat (length data))%Z; [reflexivity |].
    pose proof (transformRows_length userId mappings defaultCategory 0 data) as Ht.
    destruct (transformRows userId mappings defaultCategory 0 data) as [contacts0 errs].
    cbn [fst snd] in Ht.
    destruct (skipDuplicates && negb (bool_decide (contacts0 = []))).
    + set (ee := email <$> existingMatches _ _ _ _).
      set (pp := phone <$> existingMatches _ _ _ _).
      pose proof (filter_split_length (isDupe ee pp) contacts0) as Hf.
      set (uniq := filter (fun c => isDupe ee pp c = false) contacts0) in *.
      set (dups := filter (fun c => isDupe ee pp c = true) contacts0) in *.
      destruct (negb (bool_decide (uniq = [])) && negb insertOk); [reflexivity |].
      cbn [imported duplicates errors total skipped].
      rewrite length_fmap.
      repeat split; try lia.
      destruct (bool_decide_reflect (uniq = [])) as [-> | _]; [cbn; lia |].
      cbn [increment_contact_count insertContacts contacts]. apply length_app.
    + destruct (negb (bool_decide (contacts0 = [])) && negb insertOk); [reflexivity |].
      cbn [imported duplicates errors total skipped length].
      repeat split; try lia.
      destruct (bool_decide_reflect (contacts0 = [])) as [-> | _]; [cbn; lia |].
      cbn [increment_contact_count insertContacts contacts]. apply length_app.
  - intros userId limit data -> Hgate -> Hle ->.
    unfold importSpreadsheet. rewrite Hgate.
    destruct (Z.ltb_spec (remaining limit) (Z.of_nat (length data))); [lia |].
    destruct (transformRows userId mappings defaultCategory 0 data) as [contacts0 errs].
    destruct (skipDuplicates && negb (bool_decide (contacts0 = [])));
      cbn [negb]; rewrite andb_false_r; eauto.
Qed.


(** *** Facts about jobs *)

Lemma insert_twice {V} (k : string) (a b : V) (m : gmap string V) :
  <[k := a]> (<[k := b]> m) = <[k := a]> m.
Proof. apply insert_insert_eq. Qed.

Lemma setKeepingCreatedAt_present (jobId : string) (mk : option Z -> job)
    (jobs : gmap string job) (j : job) :
  jobs !! jobId = Some j ->
  setKeepingCreatedAt jobId mk jobs = Some (<[jobId := mk (createdAt j)]> jobs).
Proof. intros Hj. unfold setKeepingCreatedAt. rewrite Hj. reflexivity. Qed.

Lemma terminal_completedJob msg r c : terminal (completedJob msg r c).
Proof. split; [reflexivity | left; split; [reflexivity | eexists; reflexivity]]. Qed.

Lemma terminal_failedJob msg e c : terminal (failedJob msg e c).
Proof. split; [reflexivity | right; split; [reflexivity | eexists; reflexivity]]. Qed.

Lemma catchFailed_terminal jobId e (jobs : gmap string job) :
  exists j, catchFailed jobId e jobs !! jobId = Some j /\ terminal j.
Proof.
  unfold catchFailed. rewrite lookup_insert_eq.
  eexists; split; [reflexivity | apply terminal_failedJob].
Qed.

Lemma orCatch_terminal jobId (mk : option Z -> job) (jobs : gmap string job) :
  (forall c, terminal (mk c)) ->
  exists j, orCatch jobId jobs (setKeepingCreatedAt jobId mk jobs) !! jobId = Some j /\
            terminal j.
Proof.
  intros Hmk. unfold setKeepingCreatedAt.
  destruct (jobs !! jobId) as [j0 |]; cbn [mbind option_bind orCatch].
  - rewrite lookup_insert_eq. eauto.
  - apply catchFailed_terminal.
Qed.

Lemma failed_terminal msg e c :
  terminal {| job_status := failed; progress := 100; message := msg;
              result := None; error := Some e; createdAt := c |}.
Proof. apply (terminal_failedJob msg e c). Qed.

Create HintDb jobs.
#[local] Hint Resolve terminal_completedJob terminal_failedJob failed_terminal
  catchFailed_terminal orCatch_terminal : jobs.

(** A step of the spreadsheet pipeline that ends it leaves the job
    terminal. *)
Lemma sheetStep_terminal jobId userId file limit analysis insertOk now ph
    (jobs : gmap string job) d :
  ph <> SheetDone ->
  (sheetStep jobId userId file limit analysis insertOk now ph jobs d).1.1 = SheetDone ->
  exists j,
    (sheetStep jobId userId file limit analysis insertOk now ph jobs d).1.2 !! jobId = Some j /\
    terminal j.
Proof.
  intros Hph. destruct ph as [| data | data toInsert | data toInsert inserted |];
    cbn [sheetStep]; [| | | | congruence].
  - destruct file; cbn [fst snd]; [discriminate | auto with jobs].
  - destruct analysis as [err | [m |]]; cbn [fst snd].
    + intros _. apply orCatch_terminal. intros c. apply failed_terminal.
    + destruct (setKeepingCreatedAt _ _ _) as [jobs1 |]; cbn [fst snd];
        [| auto with jobs].
      destruct (bool_decide _); cbn [fst snd]; [| discriminate].
      intros _. apply orCatch_terminal. auto with jobs.
    + destruct (setKeepingCreatedAt _ _ _); cbn [fst snd]; auto with jobs.
  - destruct insertOk; cbn [fst snd]; [discriminate | auto with jobs].
  - cbn [fst snd]. intros _. apply orCatch_terminal. auto with jobs.
Qed.

Lemma cardStep_terminal jobId userId reading insertError ph (jobs : gmap string job) d :
  ph <> CardDone ->
  (cardStep jobId userId reading insertError ph jobs d).1.1 = CardDone ->
  exists j,
    (cardStep jobId userId reading insertError ph jobs d).1.2 !! jobId = Some j /\
    terminal j.
Proof.
  intros Hph. destruct ph as [| | structured | c extracted | c extracted |];
    cbn [cardStep]; [| | | | | congruence].
  - destruct (setKeepingCreatedAt _ _ _); cbn [fst snd]; [discriminate | auto with jobs].
  - destruct reading as [err | structured]; cbn [fst snd].
    + intros _. apply orCatch_terminal. intros c. apply failed_terminal.
    + destruct (setKeepingCreatedAt _ _ _); cbn [fst snd]; [discriminate | auto with jobs].
  - destruct structured; cbn [fst snd]; [discriminate | auto with jobs].
  - destruct insertError; cbn [fst snd]; [auto with jobs | discriminate].
  - cbn [fst snd]. intros _. apply orCatch_terminal. auto with jobs.
Qed.

(** Each step moves the pipeline on. *)
Definition sheetRank (ph : sheetPhase) : nat :=
  match ph with
  | Reading => 0
  | Analyzing _ => 1
  | Inserting _ _ => 2
  | Counting _ _ _ => 3
  | SheetDone => 4
  end.

Definition cardRank (ph : cardPhase) : nat :=
  match ph with
  | CardStart => 0
  | Extracting => 1
  | Storing _ => 2
  | InsertingCard _ _ => 3
  | CountingCard _ _ => 4
  | CardDone => 5
  end.

Lemma sheetStep_rank jobId userId file limit analysis insertOk now ph
    (jobs : gmap string job) d :
  ph <> SheetDone ->
  (sheetRank ph <
   sheetRank (sheetStep jobId userId file limit analysis insertOk now ph jobs d).1.1)%nat.
Proof.
  intros Hph. destruct ph; cbn [sheetStep]; [| | | | congruence].
  - destruct file; cbn; lia.
  - destruct analysis as [err | [m |]]; cbn [fst snd sheetRank]; [lia | | ].
    + destruct (setKeepingCreatedAt _ _ _); cbn [fst snd sheetRank]; [| lia].
      destruct (bool_decide _); cbn; lia.
    + destruct (setKeepingCreatedAt _ _ _); cbn; lia.
  - destruct insertOk; cbn; lia.
  - cbn. lia.
Qed.

Lemma cardStep_rank jobId userId reading insertError ph (jobs : gmap string job) d :
  ph <> CardDone ->
  (cardRank ph < cardRank (cardStep jobId userId reading insertError ph jobs d).1.1)%nat.
Proof.
  intros Hph. destruct ph; cbn [cardStep]; [| | | | | congruence].
  - destruct (setKeepingCreatedAt _ _ _); cbn; lia.
  - destruct reading; cbn [fst snd cardRank]; [lia |].
    destruct (setKeepingCreatedAt _ _ _); cbn; lia.
  - destruct structured; cbn; lia.
  - destruct insertError; cbn; lia.
  - cbn. lia.
Qed.

Section Runs.

Variables (jobId userId : string).

Definition atRest (done : bool) (jobs : gmap string job) : Prop :=
  done = true -> exists j, jobs !! jobId = Some j /\ terminal j.

Definition sheetDone (ph : sheetPhase) : bool :=
  match ph with SheetDone => true | _ => false end.

Definition cardDone (ph : cardPhase) : bool :=
  match ph with CardDone => true | _ => false end.

Lemma sheetStep_keeps file limit analysis insertOk now ph (jobs : gmap string job) d :
  atRest (sheetDone ph) jobs ->
  atRest (sheetDone (sheetStep jobId userId file limit analysis insertOk now ph jobs d).1.1)
         (sheetStep jobId userId file limit analysis insertOk now ph jobs d).1.2 /\
  (Nat.min 4 (S (sheetRank ph)) <=
   sheetRank (sheetStep jobId userId file limit analysis insertOk now ph jobs d).1.1)%nat.
Proof.
  intros Hinv.
  assert (Hcase : ph = SheetDone \/ ph <> SheetDone)
    by (destruct ph; first [left; reflexivity | right; discriminate]).
  destruct Hcase as [-> | Hne].
  - cbn [sheetStep fst snd sheetRank]. split; [exact Hinv | lia].
  - pose proof (sheetStep_rank jobId userId file limit analysis insertOk now ph jobs d Hne).
    split; [| lia].
    intros Hdone. apply sheetStep_terminal; [exact Hne |].
    destruct (sheetStep _ _ _ _ _ _ _ _ _ _).1.1; try discriminate. reflexivity.
Qed.

Lemma cardStep_keeps reading insertError ph (jobs : gmap string job) d :
  atRest (cardDone ph) jobs ->
  atRest (cardDone (cardStep jobId userId reading insertError ph jobs d).1.1)
         (cardStep jobId userId reading insertError ph jobs d).1.2 /\
  (Nat.min 5 (S (cardRank ph)) <=
   cardRank (cardStep jobId userId reading insertError ph jobs d).1.1)%nat.
Proof.
  intros Hinv.
  assert (Hcase : ph = CardDone \/ ph <> CardDone)
    by (destruct ph; first [left; reflexivity | right; discriminate]).
  destruct Hcase as [-> | Hne].
  - cbn [cardStep fst snd cardRank]. split; [exact Hinv | lia].
  - pose proof (cardStep_rank jobId userId reading insertError ph jobs d Hne).
    split; [| lia].
    intros Hdone. apply cardStep_terminal; [exact Hne |].
    destruct (cardStep _ _ _ _ _ _ _).1.1; try discriminate. reflexivity.
Qed.

Lemma sheetRank_done ph : (4 <= sheetRank ph)%nat -> sheetDone ph = true.
Proof. destruct ph; cbn; intros; try lia; reflexivity. Qed.

Lemma cardRank_done ph : (5 <= cardRank ph)%nat -> cardDone ph = true.
Proof. destruct ph; cbn; intros; try lia; reflexivity. Qed.

(** Whatever the parsed file, the analysis and the store answer, the
    spreadsheet pipeline ends with the job at rest. *)
Lemma processSpreadsheet_terminal file limit analysis insertOk now
    (jobs : gmap string job) d :
  exists j,
    (processSpreadsheet jobId userId file limit analysis insertOk now jobs d).1 !! jobId
      = Some j /\ terminal j.
Proof.
  unfold processSpreadsheet.
  assert (H0 : atRest (sheetDone Reading) jobs) by (intros [=]).
  pose proof (sheetStep_keeps file limit analysis insertOk now Reading jobs d H0) as [H1 R1].
  destruct (sheetStep _ _ _ _ _ _ now Reading jobs d) as [[ph1 jobs1] d1].
  cbn [fst snd] in H1, R1.
  pose proof (sheetStep_keeps file limit analysis insertOk now ph1 jobs1 d1 H1) as [H2 R2].
  destruct (sheetStep _ _ _ _ _ _ now ph1 jobs1 d1) as [[ph2 jobs2] d2].
  cbn [fst snd] in H2, R2.
  pose proof (sheetStep_keeps file limit analysis insertOk now ph2 jobs2 d2 H2) as [H3 R3].
  destruct (sheetStep _ _ _ _ _ _ now ph2 jobs2 d2) as [[ph3 jobs3] d3].
  cbn [fst snd] in H3, R3.
  pose proof (sheetStep_keeps file limit analysis insertOk now ph3 jobs3 d3 H3) as [H4 R4].
  destruct (sheetStep _ _ _ _ _ _ now ph3 jobs3 d3) as [[ph4 jobs4] d4].
  cbn [fst snd] in *. apply H4, sheetRank_done. cbn [sheetRank] in R1. lia.
Qed.

Lemma processNamecard_terminal reading insertError (jobs : gmap string job) d :
  exists j,
    (processNamecard jobId userId reading insertError jobs d).1 !! jobId = Some j /\
    terminal j.
Proof.
  unfold processNamecard.
  assert (H0 : atRest (cardDone CardStart) jobs) by (intros [=]).
  pose proof (cardStep_keeps reading insertError CardStart jobs d H0) as [H1 R1].
  destruct (cardStep _ _ _ _ CardStart jobs d) as [[ph1 jobs1] d1].
  cbn [fst snd] in H1, R1.
  pose proof (cardStep_keeps reading insertError ph1 jobs1 d1 H1) as [H2 R2].
  destruct (cardStep _ _ _ _ ph1 jobs1 d1) as [[ph2 jobs2] d2].
  cbn [fst snd] in H2, R2.
  pose proof (cardStep_keeps reading insertError ph2 jobs2 d2 H2) as [H3 R3].
  destruct (cardStep _ _ _ _ ph2 jobs2 d2) as [[ph3 jobs3] d3].
  cbn [fst snd] in H3, R3.
  pose proof (cardStep_keeps reading insertError ph3 jobs3 d3 H3) as [H4 R4].
  destruct (cardStep _ _ _ _ ph3 jobs3 d3) as [[ph4 jobs4] d4].
  cbn [fst snd] in H4, R4.
  pose proof (cardStep_keeps reading insertError ph4 jobs4 d4 H4) as [H5 R5].
  destruct (cardStep _ _ _ _ ph4 jobs4 d4) as [[ph5 jobs5] d5].
  cbn [fst snd] in *. apply H5, cardRank_done. cbn [cardRank] in R1. lia.
Qed.

End Runs.

Lemma sweep_expired now (jobs : gmap string job) jobId j :
  jobs !! jobId = Some j -> expired now j = true -> sweep now jobs !! jobId = None.
Proof.
  intros Hj He. unfold sweep. apply map_lookup_filter_None. right.
  intros j' Hj'. cbn. rewrite Hj in Hj'. injection Hj' as <-. rewrite He. discriminate.
Qed.

Lemma sweep_kept now (jobs : gmap string job) jobId j :
  jobs !! jobId = Some j -> expired now j = false -> sweep now jobs !! jobId = Some j.
Proof.
  intros Hj He. unfold sweep. apply map_lookup_filter_Some. split; [exact Hj | exact He].
Qed.


(** A job registered at noon is still there at half past twelve and gone
    after the clean-up of a quarter past one. *)
Example sweep_after_an_hour :
  getStatus (Some "u1") "job-1"
    (sweep 1705321800000 (createJob "job-1" "Starting file processing..." 1705320000000 ∅))
  = JobFound "job-1" (processingJob 0 "Starting file processing..." (Some 1705320000000)) /\
  getStatus (Some "u1") "job-1"
    (sweep 1705324500000 (createJob "job-1" "Starting file processing..." 1705320000000 ∅))
  = StatusRejected 404 "JOB_NOT_FOUND".
Proof. split; vm_compute; reflexivity. Qed.

(** By the time an upload is answered the pipeline has already run to its
    first await: the job a client can poll is at progress 30. *)
Lemma upload_answers_at_progress_30 (userId jobId : string) (now : Z)
    (jobs : gmap string job) (d : db) (data : list row) (limit : contactLimit) :
  (uploadNamecard (Some userId) true jobId now jobs d).2 !! jobId =
    Some (processingJob 30 "Extracting text from image..." (Some now)) /\
  (checkContactLimit (Some userId) (profiles d !! userId) = Next limit ->
   (uploadSpreadsheet (Some userId) true (Some data) jobId now jobs d).1.2 !! jobId =
     Some (processingJob 30 ("Found " ++ pretty (length data) ++ " rows. Analyzing...")
             (Some now))).
Proof.
  split.
  - unfold uploadNamecard, createJob, cardStep, setKeepingCreatedAt. cbn [negb].
    rewrite lookup_insert_eq. cbn [mbind option_bind createdAt processingJob snd].
    apply lookup_insert_eq.
  - intros Hg. unfold uploadSpreadsheet. rewrite Hg. cbn [negb sheetStep].
    unfold createJob, setKeepingCreatedAt. rewrite lookup_insert_eq.
    cbn [mbind option_bind orCatch createdAt processingJob fst snd].
    apply lookup_insert_eq.
Qed.

(** A job whose pipeline met an empty slot (the clean-up ran in between)
    is written back without [createdAt], and no clean-up drops it. *)
Lemma failed_after_sweep_is_kept (jobId : string) (e : string) (now : Z)
    (jobs : gmap string job) :
  jobs !! jobId = None ->
  sweep now (catchFailed jobId e jobs) !! jobId =
    Some (failedJob "Processing failed" e None).
Proof.
  intros Hj. apply sweep_kept.
  - unfold catchFailed. rewrite lookup_insert_eq, Hj. reflexivity.
  - reflexivity.
Qed.

Lemma failed_after_sweep_is_kept_witness :
  (∅ : gmap string job) !! "job-3" = None /\
  sweep 1705400000000 (catchFailed "job-3" typeError ∅) !! "job-3" =
    Some (failedJob "Processing failed" typeError None).
Proof.
  split; [reflexivity |].
  apply (failed_after_sweep_is_kept "job-3" typeError 1705400000000 ∅). reflexivity.
Defined.


(** The contact read off tenant A's business card is handed to tenant B. *)
Example status_shows_other_tenants_contact :
  let extracted :=
    {| card_name := Some "Amy Tan"; card_email := Some "amy@example.com";
       card_phone := Some "0123456789"; card_company := Some "Acme";
       card_position := None; card_raw_text := Some "Amy Tan, Acme" |} in
  let registered := (uploadNamecard (Some "tenant-a") true "job-9" 1705320000000 ∅
                       {| contacts := []; profiles := ∅ |}).2 in
  let finished := (processNamecard "job-9" "tenant-a" (Extracted (Some extracted)) None
                     registered {| contacts := []; profiles := ∅ |}).1 in
  getStatus (Some "tenant-b") "job-9" finished =
    JobFound "job-9"
      (completedJob "Contact created successfully"
         (CardResult (cardContact "tenant-a" extracted) extracted)
         (Some 1705320000000)) /\
  user_id (cardContact "tenant-a" extracted) = "tenant-a".
Proof. vm_compute. split; reflexivity. Qed.

(** *** The quota on the routes that create contacts *)

Lemma gate_next (userId : string) (userProfile : option profile) (limit : contactLimit) :
  checkContactLimit (Some userId) userProfile = Next limit ->
  current limit = currentOf userProfile /\ max limit = ceilingOf userProfile /\
  remaining limit = ceilingOf userProfile - currentOf userProfile /\
  0 < remaining limit.
Proof.
  rewrite checkContactLimit_eq.
  destruct (Z.leb_spec (ceilingOf userProfile) (currentOf userProfile)); [discriminate |].
  intros [= <-]. cbn. repeat split; lia.
Qed.

Lemma gate_reached (userId : string) (userProfile : option profile) c m pl :
  checkContactLimit (Some userId) userProfile = ContactLimitReached c m pl ->
  ceilingOf userProfile <= currentOf userProfile.
Proof.
  rewrite checkContactLimit_eq.
  destruct (Z.leb_spec (ceilingOf userProfile) (currentOf userProfile)); [lia | discriminate].
Qed.

Section SheetSteps.

Variables (jobId userId : string) (limit : contactLimit) (m : columnMappings).
Variables (data : list row) (now : Z).

Local Abbreviation step :=
  (sheetStep jobId userId (Some data) (Some limit) (Analysed (Some m)) true now).
Local Abbreviation toInsert :=
  (take (Z.to_nat (remaining limit)) (sheetContacts userId m data)).

Lemma step_reading (jobs : gmap string job) (d : db) :
  step Reading jobs d =
  (Analyzing data,
   <[jobId := processingJob 30 ("Found " ++ pretty (length data) ++ " rows. Analyzing...")
                (Some now)]> jobs, d).
Proof.
  cbn [sheetStep].
  rewrite (setKeepingCreatedAt_present jobId _ _ _ (lookup_insert_eq _ _ _)).
  cbn [orCatch createdAt processingJob]. rewrite insert_twice. reflexivity.
Qed.

Lemma step_analyzing (jobs : gmap string job) (d : db) (j : job) :
  jobs !! jobId = Some j -> 0 < remaining limit -> toInsert <> [] ->
  step (Analyzing data) jobs d =
  (Inserting data toInsert,
   <[jobId := processingJob 50 "Importing contacts..." (createdAt j)]> jobs, d).
Proof.
  intros Hj Hpos Hne. cbn [sheetStep].
  rewrite (setKeepingCreatedAt_present jobId _ _ j Hj).
  unfold remainingOrInfinity.
  destruct (Z.eqb_spec (remaining limit) 0) as [H0 | _]; [lia |].
  unfold slice0. destruct (Z.leb_spec 0 (remaining limit)) as [_ | Hneg]; [| lia].
  rewrite bool_decide_eq_false_2 by exact Hne. reflexivity.
Qed.

Lemma step_counting (jobs : gmap string job) (d : db) (j : job) (rows : list contact) :
  jobs !! jobId = Some j ->
  step (Counting data rows rows) jobs d =
  (SheetDone,
   <[jobId := completedJob
                ("Successfully imported " ++ pretty (length rows) ++ " contacts")
                (SheetResult (length rows) (length data)
                   (Some (length data - length rows)%nat))
                (createdAt j)]> jobs,
   increment_contact_count userId (Z.of_nat (length rows)) d).
Proof.
  intros Hj. cbn [sheetStep].
  rewrite (setKeepingCreatedAt_present jobId _ _ j Hj). reflexivity.
Qed.

(** The background import of a readable sheet the analysis mapped, when
    the store accepts the insert: the first [remaining] identifiable rows
    go in, whatever the table already holds. *)
Lemma processSpreadsheet_truncates (jobs : gmap string job) (d : db) :
  0 < remaining limit -> toInsert <> [] ->
  processSpreadsheet jobId userId (Some data) (Some limit) (Analysed (Some m)) true
    now jobs d =
  (<[jobId :=
       completedJob
         ("Successfully imported " ++ pretty (length toInsert) ++ " contacts")
         (SheetResult (length toInsert) (length data)
            (Some (length data - length toInsert)%nat))
         (Some now)]> jobs,
   increment_contact_count userId (Z.of_nat (length toInsert))
     (insertContacts toInsert d)).
Proof.
  intros Hpos Hne. unfold processSpreadsheet.
  rewrite step_reading. cbv beta iota zeta.
  rewrite (step_analyzing _ _ _ (lookup_insert_eq _ _ _) Hpos Hne), insert_twice.
  cbv beta iota zeta. cbn [createdAt processingJob].
  change (step (Inserting data toInsert) ?js ?dd)
    with (Counting data toInsert toInsert, js, insertContacts toInsert dd).
  cbv beta iota zeta.
  rewrite (step_counting _ _ _ _ (lookup_insert_eq _ _ _)), insert_twice.
  reflexivity.
Qed.

End SheetSteps.

(** The specification's reading of the quota: the ceiling by plan
    (free and trial 50, base 250000, enterprise 1000000, anything else as
    free) and the headroom [max(0, max - current)]. *)
Definition specCeiling (plan : option string) : Z :=
  if decide (plan = Some "base") then 250000
  else if decide (plan = Some "enterprise") then 1000000
  else 50.

Definition specRemaining (userProfile : option profile) : Z :=
  Z.max 0 (specCeiling (p ← userProfile; subscription_plan p) - currentOf userProfile).

Lemma ceilingOf_spec (userProfile : option profile) :
  ceilingOf userProfile = specCeiling (p ← userProfile; subscription_plan p).
Proof.
  unfold ceilingOf, specCeiling, planLimits.
  destruct (p ← userProfile; subscription_plan p) as [plan |]; cbn [orElse];
    [| reflexivity].
  destruct (String.eqb_spec plan "") as [-> | _]; [reflexivity |].
  destruct (String.eqb_spec plan "free") as [-> | _]; [reflexivity |].
  destruct (String.eqb_spec plan "trial") as [-> | _]; [reflexivity |].
  destruct (String.eqb_spec plan "base") as [-> | Hb]; [reflexivity |].
  destruct (String.eqb_spec plan "enterprise") as [-> | He]; [reflexivity |].
  rewrite !decide_False by congruence. reflexivity.
Qed.

Lemma gate_by_headroom (userId : string) (userProfile : option profile) :
  (specRemaining userProfile = 0 ->
   exists c m pl, checkContactLimit (Some userId) userProfile = ContactLimitReached c m pl) /\
  (0 < specRemaining userProfile ->
   checkContactLimit (Some userId) userProfile =
     Next {| current := currentOf userProfile;
             max := specCeiling (p ← userProfile; subscription_plan p);
             remaining := specRemaining userProfile |}).
Proof.
  unfold specRemaining. rewrite checkContactLimit_eq, ceilingOf_spec.
  destruct (Z.leb_spec (specCeiling (p ← userProfile; subscription_plan p))
                       (currentOf userProfile)); split; intros H1; try lia; eauto.
  do 2 f_equal. lia.
Qed.

Lemma gate_remaining (userId : string) (userProfile : option profile) (limit : contactLimit) :
  checkContactLimit (Some userId) userProfile = Next limit ->
  remaining limit = specRemaining userProfile /\ 0 < specRemaining userProfile.
Proof.
  intros H. destruct (gate_next userId userProfile limit H) as (_ & _ & Hr & Hpos).
  unfold specRemaining. rewrite <- ceilingOf_spec. lia.
Qed.

Lemma gate_full (userId : string) (userProfile : option profile) c m pl :
  checkContactLimit (Some userId) userProfile = ContactLimitReached c m pl ->
  specRemaining userProfile = 0.
Proof.
  intros H. pose proof (gate_reached userId userProfile c m pl H).
  unfold specRemaining. rewrite <- ceilingOf_spec. lia.
Qed.

(** What POST /api/contacts does to the table, by the headroom. *)
Lemma createContact_quota (userId : string) (b : contactBody) (duplicates : list contact)
    (insertOk : bool) (d : db) :
  match createContact (Some userId) b duplicates insertOk d with
  | (d', Created n) =>
      n = 1%nat /\ 1 <= specRemaining (profiles d !! userId) /\
      length (contacts d') = S (length (contacts d))
  | (d', Rejected _ _) => d' = d
  end /\
  (specRemaining (profiles d !! userId) < 1 ->
   createContact (Some userId) b duplicates insertOk d =
     (d, Rejected 403 "CONTACT_LIMIT_REACHED")).
Proof.
  unfold createContact.
  destruct (checkContactLimit (Some userId) (profiles d !! userId))
    as [| c m pl | limit] eqn:Hg.
  - split; [reflexivity |]. intros _.
    unfold checkContactLimit in Hg.
    destruct (_ <=? _)%Z in Hg; discriminate.
  - split; reflexivity.
  - destruct (gate_remaining _ _ _ Hg) as [Hr Hpos]. split; [| lia].
    destruct (negb (validateContact b)); [reflexivity |].
    destruct ((truthy (body_email b) || truthy (body_phone b)) &&
              negb (bool_decide (duplicates = []))); [reflexivity |].
    destruct (negb insertOk); [reflexivity |].
    cbn [increment_contact_count insertContacts contacts].
    rewrite length_app. cbn [length]. repeat split; lia.
Qed.

(** What POST /api/contacts/bulk does to the table, by the headroom. *)
Lemma bulkCreate_quota (userId : string) (cs : list contactBody) (insertOk : bool) (d : db) :
  match bulkCreate (Some userId) (Some cs) insertOk d with
  | (d', Created n) =>
      n = length cs /\ Z.of_nat n <= specRemaining (profiles d !! userId) /\
      length (contacts d') = (length (contacts d) + n)%nat
  | (d', Rejected _ _) => d' = d
  end /\
  (specRemaining (profiles d !! userId) < Z.of_nat (length cs) ->
   (length cs <= 500)%nat ->
   exists code, bulkCreate (Some userId) (Some cs) insertOk d = (d, Rejected 403 code)).
Proof.
  unfold bulkCreate.
  destruct (checkContactLimit (Some userId) (profiles d !! userId))
    as [| c m pl | limit] eqn:Hg.
  - unfold checkContactLimit in Hg. destruct (_ <=? _)%Z in Hg; discriminate.
  - split; [reflexivity | eauto].
  - destruct (gate_remaining _ _ _ Hg) as [Hr Hpos]. rewrite <- Hr.
    destruct cs as [| c0 cs]; [split; [reflexivity | cbn; lia] |].
    destruct (Nat.ltb_spec 500 (length (c0 :: cs))) as [Hbig | Hsmall];
      [split; [reflexivity | lia] |].
    destruct (Z.ltb_spec (remaining limit) (Z.of_nat (length (c0 :: cs)))) as [Hover | Hfit];
      [split; [reflexivity | eauto] |].
    split; [| lia].
    destruct (negb insertOk); [reflexivity |].
    cbn [increment_contact_count insertContacts contacts].
    rewrite length_app, !length_fmap. repeat split; lia.
Qed.

(** The background import adds at most [remaining] rows. *)
Lemma slice0_length {A} (l : list A) (n : Z) :
  0 < n -> Z.of_nat (length (slice0 l (Some n))) <= n.
Proof.
  intros Hn. unfold slice0. destruct (Z.leb_spec 0 n); [| lia].
  rewrite length_take. lia.
Qed.

(** How far the table may have grown, by the phase the pipeline is in. *)
Definition sheetBound (R : Z) (n0 : nat) (ph : sheetPhase) (d : db) : Prop :=
  match ph with
  | Reading | Analyzing _ => length (contacts d) = n0
  | Inserting _ toInsert =>
      Z.of_nat (length toInsert) <= R /\ length (contacts d) = n0
  | Counting _ _ _ | SheetDone =>
      Z.of_nat (length (contacts d)) <= Z.of_nat n0 + R
  end.

Lemma sheetStep_bound jobId userId file (limit : contactLimit) analysis insertOk now ph
    (jobs : gmap string job) (d : db) (n0 : nat) :
  0 < remaining limit ->
  sheetBound (remaining limit) n0 ph d ->
  sheetBound (remaining limit) n0
    (sheetStep jobId userId file (Some limit) analysis insertOk now ph jobs d).1.1
    (sheetStep jobId userId file (Some limit) analysis insertOk now ph jobs d).2.
Proof.
  intros Hpos Hph. destruct ph as [| data | data toInsert | data toInsert inserted |];
    cbn [sheetStep sheetBound] in *.
  - destruct file; cbn [fst snd sheetBound]; lia.
  - destruct analysis as [err | [m |]]; cbn [fst snd sheetBound]; [lia | |].
    + destruct (setKeepingCreatedAt _ _ _); cbn [fst snd sheetBound]; [| lia].
      destruct (bool_decide _); cbn [fst snd sheetBound]; [lia |].
      split; [| exact Hph].
      unfold remainingOrInfinity. destruct (Z.eqb_spec (remaining limit) 0); [lia |].
      apply slice0_length, Hpos.
    + destruct (setKeepingCreatedAt _ _ _); cbn [fst snd sheetBound]; lia.
  - destruct insertOk; cbn [fst snd sheetBound]; [| lia].
    cbn [insertContacts contacts]. rewrite length_app. lia.
  - exact Hph.
  - exact Hph.
Qed.

Lemma processSpreadsheet_bound jobId userId file (limit : contactLimit) analysis insertOk
    now (jobs : gmap string job) (d : db) :
  0 < remaining limit ->
  Z.of_nat (length (contacts
    (processSpreadsheet jobId userId file (Some limit) analysis insertOk now jobs d).2))
  <= Z.of_nat (length (contacts d)) + remaining limit.
Proof.
  intros Hpos. unfold processSpreadsheet.
  assert (H0 : sheetBound (remaining limit) (length (contacts d)) Reading d) by reflexivity.
  pose proof (sheetStep_bound jobId userId file limit analysis insertOk now
                Reading jobs d _ Hpos H0) as H1.
  destruct (sheetStep _ _ _ _ _ _ now Reading jobs d) as [[ph1 jobs1] d1].
  cbn [fst snd] in H1.
  pose proof (sheetStep_bound jobId userId file limit analysis insertOk now
                ph1 jobs1 d1 _ Hpos H1) as H2.
  destruct (sheetStep _ _ _ _ _ _ now ph1 jobs1 d1) as [[ph2 jobs2] d2].
  cbn [fst snd] in H2.
  pose proof (sheetStep_bound jobId userId file limit analysis insertOk now
                ph2 jobs2 d2 _ Hpos H2) as H3.
  destruct (sheetStep _ _ _ _ _ _ now ph2 jobs2 d2) as [[ph3 jobs3] d3].
  cbn [fst snd] in H3.
  pose proof (sheetStep_bound jobId userId file limit analysis insertOk now
                ph3 jobs3 d3 _ Hpos H3) as H4.
  destruct (sheetStep _ _ _ _ _ _ now ph3 jobs3 d3) as [[ph4 jobs4] d4].
  cbn [fst snd] in *.
  destruct ph4; cbn [sheetBound] in H4; lia.
Qed.

(** *** The scenario of the specification: a tenant on the base plan with
    249999 contacts sends a sheet of five rows, the first of which is a
    contact the tenant already has *)

Definition sheetRow (n e : string) : row := {[ "Name" := n; "Email" := e ]}.

Definition fiveRows : list row :=
  [ sheetRow "Amy Tan" "amy@example.com";
    sheetRow "Ben Lim" "ben@example.com";
    sheetRow "Chong Wei" "chong@example.com";
    sheetRow "Devi Nair" "devi@example.com";
    sheetRow "Ean Ong" "ean@example.com" ].

Definition nameEmail : columnMappings :=
  {| map_name := Some "Name"; map_email := Some "Email"; map_phone := None;
     map_company := None; map_position := None; map_industry := None;
     map_notes := None |}.

Definition amy : contact :=
  {| user_id := "u1"; name := "Amy Tan"; email := Some "amy@example.com";
     phone := None; company := None; position := None; industry := None;
     category := "Lead"; notes := None; source := "manual"; status := "active" |}.

Definition baseAt249999 : db :=
  {| contacts := [amy];
     profiles := {[ "u1" := {| subscription_plan := Some "base";
                               contact_count := Some 249999 |} ]} |}.

Definition oneLeft : contactLimit :=
  {| current := 249999; max := 250000; remaining := 1 |}.

(** The import route rejects the whole file: five rows are more than the
    one contact that remains, and nothing is imported. *)
Lemma import_over_remaining_is_rejected :
  checkContactLimit (Some "u1") (profiles baseAt249999 !! "u1") = Next oneLeft /\
  importSpreadsheet (Some "u1") (Some fiveRows) (Some nameEmail) true "Lead" true
    baseAt249999 =
  (baseAt249999, ImportRejected 403 "CONTACT_LIMIT_EXCEEDED").
Proof. split; vm_compute; reflexivity. Qed.


(** C1, as the code has it: the import route (the one that can skip
    duplicates) rejects a file with more rows than the remaining quota as
    a whole, before it looks at duplicates, and inserts nothing. It is the
    background upload that truncates: it inserts the first [remaining]
    identifiable rows, without looking for duplicates, and reports
    [imported], [total] and [skipped = total - imported]. *)
Theorem bulk_import_over_remaining
    (userId : string) (d : db) (limit : contactLimit) (data : list row) :
  checkContactLimit (Some userId) (profiles d !! userId) = Next limit ->
  remaining limit < Z.of_nat (length data) ->
  (forall mappings skipDuplicates defaultCategory insertOk,
     importSpreadsheet (Some userId) (Some data) mappings skipDuplicates
       defaultCategory insertOk d =
     (d, ImportRejected 403 "CONTACT_LIMIT_EXCEEDED")) /\
  (forall jobId m now (jobs : gmap string job),
     take (Z.to_nat (remaining limit)) (sheetContacts userId m data) <> [] ->
     processSpreadsheet jobId userId (Some data) (Some limit) (Analysed (Some m)) true
       now jobs d =
     (<[jobId :=
          completedJob
            ("Successfully imported " ++
             pretty (length (take (Z.to_nat (remaining limit))
                               (sheetContacts userId m data))) ++ " contacts")
            (SheetResult
               (length (take (Z.to_nat (remaining limit)) (sheetContacts userId m data)))
               (length data)
               (Some (length data -
                      length (take (Z.to_nat (remaining limit))
                                (sheetContacts userId m data)))%nat))
            (Some now)]> jobs,
      increment_contact_count userId
        (Z.of_nat (length (take (Z.to_nat (remaining limit))
                             (sheetContacts userId m data))))
        (insertContacts (take (Z.to_nat (remaining limit)) (sheetContacts userId m data))
           d))).
Proof.
  intros Hgate Hover. split.
  - intros mappings skipDuplicates defaultCategory insertOk.
    unfold importSpreadsheet. rewrite Hgate.
    destruct (Z.ltb_spec (remaining limit) (Z.of_nat (length data))); [reflexivity | lia].
  - intros jobId m now jobs Hne.
    destruct (gate_next _ _ _ Hgate) as (_ & _ & _ & Hpos).
    apply processSpreadsheet_truncates; assumption.
Qed.

Lemma bulk_import_over_remaining_witness :
  (checkContactLimit (Some "u1") (profiles baseAt249999 !! "u1") = Next oneLeft /\
   remaining oneLeft < Z.of_nat (length fiveRows)) /\
  importSpreadsheet (Some "u1") (Some fiveRows) (Some nameEmail) true "Lead" true
    baseAt249999 =
  (baseAt249999, ImportRejected 403 "CONTACT_LIMIT_EXCEEDED").
Proof.
  split; [split; [reflexivity | cbn; lia] |].
  apply (proj1 (bulk_import_over_remaining "u1" baseAt249999 oneLeft fiveRows
                  eq_refl ltac:(cbn; lia))).
Defined.


(** No quota gate stands before the business card upload: whatever the
    tenant's count, the upload is accepted, and when the card is read and
    the store accepts the row, the pipeline inserts the contact and
    increments the counter. *)
Lemma namecard_upload_is_not_gated (userId jobId : string) (now : Z)
    (jobs : gmap string job) (d : db) (extracted : card) :
  (uploadNamecard (Some userId) true jobId now jobs d).1.1 = Accepted jobId /\
  processNamecard jobId userId (Extracted (Some extracted)) None
    (createJob jobId "Processing business card..." now jobs) d =
  (<[jobId := completedJob "Contact created successfully"
                (CardResult (cardContact userId extracted) extracted) (Some now)]> jobs,
   increment_contact_count userId 1 (insertContacts [cardContact userId extracted] d)).
Proof.
  split.
  - unfold uploadNamecard. cbn [negb cardStep]. unfold createJob, setKeepingCreatedAt.
    rewrite lookup_insert_eq. reflexivity.
  - unfold processNamecard, createJob. cbn [cardStep].
    rewrite (setKeepingCreatedAt_present jobId _ _ _ (lookup_insert_eq _ _ _)).
    rewrite insert_twice. cbv beta iota zeta. cbn [cardStep].
    rewrite (setKeepingCreatedAt_present jobId _ _ _ (lookup_insert_eq _ _ _)).
    rewrite insert_twice. cbv beta iota zeta. cbn [cardStep createdAt processingJob].
    rewrite (setKeepingCreatedAt_present jobId _ _ _ (lookup_insert_eq _ _ _)).
    rewrite insert_twice. reflexivity.
Qed.

(** A tenant at the ceiling of the free plan still gets a contact in
    through a business card. *)
Example namecard_at_the_ceiling :
  let full := {| contacts := [];
                 profiles := {[ "u1" := {| subscription_plan := Some "free";
                                           contact_count := Some 50 |} ]} |} in
  let extracted := {| card_name := Some "Amy Tan"; card_email := None;
                      card_phone := None; card_company := None;
                      card_position := None; card_raw_text := None |} in
  specRemaining (profiles full !! "u1") = 0 /\
  (createContact (Some "u1") (bodyNamed "Amy Tan") [] true full).2 =
    Rejected 403 "CONTACT_LIMIT_REACHED" /\
  (uploadNamecard (Some "u1") true "job-2" 1705320000000 ∅ full).1.1 = Accepted "job-2" /\
  countOf "u1" (processNamecard "job-2" "u1" (Extracted (Some extracted)) None
                  (createJob "job-2" "Processing business card..." 1705320000000 ∅)
                  full).2 = 51.
Proof. vm_compute. repeat split; reflexivity. Qed.

End Uploads.

(** ** Sliding-window rate limiter ([middleware/rateLimit.js],
    SlidingWindowRateLimiter) *)
Module RateLimit.

Local Open Scope string_scope.

(** The part of Redis the limiter talks to: sorted sets of (score, member)
    entries by key, and the time (in milliseconds, on the clock [Date.now]
    reads) at which a key with a time to live goes. *)
Record store : Type := {
  zsets : gmap string (list (Z * string));
  deadlines : gmap string Z;
}.

Record limiter : Type := {
  redis : bool;
  windowMs : Z;
  max : Z;
  keyPrefix : string;
}.

(** [new SlidingWindowRateLimiter(redis, options)]: an option that is
    absent or falsy takes its default. *)
Definition mkLimiter (redisPresent : bool) (optWindowMs optMax : option Z)
    (optKeyPrefix : option string) : limiter :=
  {| redis := redisPresent;
     windowMs := match optWindowMs with
                 | Some w => if (w =? 0)%Z then 60000 else w
                 | None => 60000
                 end;
     max := match optMax with
            | Some m => if (m =? 0)%Z then 100 else m
            | None => 100
            end;
     keyPrefix := match optKeyPrefix with
                  | Some p => if String.eqb p "" then "ratelimit:" else p
                  | None => "ratelimit:"
                  end |}.

Record verdict : Type := {
  allowed : bool;
  remaining : Z;
}.

(** The entries of a key at time [now]: none once its deadline has
    passed. *)
Definition entries (now : Z) (k : string) (s : store) : list (Z * string) :=
  match deadlines s !! k with
  | Some dl => if (dl <=? now)%Z then [] else default [] (zsets s !! k)
  | None => default [] (zsets s !! k)
  end.

(** A key whose deadline has passed is gone before a command sees it. *)
Definition lapse (now : Z) (k : string) (s : store) : store :=
  match deadlines s !! k with
  | Some dl =>
      if (dl <=? now)%Z
      then {| zsets := delete k (zsets s); deadlines := delete k (deadlines s) |}
      else s
  | None => s
  end.

Definition setEntries (k : string) (es : list (Z * string)) (s : store) : store :=
  match es with
  | [] => {| zsets := delete k (zsets s); deadlines := delete k (deadlines s) |}
  | _ => {| zsets := <[k := es]> (zsets s); deadlines := deadlines s |}
  end.

(** ZREMRANGEBYSCORE key lo hi. *)
Definition zremrangebyscore (k : string) (lo hi : Z) (s : store) : store :=
  setEntries k
    (filter (fun e => ~ (lo <= e.1 <= hi)) (default [] (zsets s !! k))) s.

(** ZCARD key. *)
Definition zcard (k : string) (s : store) : Z :=
  Z.of_nat (length (default [] (zsets s !! k))).

(** ZADD key score member: a member the set holds already only changes
    its score. *)
Definition zadd (k : string) (score : Z) (member : string) (s : store) : store :=
  setEntries k
    (filter (fun e => e.2 <> member) (default [] (zsets s !! k)) ++ [(score, member)])%list s.

(** EXPIRE key seconds, issued at time [now]. *)
Definition expire (now : Z) (k : string) (seconds : Z) (s : store) : store :=
  match zsets s !! k with
  | Some _ => {| zsets := zsets s; deadlines := <[k := now + seconds * 1000]> (deadlines s) |}
  | None => s
  end.

(** [Math.ceil(x / 1000)]. *)
Definition ceilSeconds (x : Z) : Z := - ((- x) / 1000).

(** The member [`${now}-${Math.random()}`]; [rnd] is the random number as
    printed. *)
Definition memberOf (now : Z) (rnd : string) : string := pretty now ++ "-" ++ rnd.

Definition failOpen (l : limiter) : verdict := {| allowed := true; remaining := max l |}.

(** [isAllowed(key)] at time [now]. [fault] names the Redis command of
    this call that throws, counted from 0, if any does; what was done
    before it stays done. *)
Definition isAllowed (l : limiter) (key : string) (now : Z) (rnd : string)
    (fault : option nat) (s : store) : store * verdict :=
  if negb (redis l) then (s, failOpen l)
  else
    let windowStart := now - windowMs l in
    let redisKey := keyPrefix l ++ key in
    let s0 := lapse now redisKey s in
    if bool_decide (fault = Some 0%nat) then (s0, failOpen l)
    else
      let s1 := zremrangebyscore redisKey 0 windowStart s0 in
      if bool_decide (fault = Some 1%nat) then (s1, failOpen l)
      else
        let count := zcard redisKey s1 in
        if (max l <=? count)%Z then (s1, {| allowed := false; remaining := 0 |})
        else if bool_decide (fault = Some 2%nat) then (s1, failOpen l)
        else
          let s2 := zadd redisKey now (memberOf now rnd) s1 in
          if bool_decide (fault = Some 3%nat) then (s2, failOpen l)
          else
            let s3 := expire now redisKey (ceilSeconds (windowMs l)) s2 in
            (s3, {| allowed := true; remaining := max l - count - 1 |}).

(** What the middleware does with the verdict. *)
Inductive passage : Type :=
  | NextHandler
  | TooManyRequests429.

Definition middleware (l : limiter) (key : string) (now : Z) (rnd : string)
    (fault : option nat) (s : store) : store * passage :=
  let '(s', v) := isAllowed l key now rnd fault s in
  (s', if allowed v then NextHandler else TooManyRequests429).

(** A run of calls for one key, each with its time and random number,
    none of them failing. *)
Fixpoint calls (l : limiter) (key : string) (cs : list (Z * string)) (s : store)
    : store * list verdict :=
  match cs with
  | [] => (s, [])
  | (now, rnd) :: rest =>
      let '(s1, v) := isAllowed l key now rnd None s in
      let '(s2, vs) := calls l key rest s1 in
      (s2, v :: vs)
  end.

(** *** The limiter seen from one key *)

(** The entries of a key and its deadline. *)
Definition look (k : string) (s : store) : list (Z * string) * option Z :=
  (default [] (zsets s !! k), deadlines s !! k).

Definition outside (windowStart : Z) (e : Z * string) : Prop :=
  ~ (0 <= e.1 <= windowStart).

(** A call that meets no fault, on the state of its key. *)
Definition stepKey (l : limiter) (now : Z) (rnd : string)
    (st : list (Z * string) * option Z) : (list (Z * string) * option Z) * verdict :=
  let st0 :=
    match st.2 with
    | Some dl => if (dl <=? now)%Z then ([], None) else st
    | None => st
    end in
  let es1 := filter (outside (now - windowMs l)) st0.1 in
  let dl1 := match es1 with [] => None | _ => st0.2 end in
  if (max l <=? Z.of_nat (length es1))%Z
  then ((es1, dl1), {| allowed := false; remaining := 0 |})
  else
    ((filter (fun e => e.2 <> memberOf now rnd) es1 ++ [(now, memberOf now rnd)],
      Some (now + ceilSeconds (windowMs l) * 1000))%list,
     {| allowed := true; remaining := max l - Z.of_nat (length es1) - 1 |}).

Lemma look_lapse now k s :
  look k (lapse now k s) =
  match (look k s).2 with
  | Some dl => if (dl <=? now)%Z then ([], None) else look k s
  | None => look k s
  end.
Proof.
  unfold look, lapse. cbn [snd].
  destruct (deadlines s !! k) as [dl |] eqn:E; [destruct (dl <=? now)%Z |];
    cbn [zsets deadlines]; rewrite ?lookup_delete_eq, ?E; reflexivity.
Qed.

Lemma look_setEntries k es s :
  look k (setEntries k es s) = (es, match es with [] => None | _ => (look k s).2 end).
Proof.
  unfold look, setEntries. destruct es as [| e es]; cbn [zsets deadlines snd].
  - rewrite !lookup_delete_eq. reflexivity.
  - rewrite lookup_insert_eq. reflexivity.
Qed.

Lemma look_expire now k secs s e es :
  (look k s).1 = e :: es ->
  look k (expire now k secs s) = (e :: es, Some (now + secs * 1000)).
Proof.
  unfold look, expire. cbn [fst]. intros H.
  destruct (zsets s !! k) as [z |] eqn:Hz; [| discriminate].
  cbn [zsets deadlines default] in *. rewrite Hz, lookup_insert_eq. cbn in *.
  unfold id in H. congruence.
Qed.

Lemma app_singleton_cons {A} (l : list A) (x : A) : exists y ys, (l ++ [x])%list = y :: ys.
Proof. destruct l; cbn; eauto. Qed.

(** On its key, a faultless call on a configured limiter is [stepKey]. *)
Lemma isAllowed_look (l : limiter) (key : string) (now : Z) (rnd : string) (s : store) :
  redis l = true ->
  look (keyPrefix l ++ key) (isAllowed l key now rnd None s).1 =
    (stepKey l now rnd (look (keyPrefix l ++ key) s)).1 /\
  (isAllowed l key now rnd None s).2 =
    (stepKey l now rnd (look (keyPrefix l ++ key) s)).2.
Proof.
  intros Hr. unfold isAllowed, stepKey. rewrite Hr. cbn [negb].
  rewrite !bool_decide_eq_false_2 by discriminate.
  set (k := keyPrefix l ++ key).
  pose proof (look_lapse now k s) as Hl.
  set (s0 := lapse now k s) in *.
  set (st0 := match (look k s).2 with
              | Some dl => if (dl <=? now)%Z then ([], None) else look k s
              | None => look k s
              end) in *.
  unfold zremrangebyscore, zcard.
  assert (Hz : default [] (zsets s0 !! k) = st0.1) by (apply (f_equal fst Hl)).
  rewrite Hz. fold (outside (now - windowMs l)).
  set (es1 := filter (outside (now - windowMs l)) st0.1).
  pose proof (look_setEntries k es1 s0) as H1. rewrite Hl in H1.
  set (s1 := setEntries k es1 s0) in *.
  assert (Hz1 : default [] (zsets s1 !! k) = es1) by (apply (f_equal fst H1)).
  rewrite Hz1.
  destruct (max l <=? Z.of_nat (length es1))%Z; cbn [fst snd]; [split; [exact H1 | reflexivity] |].
  split; [| reflexivity].
  unfold zadd. rewrite Hz1.
  destruct (app_singleton_cons (filter (fun e => e.2 <> memberOf now rnd) es1)
              (now, memberOf now rnd)) as (y & ys & Hy).
  rewrite Hy.
  apply look_expire. rewrite look_setEntries. reflexivity.
Qed.

Fixpoint stepsKey (l : limiter) (cs : list (Z * string))
    (st : list (Z * string) * option Z)
    : (list (Z * string) * option Z) * list verdict :=
  match cs with
  | [] => (st, [])
  | (now, rnd) :: rest =>
      let '(st1, v) := stepKey l now rnd st in
      let '(st2, vs) := stepsKey l rest st1 in
      (st2, v :: vs)
  end.

Lemma calls_look (l : limiter) (key : string) (cs : list (Z * string)) (s : store) :
  redis l = true ->
  look (keyPrefix l ++ key) (calls l key cs s).1 =
    (stepsKey l cs (look (keyPrefix l ++ key) s)).1 /\
  (calls l key cs s).2 = (stepsKey l cs (look (keyPrefix l ++ key) s)).2.
Proof.
  intros Hr. revert s. induction cs as [| [now rnd] cs IH]; intros s; [split; reflexivity |].
  cbn [calls stepsKey].
  destruct (isAllowed_look l key now rnd s Hr) as [H1 H2].
  destruct (isAllowed l key now rnd None s) as [s1 v].
  destruct (stepKey l now rnd (look (keyPrefix l ++ key) s)) as [st1 v'].
  cbn [fst snd] in H1, H2. subst v'. rewrite <- H1.
  destruct (IH s1) as [H3 H4].
  destruct (calls l key cs s1) as [s2 vs].
  destruct (stepsKey l cs (look (keyPrefix l ++ key) s1)) as [st2 vs'].
  cbn [fst snd] in *. subst. split; reflexivity.
Qed.

Lemma ceilSeconds_ge (x : Z) : x <= ceilSeconds x * 1000.
Proof. unfold ceilSeconds. Z.div_mod_to_equations. lia.
Qed.

Lemma filter_all {A} (P : A -> Prop) `{!forall x, Decision (P x)} (l : list A) :
  Forall P l -> filter P l = l.
Proof.
  induction 1 as [| x l Hx Hl IH]; [reflexivity |].
  rewrite filter_cons, decide_True by exact Hx. now rewrite IH.
Qed.

Lemma Forall_filter_keeps {A} (Q P : A -> Prop) `{!forall x, Decision (P x)} (l : list A) :
  Forall Q l -> Forall Q (filter P l).
Proof.
  rewrite !Forall_forall. intros HQ x Hx. apply list_elem_of_filter in Hx as [_ Hx].
  apply HQ, Hx.
Qed.

Lemma filter_none {A} (P : A -> Prop) `{!forall x, Decision (P x)} (l : list A) :
  Forall (fun x => ~ P x) l -> filter P l = [].
Proof.
  induction 1 as [| x l Hx Hl IH]; [reflexivity |].
  rewrite filter_cons, decide_False by exact Hx. exact IH.
Qed.

(** The verdicts a run within one window must give: admitted while fewer
    than [max] entries are recorded, rejected afterwards. [c] is the number
    of entries recorded so far. *)
Fixpoint expected (mx : Z) (c : nat) (n : nat) : list verdict :=
  match n with
  | O => []
  | S n =>
      if (mx <=? Z.of_nat c)%Z
      then {| allowed := false; remaining := 0 |} :: expected mx c n
      else {| allowed := true; remaining := mx - Z.of_nat c - 1 |} :: expected mx (S c) n
  end.

(** While every call falls in the window that ends at [T], nothing is
    purged and nothing lapses: each call meets all entries recorded
    before it. *)
Lemma stepsKey_within_window (l : limiter) (T : Z) (cs : list (Z * string)) :
  forall st : list (Z * string) * option Z,
  Forall (fun c => T - windowMs l < c.1 <= T) cs ->
  NoDup ((fun c => memberOf c.1 c.2) <$> cs) ->
  Forall (fun e => T - windowMs l < e.1) st.1 ->
  Forall (fun e => e.2 ∉ (fun c => memberOf c.1 c.2) <$> cs) st.1 ->
  match st.2 with Some dl => T < dl | None => True end ->
  (stepsKey l cs st).2 = expected (max l) (length st.1) (length cs).
Proof.
  induction cs as [| [now rnd] cs IH]; intros [es dl] Hcs Hnd Hes Hfresh Hdl;
    [reflexivity |].
  cbn [fst snd] in *.
  apply Forall_cons in Hcs as [Hnow Hcs]. cbn [fst] in Hnow.
  rewrite fmap_cons in Hnd. apply NoDup_cons in Hnd as [Hm Hnd]. cbn [fst snd] in Hm.
  cbn [stepsKey expected length].
  unfold stepKey. cbn [fst snd].
  assert (Hst0 : match dl with
                 | Some d => if (d <=? now)%Z then ([], None) else (es, dl)
                 | None => (es, dl)
                 end = (es, dl)).
  { destruct dl as [d |]; [| reflexivity].
    destruct (Z.leb_spec d now); [lia | reflexivity]. }
  rewrite Hst0. cbn [fst snd].
  assert (Hkeep : filter (outside (now - windowMs l)) es = es).
  { apply filter_all. eapply Forall_impl; [exact Hes |].
    intros [sc mb] He. unfold outside. cbn [fst] in *. intros [H1 H2]. lia. }
  rewrite Hkeep.
  destruct (max l <=? Z.of_nat (length es))%Z.
  - specialize (IH (es, match es with [] => None | _ => dl end) Hcs Hnd).
    cbn [fst snd] in IH.
    destruct (stepsKey l cs (es, match es with [] => None | _ => dl end)) as [st2 vs].
    cbn [snd] in *. f_equal. apply IH.
    + exact Hes.
    + eapply Forall_impl; [exact Hfresh |]. intros e He Hin. apply He.
      rewrite fmap_cons. right. exact Hin.
    + destruct es; [exact I | exact Hdl].
  - assert (Hnew : filter (fun e => e.2 <> memberOf now rnd) es = es).
    { apply filter_all. eapply Forall_impl; [exact Hfresh |].
      intros e He Heq. apply He. rewrite fmap_cons, Heq. apply elem_of_cons.
      left. reflexivity. }
    rewrite Hnew.
    specialize (IH ((es ++ [(now, memberOf now rnd)])%list,
                    Some (now + ceilSeconds (windowMs l) * 1000)) Hcs Hnd).
    cbn [fst snd] in IH. rewrite length_app in IH. cbn [length] in IH.
    replace (length es + 1)%nat with (S (length es)) in IH by lia.
    destruct (stepsKey l cs _) as [st2 vs]. cbn [snd] in *. f_equal. apply IH.
    + apply Forall_app. split; [exact Hes |]. constructor; [cbn; lia | constructor].
    + apply Forall_app. split.
      * eapply Forall_impl; [exact Hfresh |]. intros e He Hin. apply He.
        rewrite fmap_cons. right. exact Hin.
      * constructor; [exact Hm | constructor].
    + pose proof (ceilSeconds_ge (windowMs l)). lia.
Qed.

Lemma expected_lookup (mx : Z) (n c i : nat) (v : verdict) :
  expected mx c n !! i = Some v ->
  allowed v = (Z.of_nat (c + i) <? mx)%Z /\
  remaining v = if allowed v then mx - Z.of_nat (c + i) - 1 else 0.
Proof.
  revert c i. induction n as [| n IH]; intros c i; [discriminate |].
  cbn [expected]. destruct (Z.leb_spec mx (Z.of_nat c)) as [Hfull | Hroom].
  - destruct i as [| i].
    + intros [= <-]. cbn. destruct (Z.ltb_spec (Z.of_nat (c + 0)) mx); [lia | split; reflexivity].
    + intros Hv. change (expected mx c n !! i = Some v) in Hv.
      destruct (IH c i Hv) as [Ha Hrem].
      assert (Hno : allowed v = false)
        by (rewrite Ha; destruct (Z.ltb_spec (Z.of_nat (c + i)) mx); [lia | reflexivity]).
      rewrite Hno in *. split; [| exact Hrem].
      destruct (Z.ltb_spec (Z.of_nat (c + S i)) mx); [lia | reflexivity].
  - destruct i as [| i].
    + intros [= <-]. cbn [allowed remaining].
      destruct (Z.ltb_spec (Z.of_nat (c + 0)) mx); [| lia].
      split; [reflexivity | f_equal; lia].
    + intros Hv. change (expected mx (S c) n !! i = Some v) in Hv.
      destruct (IH (S c) i Hv) as [Ha Hrem].
      replace (c + S i)%nat with (S c + i)%nat by lia. split; assumption.
Qed.

Lemma expected_length (mx : Z) (n c : nat) : length (expected mx c n) = n.
Proof.
  revert c. induction n as [| n IH]; intros c; [reflexivity |].
  cbn [expected]. destruct (mx <=? Z.of_nat c)%Z; cbn [length]; now rewrite IH.
Qed.

(** Entries recorded by calls made between time 0 and [T] carry scores
    between 0 and [T]. *)
Lemma stepKey_scores (l : limiter) (T now : Z) (rnd : string)
    (st : list (Z * string) * option Z) :
  0 <= now <= T ->
  Forall (fun e => 0 <= e.1 <= T) st.1 ->
  Forall (fun e => 0 <= e.1 <= T) (stepKey l now rnd st).1.1.
Proof.
  intros Hnow Hst. unfold stepKey.
  set (st0 := match st.2 with
              | Some dl => if (dl <=? now)%Z then ([], None) else st
              | None => st
              end).
  assert (H0 : Forall (fun e => 0 <= e.1 <= T) st0.1).
  { unfold st0. destruct st.2 as [dl |]; [| exact Hst].
    destruct (dl <=? now)%Z; [constructor | exact Hst]. }
  assert (H1 : Forall (fun e => 0 <= e.1 <= T) (filter (outside (now - windowMs l)) st0.1))
    by (apply Forall_filter_keeps, H0).
  destruct (max l <=? _)%Z; cbn [fst snd]; [exact H1 |].
  apply Forall_app. split; [apply Forall_filter_keeps, H1 |].
  constructor; [exact Hnow | constructor].
Qed.

Lemma stepsKey_scores (l : limiter) (T : Z) (cs : list (Z * string)) :
  forall st : list (Z * string) * option Z,
  Forall (fun c => 0 <= c.1 <= T) cs ->
  Forall (fun e => 0 <= e.1 <= T) st.1 ->
  Forall (fun e => 0 <= e.1 <= T) (stepsKey l cs st).1.1.
Proof.
  induction cs as [| [now rnd] cs IH]; intros st Hcs Hst; [exact Hst |].
  apply Forall_cons in Hcs as [Hnow Hcs]. cbn [stepsKey].
  pose proof (stepKey_scores l T now rnd st Hnow Hst) as H1.
  destruct (stepKey l now rnd st) as [st1 v]. cbn [fst] in H1.
  specialize (IH st1 Hcs H1).
  destruct (stepsKey l cs st1) as [st2 vs]. exact IH.
Qed.

(** Once the window has passed over every entry, a call finds none. *)
Lemma stepKey_after_window (l : limiter) (T now : Z) (rnd : string)
    (st : list (Z * string) * option Z) :
  Forall (fun e => 0 <= e.1 <= T) st.1 -> T + windowMs l <= now -> 0 < max l ->
  (stepKey l now rnd st).2 = {| allowed := true; remaining := max l - 1 |}.
Proof.
  intros Hst Hnow Hmax. unfold stepKey.
  set (st0 := match st.2 with
              | Some dl => if (dl <=? now)%Z then ([], None) else st
              | None => st
              end).
  assert (H0 : Forall (fun e => 0 <= e.1 <= T) st0.1).
  { unfold st0. destruct st.2 as [dl |]; [| exact Hst].
    destruct (dl <=? now)%Z; [constructor | exact Hst]. }
  rewrite (filter_none (outside (now - windowMs l)) st0.1).
  - cbn [length]. destruct (Z.leb_spec (max l) (Z.of_nat 0)); [lia |].
    cbn [snd]. f_equal. lia.
  - eapply Forall_impl; [exact H0 |]. intros [sc mb] He. unfold outside.
    cbn [fst] in *. intros Hout. apply Hout. lia.
Qed.

(** The entries of the key that a call at [now] does not purge. *)
Definition surviving (l : limiter) (key : string) (now : Z) (s : store)
    : list (Z * string) :=
  filter (outside (now - windowMs l)) (entries now (keyPrefix l ++ key) s).

Lemma entries_look (now : Z) (k : string) (s : store) :
  entries now k s =
  (match (look k s).2 with
   | Some dl => if (dl <=? now)%Z then ([], None) else look k s
   | None => look k s
   end).1.
Proof.
  unfold entries, look. cbn [snd].
  destruct (deadlines s !! k) as [dl |]; [| reflexivity].
  destruct (dl <=? now)%Z; reflexivity.
Qed.

Lemma isAllowed_surviving (l : limiter) (key : string) (now : Z) (rnd : string) (s : store) :
  redis l = true ->
  (isAllowed l key now rnd None s).2 =
    (if (max l <=? Z.of_nat (length (surviving l key now s)))%Z
     then {| allowed := false; remaining := 0 |}
     else {| allowed := true;
             remaining := max l - Z.of_nat (length (surviving l key now s)) - 1 |}) /\
  (look (keyPrefix l ++ key) (isAllowed l key now rnd None s).1).1 =
    (if (max l <=? Z.of_nat (length (surviving l key now s)))%Z
     then surviving l key now s
     else (filter (fun e => e.2 <> memberOf now rnd) (surviving l key now s)
           ++ [(now, memberOf now rnd)])%list).
Proof.
  intros Hr. destruct (isAllowed_look l key now rnd s Hr) as [H1 H2].
  rewrite H1, H2. unfold stepKey, surviving. rewrite entries_look.
  destruct (max l <=? _)%Z; split; reflexivity.
Qed.


(** A limiter of two requests a second, on a store that holds nothing. *)
Definition twoPerSecond : limiter := mkLimiter true (Some 1000) (Some 2) None.

Definition emptyStore : store := {| zsets := ∅; deadlines := ∅ |}.


(** Two calls pass, the third within the second is rejected, and a call a
    second later passes again. *)
Example three_calls_in_a_second :
  (calls twoPerSecond "u1"
     [(1705320000000, "0.25"); (1705320000100, "0.5"); (1705320000200, "0.75")]
     emptyStore).2 =
  [ {| allowed := true; remaining := 1 |}; {| allowed := true; remaining := 0 |};
    {| allowed := false; remaining := 0 |} ] /\
  (isAllowed twoPerSecond "u1" 1705320001200 "0.1" None
     (calls twoPerSecond "u1"
        [(1705320000000, "0.25"); (1705320000100, "0.5"); (1705320000200, "0.75")]
        emptyStore).1).2 = {| allowed := true; remaining := 1 |}.
Proof. split; vm_compute; reflexivity. Qed.

(** Without Redis, and when a command throws, the limiter lets the request
    through. *)
Lemma isAllowed_fails_open (l : limiter) (key : string) (now : Z) (rnd : string)
    (s : store) :
  (redis l = false -> isAllowed l key now rnd None s = (s, failOpen l)) /\
  (redis l = true ->
   (isAllowed l key now rnd (Some 0%nat) s).2 = failOpen l).
Proof.
  unfold isAllowed. split; intros ->; reflexivity.
Qed.

End RateLimit.

(** ** Facts about the string helpers *)
Module StringFacts.
Import JSString.
Local Open Scope string_scope.

Lemma allChars_rev_app (p : ascii -> bool) (s acc : string) :
  allChars p (String.rev_app s acc) = allChars p s && allChars p acc.
Proof.
  revert acc. induction s as [| c s IH]; intros acc; cbn; [reflexivity |].
  rewrite IH. cbn. destruct (p c), (allChars p s); reflexivity.
Qed.

Lemma allChars_rev (p : ascii -> bool) (s : string) :
  allChars p (String.rev s) = allChars p s.
Proof. unfold String.rev. rewrite allChars_rev_app. cbn. apply andb_true_r. Qed.

Lemma allChars_trimStart (p : ascii -> bool) (s : string) :
  allChars p s = true -> allChars p (trimStart s) = true.
Proof.
  induction s as [| c s IH]; cbn; [reflexivity |]. intros H.
  destruct (isSpace c); [apply IH | cbn]; destruct (p c); try discriminate; exact H.
Qed.

Lemma allChars_trim (p : ascii -> bool) (s : string) :
  allChars p s = true -> allChars p (trim s) = true.
Proof.
  intros H. unfold trim. rewrite allChars_rev. apply allChars_trimStart.
  rewrite allChars_rev. apply allChars_trimStart, H.
Qed.

Lemma allChars_app (p : ascii -> bool) (s t : string) :
  allChars p (s ++ t) = allChars p s && allChars p t.
Proof.
  induction s as [| c s IH]; simpl; [reflexivity |]. rewrite IH. apply andb_assoc.
Qed.

Lemma allChars_impl (p q : ascii -> bool) (s : string) :
  (forall c, p c = true -> q c = true) -> allChars p s = true -> allChars q s = true.
Proof.
  intros Hpq. induction s as [| c s IH]; cbn; [reflexivity |].
  intros [Hc Hs]%andb_true_iff. rewrite (Hpq c Hc), (IH Hs). reflexivity.
Qed.

Lemma rev_app_rev_app (s a b : string) :
  String.rev_app (String.rev_app s a) b = String.rev_app a (s ++ b).
Proof.
  revert a b. induction s as [| c s IH]; intros a b; cbn; [reflexivity |].
  rewrite IH. reflexivity.
Qed.

Lemma rev_involutive (s : string) : String.rev (String.rev s) = s.
Proof.
  unfold String.rev. rewrite rev_app_rev_app. simpl.
  induction s as [| c s IH]; [reflexivity |].
  change (String c (s ++ "") = String c s). congruence.
Qed.

Lemma trimStart_fixed (s : string) :
  allChars (fun c => negb (isSpace c)) s = true -> trimStart s = s.
Proof.
  destruct s as [| c s]; cbn; [reflexivity |].
  destruct (isSpace c); [discriminate | reflexivity].
Qed.

Lemma trim_fixed (s : string) :
  allChars (fun c => negb (isSpace c)) s = true -> trim s = s.
Proof.
  intros H. unfold trim. rewrite (trimStart_fixed s H).
  rewrite trimStart_fixed by (rewrite allChars_rev; exact H).
  apply rev_involutive.
Qed.

Definition lowered (c : ascii) : bool := Ascii.eqb (lowerChar c) c.

Lemma lowerChar_lowered (c : ascii) : lowered (lowerChar c) = true.
Proof. destruct c as [[] [] [] [] [] [] [] []]; reflexivity. Qed.

Lemma allChars_toLowerCase (s : string) : allChars lowered (toLowerCase s) = true.
Proof.
  induction s as [| c s IH]; cbn; [reflexivity |].
  rewrite lowerChar_lowered, IH. reflexivity.
Qed.

Lemma toLowerCase_fixed (s : string) : allChars lowered s = true -> toLowerCase s = s.
Proof.
  induction s as [| c s IH]; cbn; [reflexivity |].
  intros [Hc Hs]%andb_true_iff. apply Ascii.eqb_eq in Hc. rewrite Hc, (IH Hs). reflexivity.
Qed.

Lemma allChars_splitAt (p : ascii -> bool) (s l d : string) :
  splitAt s = (l, Some d) ->
  allChars p s = allChars p l && p "@"%char && allChars p d.
Proof.
  revert l. induction s as [| c s IH]; intros l; cbn; [discriminate |].
  destruct (Ascii.eqb c "@") eqn:Hc.
  - apply Ascii.eqb_eq in Hc. subst c. intros [= <- <-]. reflexivity.
  - destruct (splitAt s) as [l' r']. intros [= <- ->]. cbn.
    rewrite (IH l' eq_refl). rewrite !andb_assoc. reflexivity.
Qed.

Lemma emailRegex_noSpace (s : string) :
  emailRegex s = true -> allChars (fun c => negb (isSpace c)) s = true.
Proof.
  unfold emailRegex. destruct (splitAt s) as [l [d |]] eqn:Hs; [| discriminate].
  intros H. rewrite (allChars_splitAt _ s l d Hs).
  apply andb_true_iff in H as [H _]. apply andb_true_iff in H as [H Hd].
  apply andb_true_iff in H as [_ Hl].
  rewrite (allChars_impl emailChar _ l), (allChars_impl emailChar _ d); try assumption;
    try reflexivity; unfold emailChar; intros c [Hc _]%andb_true_iff; exact Hc.
Qed.

Lemma emailRegex_nonempty (s : string) : emailRegex s = true -> String.eqb s "" = false.
Proof. destruct s; [discriminate | reflexivity]. Qed.

Lemma allChars_filterChars (keep : ascii -> bool) (s : string) :
  allChars keep (filterChars keep s) = true.
Proof.
  induction s as [| c s IH]; cbn; [reflexivity |].
  destruct (keep c) eqn:Hc; cbn; rewrite ?Hc; exact IH.
Qed.

Lemma filterChars_fixed (keep : ascii -> bool) (s : string) :
  allChars keep s = true -> filterChars keep s = s.
Proof.
  induction s as [| c s IH]; cbn; [reflexivity |].
  intros [Hc Hs]%andb_true_iff. rewrite Hc, (IH Hs). reflexivity.
Qed.

Lemma allChars_filterChars_keeps (p keep : ascii -> bool) (s : string) :
  allChars p s = true -> allChars p (filterChars keep s) = true.
Proof.
  induction s as [| c s IH]; cbn; [reflexivity |].
  intros [Hc Hs]%andb_true_iff. destruct (keep c); cbn; rewrite ?Hc; auto.
Qed.

Lemma allChars_and (p q : ascii -> bool) (s : string) :
  allChars p s = true -> allChars q s = true ->
  allChars (fun c => p c && q c) s = true.
Proof.
  induction s as [| c s IH]; cbn; [reflexivity |].
  intros [Hc Hs]%andb_true_iff [Hc' Hs']%andb_true_iff.
  rewrite Hc, Hc', IH; auto.
Qed.

End StringFacts.

Module ListFacts.

Lemma length_filter_le {A} (P : A -> Prop) `{!forall x, Decision (P x)} (l : list A) :
  (length (filter P l) <= length l)%nat.
Proof.
  induction l as [| x l IH]; [reflexivity |]. rewrite filter_cons.
  destruct (decide (P x)); cbn [length]; lia.
Qed.

End ListFacts.

(** ** The importers' normalisers ([routes/chat.js], normalizeEmail and
    normalizePhone) *)
Module Normalisation.
Import JSString Quota Uploads StringFacts.
Local Open Scope string_scope.

Definition phoneKept (c : ascii) : bool := isDigit c || Ascii.eqb c "+".

Lemma startsWith_plus (s : string) :
  startsWith s "+" = true -> exists rest, s = String "+" rest.
Proof.
  destruct s as [| c rest]; unfold startsWith, String.prefix; [discriminate |].
  destruct (Ascii.ascii_dec "+" c) as [<- |]; [eauto | discriminate].
Qed.

Lemma startsWith_cons_plus (rest : string) : startsWith (String "+" rest) "+" = true.
Proof. destruct rest; reflexivity. Qed.

Lemma normalizeEmail_Some (email : option string) (c : string) :
  normalizeEmail email = Some c ->
  emailRegex c = true /\ toLowerCase c = c /\ trim c = c.
Proof.
  destruct email as [e |]; cbn; [| discriminate].
  destruct (String.eqb e ""); [discriminate |].
  destruct (emailRegex (trim (toLowerCase e))) eqn:Hre; [| discriminate].
  intros [= <-]. split; [exact Hre |]. split.
  - apply toLowerCase_fixed, allChars_trim, allChars_toLowerCase.
  - apply trim_fixed, emailRegex_noSpace, Hre.
Qed.


(** A phone number the importer keeps starts with [+], holds only digits
    and [+] signs, is at least 10 characters long, and normalising it
    again changes nothing. *)
Theorem normalizePhone_canonical (phone : option string) :
  normalizePhone (normalizePhone phone) = normalizePhone phone /\
  match normalizePhone phone with
  | Some c =>
      startsWith c "+" = true /\ allChars phoneKept c = true /\
      (10 <= String.length c)%nat
  | None => True
  end.
Proof.
  assert (H : match normalizePhone phone with
              | Some c =>
                  startsWith c "+" = true /\ allChars phoneKept c = true /\
                  (10 <= String.length c)%nat
              | None => True
              end).
  { destruct phone as [p |]; [| exact I]. unfold normalizePhone.
    destruct (String.eqb p ""); [exact I |].
    fold phoneKept. cbv zeta.
    pose proof (allChars_filterChars phoneKept p) as Hk.
    set (cleaned := filterChars phoneKept p) in *.
    destruct (startsWith cleaned "0") eqn:H0.
    { destruct (10 <=? _)%nat eqn:Hlen; [| exact I].
      apply Nat.leb_le in Hlen. split; [reflexivity |]. split; [| exact Hlen].
      change ("+60" ++ slice1 cleaned)
        with (String "+" (String "6" (String "0" (slice1 cleaned)))).
      cbn [allChars]. change (allChars phoneKept (slice1 cleaned) = true).
      destruct cleaned as [| c r]; [reflexivity |]. cbn [allChars slice1] in Hk |- *.
      apply andb_true_iff in Hk as [_ Hk]. exact Hk. }
    destruct (startsWith cleaned "60" && negb (startsWith cleaned "+")) eqn:H60.
    { change ("+" ++ cleaned) with (String "+" cleaned).
      destruct (10 <=? _)%nat eqn:Hlen; [| exact I].
      apply Nat.leb_le in Hlen. split; [apply startsWith_cons_plus |].
      split; [| exact Hlen]. exact Hk. }
    destruct (negb (startsWith cleaned "+") && (9 <=? String.length cleaned)%nat) eqn:H9.
    { change ("+60" ++ cleaned) with (String "+" (String "6" (String "0" cleaned))).
      destruct (10 <=? _)%nat eqn:Hlen; [| exact I].
      apply Nat.leb_le in Hlen. split; [apply startsWith_cons_plus |].
      split; [| exact Hlen]. exact Hk. }
    destruct (10 <=? _)%nat eqn:Hlen; [| exact I].
    apply Nat.leb_le in Hlen. split; [| split; [exact Hk | exact Hlen]].
    destruct (startsWith cleaned "+"); [reflexivity |]. cbn [negb andb] in H9.
    apply Nat.leb_gt in H9. lia. }
  split; [| exact H].
  destruct (normalizePhone phone) as [c |]; [| reflexivity].
  destruct H as (Hplus & Hk & Hlen).
  destruct (startsWith_plus c Hplus) as [rest ->].
  unfold normalizePhone. fold phoneKept. rewrite (filterChars_fixed phoneKept _ Hk).
  cbn [String.eqb Ascii.eqb].
  change (startsWith (String "+" rest) "0") with false.
  change (startsWith (String "+" rest) "60") with false.
  rewrite Hplus. cbn [negb andb].
  apply Nat.leb_le in Hlen. rewrite Hlen. reflexivity.
Qed.

End Normalisation.

(** ** The row POST /api/contacts stores ([routes/contacts.js]) *)
Module ContactRows.
Import JSString Quota Uploads StringFacts.
Local Open Scope string_scope.

Lemma isSpace_lowerChar (c : ascii) : isSpace (lowerChar c) = isSpace c.
Proof. destruct c as [[] [] [] [] [] [] [] []]; reflexivity. Qed.

Lemma at_lowerChar (c : ascii) : Ascii.eqb (lowerChar c) "@" = Ascii.eqb c "@".
Proof. destruct c as [[] [] [] [] [] [] [] []]; reflexivity. Qed.

Lemma dot_lowerChar (c : ascii) : Ascii.eqb (lowerChar c) "." = Ascii.eqb c ".".
Proof. destruct c as [[] [] [] [] [] [] [] []]; reflexivity. Qed.

Lemma emailChar_lowerChar (c : ascii) : emailChar (lowerChar c) = emailChar c.
Proof. unfold emailChar. rewrite isSpace_lowerChar, at_lowerChar. reflexivity. Qed.

Lemma allChars_lowered (p : ascii -> bool) (s : string) :
  (forall c, p (lowerChar c) = p c) -> allChars p (toLowerCase s) = allChars p s.
Proof.
  intros Hp. induction s as [| c s IH]; cbn; [reflexivity |]. rewrite Hp, IH. reflexivity.
Qed.

Lemma empty_toLowerCase (s : string) : String.eqb (toLowerCase s) "" = String.eqb s "".
Proof. destruct s; reflexivity. Qed.

Lemma splitAt_toLowerCase (s : string) :
  splitAt (toLowerCase s) = ((toLowerCase (splitAt s).1), toLowerCase <$> (splitAt s).2).
Proof.
  induction s as [| c s IH]; cbn [toLowerCase splitAt]; [reflexivity |].
  rewrite at_lowerChar. destruct (Ascii.eqb c "@"); [reflexivity |].
  rewrite IH. destruct (splitAt s) as [l r]. reflexivity.
Qed.

Lemma dotInside_toLowerCase (seen : bool) (s : string) :
  dotInside seen (toLowerCase s) = dotInside seen s.
Proof.
  revert seen. induction s as [| c s IH]; intros seen; cbn [toLowerCase dotInside];
    [reflexivity |].
  rewrite dot_lowerChar, empty_toLowerCase, IH. reflexivity.
Qed.

(** Lower-casing does not change whether a string is an email address. *)
Lemma emailRegex_toLowerCase (s : string) : emailRegex (toLowerCase s) = emailRegex s.
Proof.
  unfold emailRegex. rewrite splitAt_toLowerCase.
  destruct (splitAt s) as [l [d |]]; cbn [fst snd fmap option_fmap option_map];
    [| reflexivity].
  rewrite empty_toLowerCase, !(allChars_lowered emailChar) by apply emailChar_lowerChar.
  rewrite dotInside_toLowerCase. reflexivity.
Qed.

(** The email POST /api/contacts stores for a body that passed
    [validateContact] is the one the importers' [normalizeEmail] makes of
    the same input. *)
Lemma newContact_email (userId : string) (b : contactBody) :
  validateContact b = true -> email (newContact userId b) = normalizeEmail (body_email b).
Proof.
  unfold validateContact, newContact. cbn [email]. intros Hv.
  apply andb_true_iff in Hv as [Hv _]. apply andb_true_iff in Hv as [_ He].
  destruct (body_email b) as [e |]; [| reflexivity].
  cbn [fmap option_fmap option_map truthy orElse normalizeEmail] in *.
  destruct (String.eqb e "") eqn:Hempty.
  - apply String.eqb_eq in Hempty. subst e. reflexivity.
  - cbn [negb orb] in He.
    assert (Hl : emailRegex (toLowerCase e) = true)
      by (rewrite emailRegex_toLowerCase; exact He).
    rewrite (trim_fixed _ (emailRegex_noSpace _ Hl)), Hl.
    unfold orNull, truthy. rewrite (emailRegex_nonempty _ Hl). reflexivity.
Qed.


End ContactRows.

(** ** POST /api/auth/send-otp ([routes/auth.js]) *)
Module AuthRoutes.
Import JSString.
Local Open Scope string_scope.

(** [\d{9,10}$] on what is left of the string. *)
Definition nineOrTenDigits (s : string) : bool :=
  allChars isDigit s && (9 <=? String.length s)%nat && (String.length s <=? 10)%nat.

(** [/^\+60\d{9,10}$/]. *)
Definition plus60Pattern (s : string) : bool :=
  match s with
  | String a (String b (String c rest)) =>
      Ascii.eqb a "+" && Ascii.eqb b "6" && Ascii.eqb c "0" && nineOrTenDigits rest
  | _ => false
  end.

(** [/^60\d{9,10}$/]. *)
Definition sixtyPattern (s : string) : bool :=
  match s with
  | String a (String b rest) => Ascii.eqb a "6" && Ascii.eqb b "0" && nineOrTenDigits rest
  | _ => false
  end.

(** [/^0\d{9,10}$/]. *)
Definition localPattern (s : string) : bool :=
  match s with
  | String a rest => Ascii.eqb a "0" && nineOrTenDigits rest
  | _ => false
  end.

(** [phone.replace(/[^\d+]/g, '')]. *)
Definition digitsAndPlus (phone : string) : string :=
  filterChars (fun c => isDigit c || Ascii.eqb c "+") phone.

Definition validateMalaysianPhone (phone : string) : bool :=
  let cleaned := digitsAndPlus phone in
  plus60Pattern cleaned || sixtyPattern cleaned || localPattern cleaned.

Definition normalizePhone (phone : string) : string :=
  let cleaned := digitsAndPlus phone in
  if startsWith cleaned "0" then "+60" ++ Uploads.slice1 cleaned
  else if startsWith cleaned "60" && negb (startsWith cleaned "+") then "+" ++ cleaned
  else if negb (startsWith cleaned "+") then "+" ++ cleaned
  else cleaned.

Inductive otpResponse : Type :=
  | OtpSent (phone : string)
  | OtpRejected (httpStatus : Z) (code : string).

(** POST /api/auth/send-otp. [phone] is the body's field ([None]: absent)
    and [sendOTP] the reply of the authentication service for a number. *)
Definition sendOtp (phone : option string) (sendOTP : string -> bool) : otpResponse :=
  match phone with
  | None => OtpRejected 400 "MISSING_PHONE"
  | Some p =>
      if String.eqb p "" then OtpRejected 400 "MISSING_PHONE"
      else if negb (validateMalaysianPhone p) then OtpRejected 400 "INVALID_PHONE"
      else
        let normalizedPhone := normalizePhone p in
        if negb (sendOTP normalizedPhone) then OtpRejected 400 "OTP_SEND_FAILED"
        else OtpSent normalizedPhone
  end.

Lemma nineOrTenDigits_nonempty (s : string) :
  nineOrTenDigits s = true -> exists d rest, s = String d rest.
Proof.
  destruct s as [| d rest]; [| eauto]. unfold nineOrTenDigits. cbn.
  discriminate.
Qed.

Lemma plus60Pattern_fixed (s : string) :
  plus60Pattern s = true -> digitsAndPlus s = s.
Proof.
  unfold plus60Pattern, digitsAndPlus.
  destruct s as [| a [| b [| c rest]]]; try discriminate.
  intros H. apply andb_true_iff in H as [H Hd]. apply andb_true_iff in H as [H Hc].
  apply andb_true_iff in H as [Ha Hb].
  apply Ascii.eqb_eq in Ha, Hb, Hc. subst a b c.
  unfold nineOrTenDigits in Hd. apply andb_true_iff in Hd as [Hd _].
  apply andb_true_iff in Hd as [Hd _].
  cbn [filterChars]. change (isDigit "+" || Ascii.eqb "+" "+") with true.
  change (isDigit "6" || Ascii.eqb "6" "+") with true.
  change (isDigit "0" || Ascii.eqb "0" "+") with true. cbv iota.
  do 3 f_equal.
  induction rest as [| d rest IH]; [reflexivity |]. cbn [allChars filterChars] in *.
  apply andb_true_iff in Hd as [Hd1 Hd2]. rewrite Hd1. cbn [orb].
  rewrite (IH Hd2). reflexivity.
Qed.

Lemma normalizePhone_valid (phone : string) :
  validateMalaysianPhone phone = true -> plus60Pattern (normalizePhone phone) = true.
Proof.
  unfold validateMalaysianPhone, normalizePhone. cbv zeta.
  generalize (digitsAndPlus phone). intros cleaned H.
  apply orb_true_iff in H as [H | H]; [apply orb_true_iff in H as [H | H] |].
  - pose proof H as H'. unfold plus60Pattern in H.
    destruct cleaned as [| a [| b [| c rest]]]; try discriminate.
    apply andb_true_iff in H as [H Hd]. apply andb_true_iff in H as [H Hc].
    apply andb_true_iff in H as [Ha Hb].
    apply Ascii.eqb_eq in Ha, Hb, Hc. subst a b c.
    change (startsWith (String "+" (String "6" (String "0" rest))) "0") with false.
    change (startsWith (String "+" (String "6" (String "0" rest))) "60") with false.
    change (startsWith (String "+" (String "6" (String "0" rest))) "+") with true.
    exact H'.
  - unfold sixtyPattern in H.
    destruct cleaned as [| a [| b rest]]; try discriminate.
    apply andb_true_iff in H as [H Hd]. apply andb_true_iff in H as [Ha Hb].
    apply Ascii.eqb_eq in Ha, Hb. subst a b.
    destruct (nineOrTenDigits_nonempty rest Hd) as (d & rest' & ->).
    change (startsWith (String "6" (String "0" (String d rest'))) "0") with false.
    change (startsWith (String "6" (String "0" (String d rest'))) "60") with true.
    change (startsWith (String "6" (String "0" (String d rest'))) "+") with false.
    exact Hd.
  - unfold localPattern in H.
    destruct cleaned as [| a rest]; try discriminate.
    apply andb_true_iff in H as [Ha Hd].
    apply Ascii.eqb_eq in Ha. subst a.
    destruct (nineOrTenDigits_nonempty rest Hd) as (d & rest' & ->).
    change (startsWith (String "0" (String d rest')) "0") with true.
    exact Hd.
Qed.

(** POST /api/auth/send-otp only ever asks the authentication service
    for, and reports back, a number of the form [+60] followed by nine or
    ten digits: every number [validateMalaysianPhone] accepts is brought
    to that form by [normalizePhone], whatever separators it was typed
    with. *)
Theorem sendOtp_number_is_canonical (phone : option string) (sendOTP : string -> bool) :
  match sendOtp phone sendOTP with
  | OtpSent p =>
      plus60Pattern p = true /\ sendOTP p = true /\
      validateMalaysianPhone p = true /\ normalizePhone p = p
  | OtpRejected _ _ => True
  end.
Proof.
  unfold sendOtp. destruct phone as [p |]; [| exact I].
  destruct (String.eqb p ""); [exact I |].
  destruct (validateMalaysianPhone p) eqn:Hv; [| exact I]. cbn [negb].
  destruct (sendOTP (normalizePhone p)) eqn:Hs; [| exact I]. cbn [negb].
  pose proof (normalizePhone_valid p Hv) as Hc.
  pose proof (plus60Pattern_fixed _ Hc) as Hf.
  split; [exact Hc |]. split; [exact Hs |].
  generalize dependent (normalizePhone p). intros q _ Hc Hf.
  unfold validateMalaysianPhone, normalizePhone. cbv zeta. rewrite Hf, Hc.
  split; [reflexivity |].
  unfold plus60Pattern in Hc.
  destruct q as [| a [| b [| c rest]]]; try discriminate.
  apply andb_true_iff in Hc as [Hc _]. apply andb_true_iff in Hc as [Hc _].
  apply andb_true_iff in Hc as [Ha _]. apply Ascii.eqb_eq in Ha. subst a.
  destruct rest; reflexivity.
Qed.

End AuthRoutes.

(** ** Search terms of a chat message ([routes/chat.js], extractSearchTerms) *)
Module SearchTerms.
Import JSString StringFacts.
Local Open Scope string_scope.

Definition stopWords : list string :=
  ["find"; "search"; "look"; "for"; "the"; "a"; "an"; "contact"; "client";
   "customer"; "named"; "called"; "from"; "at"; "in"; "who"; "where"].

(** The class [\w]. *)
Definition isWord (c : ascii) : bool :=
  isDigit c || ((65 <=? code c) && (code c <=? 90))%N ||
  ((97 <=? code c) && (code c <=? 122))%N || Ascii.eqb c "_".

(** [s.split(/\s+/)]: [inRun] tells whether the character before was white
    space. The head of the result is the word in progress. *)
Fixpoint splitSpaces (inRun : bool) (s : string) : list string :=
  match s with
  | EmptyString => [EmptyString]
  | String c rest =>
      if isSpace c then
        if inRun then splitSpaces true rest else EmptyString :: splitSpaces true rest
      else
        match splitSpaces false rest with
        | w :: ws => String c w :: ws
        | [] => [String c EmptyString]
        end
  end.

(** [words.join(sep)]. *)
Fixpoint join (sep : string) (ws : list string) : string :=
  match ws with
  | [] => EmptyString
  | w :: rest =>
      match rest with
      | [] => w
      | _ => w ++ sep ++ join sep rest
      end
  end.

Definition keepWord (w : string) : bool :=
  negb (bool_decide (w ∈ stopWords)) && (2 <? String.length w)%nat.

Definition extractSearchTerms (message : string) : option string :=
  let words :=
    filter (fun w => keepWord w = true)
      (splitSpaces false
         (filterChars (fun c => isWord c || isSpace c) (toLowerCase message))) in
  orNull (Some (join " " words)).

Example extractSearchTerms_example :
  extractSearchTerms "Find the client named  Tan, from KL-Sentral!" = Some "tan klsentral".
Proof. vm_compute. reflexivity. Qed.

Example extractSearchTerms_nothing : extractSearchTerms "  find a client at KL " = None.
Proof. vm_compute. reflexivity. Qed.

Definition noSpace (c : ascii) : bool := negb (isSpace c).

(** A character of a search term: a lower-case letter, a digit or an
    underscore. *)
Definition termChar (c : ascii) : bool := isWord c && lowered c && noSpace c.

Definition kept (c : ascii) : bool := isWord c || isSpace c.

(** Every piece [split] returns is free of white space. *)
Lemma splitSpaces_chars (p : ascii -> bool) (s : string) (inRun : bool) :
  allChars p s = true ->
  Forall (fun w => allChars (fun c => p c && noSpace c) w = true) (splitSpaces inRun s).
Proof.
  revert inRun. induction s as [| c s IH]; intros inRun; cbn [splitSpaces allChars].
  - intros _. repeat constructor.
  - intros [Hc Hs]%andb_true_iff. destruct (isSpace c) eqn:Hsp.
    + destruct inRun; [apply IH, Hs |]. constructor; [reflexivity | apply IH, Hs].
    + pose proof (IH false Hs) as Hf.
      destruct (splitSpaces false s) as [| w ws].
      * repeat constructor. cbn. unfold noSpace. rewrite Hc, Hsp. reflexivity.
      * inversion Hf as [| ? ? Hw Hws]; subst. constructor; [| exact Hws].
        cbn. unfold noSpace at 1. rewrite Hc, Hsp. exact Hw.
Qed.

Lemma splitSpaces_word (w : string) (inRun : bool) :
  allChars noSpace w = true -> splitSpaces inRun w = [w].
Proof.
  revert inRun. induction w as [| c w IH]; intros inRun; cbn; [reflexivity |].
  intros [Hc Hs]%andb_true_iff. unfold noSpace in Hc. apply negb_true_iff in Hc.
  rewrite Hc, (IH false Hs). reflexivity.
Qed.

Lemma splitSpaces_word_then (c : ascii) (w t : string) (inRun : bool) :
  allChars noSpace (String c w) = true ->
  splitSpaces inRun (String c w ++ " " ++ t) = String c w :: splitSpaces true t.
Proof.
  revert c inRun. induction w as [| c' w IH]; intros c inRun.
  - cbn [allChars]. intros [Hc _]%andb_true_iff. unfold noSpace in Hc.
    apply negb_true_iff in Hc.
    change (String c "" ++ " " ++ t) with (String c (String " " t)).
    cbn [splitSpaces]. rewrite Hc. reflexivity.
  - intros H. pose proof H as [Hc Hs]%andb_true_iff. unfold noSpace in Hc.
    apply negb_true_iff in Hc.
    change (String c (String c' w) ++ " " ++ t) with (String c (String c' w ++ " " ++ t)).
    cbn [splitSpaces]. rewrite Hc. rewrite (IH c' false Hs). reflexivity.
Qed.

Lemma splitSpaces_start (c : ascii) (s : string) :
  isSpace c = false -> splitSpaces true (String c s) = splitSpaces false (String c s).
Proof. intros Hc. cbn. rewrite Hc. reflexivity. Qed.

Definition word (w : string) : Prop := w <> "" /\ allChars noSpace w = true.

Lemma join_starts (ws : list string) (w : string) :
  word w -> exists c rest, join " " (w :: ws) = String c rest /\ isSpace c = false.
Proof.
  intros [Hne Hw]. destruct w as [| c w]; [congruence |].
  cbn [allChars] in Hw. apply andb_true_iff in Hw as [Hc _].
  unfold noSpace in Hc. apply negb_true_iff in Hc.
  destruct ws as [| w2 ws]; [exists c, w; auto |].
  exists c, (w ++ " " ++ join " " (w2 :: ws)). auto.
Qed.

(** Splitting what [join] made of words gives the words back. *)
Lemma splitSpaces_join (ws : list string) :
  ws <> [] -> Forall word ws -> splitSpaces false (join " " ws) = ws.
Proof.
  induction ws as [| w ws IH]; [congruence |]. intros _ Hall.
  inversion Hall as [| ? ? Hw Hws]; subst.
  destruct ws as [| w2 ws].
  - cbn [join]. apply splitSpaces_word, Hw.
  - destruct Hw as [Hne Hw]. destruct w as [| c w]; [congruence |].
    change (join " " (String c w :: w2 :: ws))
      with (String c w ++ " " ++ join " " (w2 :: ws)).
    rewrite (splitSpaces_word_then c w _ false Hw). f_equal.
    inversion Hws as [| ? ? Hw2 _]; subst.
    destruct (join_starts ws w2 Hw2) as (c2 & r2 & Hj & Hc2).
    rewrite Hj, (splitSpaces_start c2 r2 Hc2), <- Hj.
    apply IH; [discriminate | exact Hws].
Qed.

Lemma allChars_join (p : ascii -> bool) (ws : list string) :
  p " "%char = true -> Forall (fun w => allChars p w = true) ws ->
  allChars p (join " " ws) = true.
Proof.
  intros Hsp. induction ws as [| w ws IH]; [reflexivity |].
  intros Hall. inversion Hall as [| ? ? Hw Hws]; subst.
  destruct ws as [| w2 ws]; [exact Hw |].
  change (join " " (w :: w2 :: ws)) with (w ++ " " ++ join " " (w2 :: ws)).
  rewrite allChars_app, Hw.
  change (" " ++ join " " (w2 :: ws)) with (String " " (join " " (w2 :: ws))).
  cbn [allChars]. rewrite Hsp, (IH Hws). reflexivity.
Qed.

Lemma join_empty (ws : list string) :
  Forall word ws -> join " " ws = "" -> ws = [].
Proof.
  destruct ws as [| w ws]; [reflexivity |]. intros Hall Hj.
  inversion Hall as [| ? ? Hw _]; subst.
  destruct (join_starts ws w Hw) as (c & r & Hc & _). congruence.
Qed.

(** A word the filter keeps. *)
Definition term (w : string) : Prop :=
  (2 < String.length w)%nat /\ (w ∉ stopWords) /\ allChars termChar w = true.

Lemma extractSearchTerms_words (message : string) :
  exists ws,
    join " " ws = default "" (extractSearchTerms message) /\
    (extractSearchTerms message = None <-> ws = []) /\
    Forall term ws.
Proof.
  unfold extractSearchTerms. cbv zeta.
  change (fun c => isWord c || isSpace c) with kept.
  set (s0 := filterChars kept (toLowerCase message)).
  assert (H0 : allChars (fun c => kept c && lowered c) s0 = true).
  { apply allChars_and; [apply allChars_filterChars |].
    apply allChars_filterChars_keeps, allChars_toLowerCase. }
  pose proof (splitSpaces_chars _ s0 false H0) as Hsplit.
  set (ws := filter (fun w => keepWord w = true) (splitSpaces false s0)).
  assert (Hterm : Forall term ws).
  { apply Forall_forall. intros w Hin. apply list_elem_of_filter in Hin as [Hk Hin].
    rewrite Forall_forall in Hsplit. specialize (Hsplit w Hin).
    unfold keepWord in Hk. apply andb_true_iff in Hk as [Hk1 Hk2].
    apply negb_true_iff, bool_decide_eq_false in Hk1. apply Nat.ltb_lt in Hk2.
    repeat split; [exact Hk2 | exact Hk1 |].
    revert Hsplit. apply allChars_impl. intros c. unfold termChar, kept, noSpace.
    destruct (isWord c), (isSpace c), (lowered c); cbn; congruence. }
  assert (Hword : Forall word ws).
  { eapply Forall_impl; [exact Hterm |]. intros w (Hlen & _ & Hc). split.
    - destruct w; [cbn in Hlen; lia | discriminate].
    - revert Hc. apply allChars_impl. intros c. unfold termChar.
      intros [_ H]%andb_true_iff. exact H. }
  exists ws. unfold orNull, truthy.
  destruct (String.eqb (join " " ws) "") eqn:Hj; cbn [negb default].
  - apply String.eqb_eq in Hj. split; [exact Hj |]. split; [| exact Hterm].
    split; [intros _; apply join_empty; assumption | reflexivity].
  - split; [reflexivity |]. split; [| exact Hterm].
    split; [discriminate |]. intros ->. cbn in Hj. discriminate.
Qed.


End SearchTerms.

(** ** What the spreadsheet import reports ([routes/chat.js]) *)
Module ImportReport.
Import JSString Quota Uploads.
Local Open Scope string_scope.

(** The import has no contact to make of a row. *)
Definition rejectedRow (userId : string) (m : option columnMappings)
    (defaultCategory : string) (r : row) : Prop :=
  match m with
  | Some m => unidentifiable (rowContact userId m defaultCategory r) = true
  | None => True
  end.

(** The row numbers an error list may carry: those of rejected rows of
    [data], counted from [i + 2], in increasing order. *)
Fixpoint reportsFrom (userId : string) (m : option columnMappings)
    (defaultCategory : string) (i : nat) (data : list row) (es : list rowError) : Prop :=
  match es with
  | [] => True
  | e :: rest =>
      exists k r,
        row_number e = (i + k + 2)%nat /\ data !! k = Some r /\
        rejectedRow userId m defaultCategory r /\
        reportsFrom userId m defaultCategory (i + S k) (drop (S k) data) rest
  end.

Lemma reportsFrom_shift userId m cat i r data es :
  reportsFrom userId m cat (S i) data es -> reportsFrom userId m cat i (r :: data) es.
Proof.
  destruct es as [| e es]; [exact id |]. cbn [reportsFrom].
  intros (k & r' & Hn & Hr & Hrej & Hrest). exists (S k), r'.
  split; [lia |]. split; [exact Hr |]. split; [exact Hrej |].
  replace (i + S (S k))%nat with (S i + S k)%nat by lia. exact Hrest.
Qed.

Lemma transformRows_reports userId m cat i data :
  reportsFrom userId m cat i data (transformRows userId m cat i data).2.
Proof.
  revert i. induction data as [| r data IH]; intros i; [exact I |].
  cbn [transformRows]. specialize (IH (S i)).
  destruct (transformRows userId m cat (S i) data) as [cs es]. cbn [snd] in IH.
  destruct m as [m |].
  - destruct (unidentifiable (rowContact userId m cat r)) eqn:Hu; cbn [snd].
    + exists 0%nat, r. split; [cbn; lia |]. split; [reflexivity |]. split; [exact Hu |].
      replace (i + 1)%nat with (S i) by lia. exact IH.
    + apply reportsFrom_shift, IH.
  - cbn [snd]. exists 0%nat, r. split; [cbn; lia |]. split; [reflexivity |].
    split; [exact I |]. replace (i + 1)%nat with (S i) by lia. exact IH.
Qed.

Lemma reportsFrom_take userId m cat i data es n :
  reportsFrom userId m cat i data es -> reportsFrom userId m cat i data (take n es).
Proof.
  revert i data es. induction n as [| n IH]; intros i data es; [intros _; exact I |].
  destruct es as [| e es]; [exact id |]. cbn [take reportsFrom].
  intros (k & r & Hn & Hr & Hrej & Hrest). exists k, r. repeat split; auto.
Qed.

(** What a reported row number says: it is the sheet row of a rejected
    data row (the header being row 1), and the numbers increase. *)
Lemma reportsFrom_rows userId m cat i data es :
  reportsFrom userId m cat i data es ->
  Forall (fun e => exists r, (i + 2 <= row_number e)%nat /\
                     data !! (row_number e - 2 - i)%nat = Some r /\
                     rejectedRow userId m cat r) es /\
  StronglySorted lt (row_number <$> es).
Proof.
  revert i data. induction es as [| e es IH]; intros i data.
  - intros _. split; constructor.
  - cbn [reportsFrom]. intros (k & r & Hn & Hr & Hrej & Hrest).
    destruct (IH _ _ Hrest) as [Hall Hsorted]. split.
    + constructor.
      * exists r. split; [lia |]. split; [| exact Hrej].
        replace (row_number e - 2 - i)%nat with k by lia. exact Hr.
      * eapply Forall_impl; [exact Hall |]. intros e' (r' & Hge & Hr' & Hrej').
        exists r'. split; [lia |]. split; [| exact Hrej'].
        rewrite lookup_drop in Hr'.
        replace (row_number e' - 2 - i)%nat
          with (S k + (row_number e' - 2 - (i + S k)))%nat by lia.
        exact Hr'.
    + cbn [fmap list_fmap]. constructor; [exact Hsorted |].
      apply Forall_fmap. eapply Forall_impl; [exact Hall |].
      intros e' (r' & Hge & _). cbn. lia.
Qed.


(** A contact without its notes. *)
Definition withoutNotes (c : contact) : contact :=
  {| user_id := user_id c; name := name c; email := email c; phone := phone c;
     company := company c; position := position c; industry := industry c;
     category := category c; notes := None; source := source c; status := status c |}.

Lemma sheetContacts_cons (userId : string) (m : columnMappings) (r : row) (data : list row) :
  sheetContacts userId m (r :: data) =
  if unidentifiable (rowContact userId m "Lead" r)
  then sheetContacts userId m data
  else withoutNotes (rowContact userId m "Lead" r) :: sheetContacts userId m data.
Proof.
  unfold sheetContacts. rewrite fmap_cons, filter_cons.
  match goal with |- context [decide (unidentifiable ?c = false)] =>
    assert (Hsame : unidentifiable c = unidentifiable (rowContact userId m "Lead" r))
      by reflexivity;
    destruct (decide (unidentifiable c = false)) as [Hkeep | Hdrop]
  end.
  - rewrite <- Hsame, Hkeep. reflexivity.
  - rewrite <- Hsame. apply not_false_is_true in Hdrop. rewrite Hdrop. reflexivity.
Qed.

(** The background upload and the synchronous import read a sheet alike:
    with the same column mappings and the default category, the upload
    builds the contacts the import builds, in the same order, except that
    it leaves the notes column out. *)
Theorem upload_reads_rows_as_import (userId : string) (m : columnMappings)
    (data : list row) (i : nat) :
  sheetContacts userId m data =
  withoutNotes <$> (transformRows userId (Some m) "Lead" i data).1.
Proof.
  revert i. induction data as [| r data IH]; intros i; [reflexivity |].
  rewrite sheetContacts_cons. cbn [transformRows]. specialize (IH (S i)).
  destruct (transformRows userId (Some m) "Lead" (S i) data) as [cs es].
  cbn [fst] in IH.
  destruct (unidentifiable (rowContact userId m "Lead" r)); cbn [fst]; [exact IH |].
  rewrite fmap_cons, IH. reflexivity.
Qed.

End ImportReport.

(** ** Progress of a background job ([routes/chat.js]) *)
Module JobProgress.
Import JSString Quota Uploads.
Local Open Scope string_scope.

(** The progress a pipeline has written by the time it waits in a phase. *)
Definition sheetProgress (ph : sheetPhase) : Z :=
  match ph with
  | Reading => 0
  | Analyzing _ => 30
  | Inserting _ _ => 50
  | Counting _ _ _ => 50
  | SheetDone => 100
  end.

Definition cardProgress (ph : cardPhase) : Z :=
  match ph with
  | CardStart => 0
  | Extracting => 30
  | Storing _ => 70
  | InsertingCard _ _ => 70
  | CountingCard _ _ => 70
  | CardDone => 100
  end.

Section Runs.

Variables (jobId userId : string).

(** The job a poll sees while the pipeline is in phase [ph]: at that
    phase's progress, created at [t]. *)
Definition shows (p : Z) (t : Z) (jobs : gmap string job) : Prop :=
  exists j, jobs !! jobId = Some j /\ progress j = p /\ createdAt j = Some t.

Section Sheet.

Variables (file : option (list row)) (limit : option contactLimit)
          (analysis : analysisResult) (insertOk : bool) (now : Z).

Definition sheetRun (n : nat) (st : sheetPhase * gmap string job * db)
    : sheetPhase * gmap string job * db :=
  Nat.iter n (fun st => sheetStep jobId userId file limit analysis insertOk now
                          st.1.1 st.1.2 st.2) st.

Lemma shows_set p t mk (jobs : gmap string job) :
  shows p t jobs ->
  exists jobs', setKeepingCreatedAt jobId mk jobs = Some jobs' /\
                jobs' !! jobId = Some (mk (Some t)).
Proof.
  intros (j & Hj & _ & Hc). unfold setKeepingCreatedAt. rewrite Hj. cbn.
  rewrite Hc. eexists; split; [reflexivity | apply lookup_insert_eq].
Qed.

Lemma shows_catch p t e (jobs : gmap string job) :
  shows p t jobs -> shows 100 t (catchFailed jobId e jobs).
Proof.
  intros (j & Hj & _ & Hc). unfold catchFailed. rewrite Hj. cbn. rewrite Hc.
  eexists; split; [apply lookup_insert_eq | split; reflexivity].
Qed.

Lemma sheetStep_progress ph (jobs : gmap string job) d t :
  shows (sheetProgress ph) t jobs ->
  let st := sheetStep jobId userId file limit analysis insertOk now ph jobs d in
  shows (sheetProgress st.1.1) (match ph with Reading => now | _ => t end) st.1.2 /\
  sheetProgress ph <= sheetProgress st.1.1.
Proof.
  intros Hs. destruct ph as [| data | data toInsert | data toInsert inserted |];
    cbn [sheetStep sheetProgress].
  - assert (H10 : shows 10 now
                    (<[jobId := processingJob 10 "Reading file..." (Some now)]> jobs))
      by (eexists; split; [apply lookup_insert_eq | split; reflexivity]).
    destruct file as [data |]; cbn [fst snd sheetProgress].
    + destruct (shows_set 10 now
                  (processingJob 30
                     ("Found " ++ pretty (length data) ++ " rows. Analyzing..."))
                  _ H10) as (jobs' & -> & Hj').
      cbn [orCatch]. split; [| lia]. eexists; split; [exact Hj' | split; reflexivity].
    + split; [| lia]. eapply shows_catch, H10.
  - destruct analysis as [err | mappings]; cbn [fst snd sheetProgress].
    + destruct (shows_set _ t
                  (fun c => {| job_status := failed; progress := 100;
                               message := "Failed to analyze spreadsheet";
                               result := None; error := Some err; createdAt := c |})
                  _ Hs) as (jobs' & -> & Hj').
      cbn [orCatch]. split; [| lia]. eexists; split; [exact Hj' | split; reflexivity].
    + destruct (shows_set _ t (processingJob 50 "Importing contacts...") _ Hs)
        as (jobs1 & -> & Hj1).
      assert (H50 : shows 50 t jobs1)
        by (eexists; split; [exact Hj1 | split; reflexivity]).
      destruct mappings as [m |]; cbn [fst snd sheetProgress].
      * destruct (bool_decide _); cbn [fst snd sheetProgress].
        -- destruct (shows_set _ t
                       (completedJob "No valid contacts found to import"
                          (SheetResult 0 (length data) None)) _ H50) as (jobs' & -> & Hj').
           cbn [orCatch]. split; [| lia].
           eexists; split; [exact Hj' | split; reflexivity].
        -- split; [exact H50 | lia].
      * split; [| lia]. eapply shows_catch, H50.
  - destruct insertOk; cbn [fst snd sheetProgress].
    + split; [exact Hs | lia].
    + split; [| lia]. eapply shows_catch, Hs.
  - cbn [fst snd sheetProgress].
    destruct (shows_set _ t
                (completedJob
                   ("Successfully imported " ++ pretty (length inserted) ++ " contacts")
                   (SheetResult (length inserted) (length data)
                      (Some (length data - length toInsert)%nat))) _ Hs)
      as (jobs' & -> & Hj').
    cbn [orCatch]. split; [| lia]. eexists; split; [exact Hj' | split; reflexivity].
  - cbn [fst snd sheetProgress]. split; [exact Hs | lia].
Qed.

Lemma sheetProgress_range ph : 0 <= sheetProgress ph <= 100.
Proof. destruct ph; cbn; lia. Qed.

Lemma sheetRun_shows msg now0 (jobs : gmap string job) d (n : nat) :
  shows (sheetProgress (sheetRun n (Reading, createJob jobId msg now0 jobs, d)).1.1)
        (match n with O => now0 | S _ => now end)
        (sheetRun n (Reading, createJob jobId msg now0 jobs, d)).1.2.
Proof.
  induction n as [| n IH].
  - cbn. eexists; split; [apply lookup_insert_eq | split; reflexivity].
  - unfold sheetRun in *. rewrite Nat.iter_succ.
    set (st := Nat.iter n _ _) in *.
    destruct (sheetStep_progress st.1.1 st.1.2 st.2 _ IH) as [H _].
    destruct n as [| n].
    + subst st. cbn [Nat.iter fst snd] in *. exact H.
    + assert (E : match st.1.1 with Reading => now | _ => now end = now)
        by (destruct (st.1.1); reflexivity).
      rewrite E in H. exact H.
Qed.

Lemma sheetRun_rank st (n : nat) :
  (Nat.min 4 (sheetRank st.1.1 + n) <= sheetRank (sheetRun n st).1.1)%nat.
Proof.
  induction n as [| n IH].
  { unfold sheetRun.
    change (Nat.min 4 (sheetRank st.1.1 + 0) <= sheetRank st.1.1)%nat. lia. }
  unfold sheetRun in *. rewrite Nat.iter_succ. set (s := Nat.iter n _ st) in *.
  assert (Hcase : s.1.1 = SheetDone \/ s.1.1 <> SheetDone)
    by (destruct (s.1.1); first [left; reflexivity | right; discriminate]).
  destruct Hcase as [E | Hne].
  - rewrite E. cbn [sheetStep fst snd sheetRank]. lia.
  - pose proof (sheetStep_rank jobId userId file limit analysis insertOk now
                  s.1.1 s.1.2 s.2 Hne). lia.
Qed.

End Sheet.

Section Card.

Variables (reading : extraction) (insertError : option string).

Definition cardRun (n : nat) (st : cardPhase * gmap string job * db)
    : cardPhase * gmap string job * db :=
  Nat.iter n (fun st => cardStep jobId userId reading insertError st.1.1 st.1.2 st.2) st.

Lemma cardStep_progress ph (jobs : gmap string job) d t :
  shows (cardProgress ph) t jobs ->
  let st := cardStep jobId userId reading insertError ph jobs d in
  shows (cardProgress st.1.1) t st.1.2 /\ cardProgress ph <= cardProgress st.1.1.
Proof.
  intros Hs. destruct ph as [| | structured | c extracted | c extracted |];
    cbn [cardStep cardProgress].
  - destruct (shows_set _ t (processingJob 30 "Extracting text from image...") _ Hs)
      as (jobs' & -> & Hj').
    cbn [fst snd cardProgress]. split; [| lia].
    eexists; split; [exact Hj' | split; reflexivity].
  - destruct reading as [err | structured]; cbn [fst snd cardProgress].
    + destruct (shows_set _ t
                  (fun c => {| job_status := failed; progress := 100;
                               message := "Failed to extract text";
                               result := None; error := Some err; createdAt := c |})
                  _ Hs) as (jobs' & -> & Hj').
      cbn [orCatch]. split; [| lia]. eexists; split; [exact Hj' | split; reflexivity].
    + destruct (shows_set _ t (processingJob 70 "Saving contact...") _ Hs)
        as (jobs' & -> & Hj').
      cbn [fst snd cardProgress]. split; [| lia].
      eexists; split; [exact Hj' | split; reflexivity].
  - destruct structured; cbn [fst snd cardProgress].
    + split; [exact Hs | lia].
    + split; [| lia]. eapply shows_catch, Hs.
  - destruct insertError; cbn [fst snd cardProgress].
    + split; [| lia]. eapply shows_catch, Hs.
    + split; [exact Hs | lia].
  - cbn [fst snd cardProgress].
    destruct (shows_set _ t
                (completedJob "Contact created successfully" (CardResult c extracted))
                _ Hs) as (jobs' & -> & Hj').
    cbn [orCatch]. split; [| lia]. eexists; split; [exact Hj' | split; reflexivity].
  - cbn [fst snd cardProgress]. split; [exact Hs | lia].
Qed.

Lemma cardProgress_range ph : 0 <= cardProgress ph <= 100.
Proof. destruct ph; cbn; lia. Qed.

Lemma cardRun_shows msg now0 (jobs : gmap string job) d (n : nat) :
  shows (cardProgress (cardRun n (CardStart, createJob jobId msg now0 jobs, d)).1.1) now0
        (cardRun n (CardStart, createJob jobId msg now0 jobs, d)).1.2.
Proof.
  induction n as [| n IH].
  - cbn. eexists; split; [apply lookup_insert_eq | split; reflexivity].
  - unfold cardRun in *. rewrite Nat.iter_succ.
    set (st := Nat.iter n _ _) in *.
    exact (proj1 (cardStep_progress st.1.1 st.1.2 st.2 _ IH)).
Qed.

Lemma cardRun_rank st (n : nat) :
  (Nat.min 5 (cardRank st.1.1 + n) <= cardRank (cardRun n st).1.1)%nat.
Proof.
  induction n as [| n IH].
  { unfold cardRun.
    change (Nat.min 5 (cardRank st.1.1 + 0) <= cardRank st.1.1)%nat. lia. }
  unfold cardRun in *. rewrite Nat.iter_succ. set (s := Nat.iter n _ st) in *.
  assert (Hcase : s.1.1 = CardDone \/ s.1.1 <> CardDone)
    by (destruct (s.1.1); first [left; reflexivity | right; discriminate]).
  destruct Hcase as [E | Hne].
  - rewrite E. cbn [cardStep fst snd cardRank]. lia.
  - pose proof (cardStep_rank jobId userId reading insertError s.1.1 s.1.2 s.2 Hne). lia.
Qed.

End Card.

End Runs.


End JobProgress.

(** ** What the sliding-window limiter keeps in Redis *)
Module RateLimitFacts.
Import RateLimit.
Local Open Scope string_scope.

(** The entries Redis holds under a key. *)
Definition stored (k : string) (s : store) : list (Z * string) :=
  default [] (zsets s !! k).

(** A call with its key, its time, its random number and the command that
    throws, if any. *)
Record call : Type := {
  call_key : string;
  call_now : Z;
  call_rnd : string;
  call_fault : option nat;
}.

(** Calls one after another, for any keys, at any times. *)
Definition serve (l : limiter) (cs : list call) (s : store) : store :=
  foldl (fun s c => (isAllowed l (call_key c) (call_now c) (call_rnd c) (call_fault c) s).1)
        s cs.

Lemma stored_lapse now k k' s :
  stored k' (lapse now k s) = stored k' s \/ (k' = k /\ stored k' (lapse now k s) = []).
Proof.
  unfold stored, lapse.
  destruct (deadlines s !! k) as [dl |]; [| left; reflexivity].
  destruct (dl <=? now)%Z; [| left; reflexivity]. cbn [zsets].
  destruct (decide (k' = k)) as [-> | Hne].
  - right. rewrite lookup_delete_eq. split; reflexivity.
  - left. rewrite lookup_delete_ne by congruence. reflexivity.
Qed.

Lemma stored_setEntries k k' es s :
  stored k' (setEntries k es s) = if decide (k' = k) then es else stored k' s.
Proof.
  unfold stored, setEntries. destruct (decide (k' = k)) as [-> | Hne].
  - destruct es; cbn [zsets]; rewrite ?lookup_delete_eq, ?lookup_insert_eq; reflexivity.
  - destruct es; cbn [zsets];
      rewrite ?lookup_delete_ne, ?lookup_insert_ne by congruence; reflexivity.
Qed.

Lemma stored_expire now k k' secs s : stored k' (expire now k secs s) = stored k' s.
Proof. unfold stored, expire. destruct (zsets s !! k); reflexivity. Qed.

(** One call never leaves more than [max] entries under a key that held
    no more before, and does not touch the entries of another key. *)
Lemma isAllowed_stored (l : limiter) (key : string) (now : Z) (rnd : string)
    (fault : option nat) (s : store) (k : string) :
  Z.of_nat (length (stored k (isAllowed l key now rnd fault s).1)) <=
    Z.max (Z.of_nat (length (stored k s))) (max l) /\
  (k <> keyPrefix l ++ key -> stored k (isAllowed l key now rnd fault s).1 = stored k s).
Proof.
  unfold isAllowed. destruct (redis l); cbn [negb fst]; [| split; [lia | reflexivity]].
  set (rk := keyPrefix l ++ key).
  set (s0 := lapse now rk s).
  assert (H0 : Z.of_nat (length (stored k s0)) <= Z.of_nat (length (stored k s)) /\
               (k <> rk -> stored k s0 = stored k s)).
  { destruct (stored_lapse now rk k s) as [E | [E1 E2]].
    - change (lapse now rk s) with s0 in E. rewrite E. split; [lia | reflexivity].
    - change (lapse now rk s) with s0 in E2. rewrite E2. cbn [length].
      split; [lia | congruence]. }
  destruct (bool_decide (fault = Some 0%nat)); cbn [fst]; [split; [lia | tauto] |].
  set (s1 := zremrangebyscore rk 0 (now - windowMs l) s0).
  assert (H1 : Z.of_nat (length (stored k s1)) <= Z.of_nat (length (stored k s)) /\
               (k <> rk -> stored k s1 = stored k s)).
  { unfold s1, zremrangebyscore. rewrite stored_setEntries.
    destruct (decide (k = rk)) as [-> | Hne]; [| exact H0].
    split; [| congruence].
    pose proof (ListFacts.length_filter_le (fun e : Z * string => ~ (0 <= e.1 <= now - windowMs l))
                  (default [] (zsets s0 !! rk))) as Hf.
    unfold stored in *. lia. }
  destruct (bool_decide (fault = Some 1%nat)); cbn [fst]; [split; [lia | tauto] |].
  unfold zcard. fold (stored rk s1).
  destruct (Z.leb_spec (max l) (Z.of_nat (length (stored rk s1)))) as [Hfull | Hroom];
    cbn [fst]; [split; [lia | tauto] |].
  destruct (bool_decide (fault = Some 2%nat)); cbn [fst]; [split; [lia | tauto] |].
  set (s2 := zadd rk now (memberOf now rnd) s1).
  assert (H2 : Z.of_nat (length (stored k s2)) <=
                 Z.max (Z.of_nat (length (stored k s))) (max l) /\
               (k <> rk -> stored k s2 = stored k s)).
  { unfold s2, zadd. rewrite stored_setEntries.
    destruct (decide (k = rk)) as [-> | Hne]; [| split; [lia | tauto]].
    split; [| congruence]. rewrite length_app. cbn [length].
    pose proof (ListFacts.length_filter_le (fun e : Z * string => e.2 <> memberOf now rnd)
                  (default [] (zsets s1 !! rk))) as Hf.
    unfold stored in *. lia. }
  destruct (bool_decide (fault = Some 3%nat)); cbn [fst]; [exact H2 |].
  rewrite stored_expire. exact H2.
Qed.



(** A call for one key leaves the entries of every other key as they
    were. *)
Theorem isAllowed_other_keys (l : limiter) (key : string) (now : Z) (rnd : string)
    (fault : option nat) (s : store) (k : string) :
  k <> keyPrefix l ++ key -> stored k (isAllowed l key now rnd fault s).1 = stored k s.
Proof. apply isAllowed_stored. Qed.

Lemma isAllowed_other_keys_witness :
  "ratelimit:u2" <> keyPrefix twoPerSecond ++ "u1" /\
  stored "ratelimit:u2" (isAllowed twoPerSecond "u1" 1000 "0.1" None emptyStore).1 =
    stored "ratelimit:u2" emptyStore.
Proof.
  assert (H : "ratelimit:u2" <> keyPrefix twoPerSecond ++ "u1") by discriminate.
  split; [exact H |].
  exact (isAllowed_other_keys twoPerSecond "u1" 1000 "0.1" None emptyStore _ H).
Defined.

(** What the caller and the response headers see: with a positive limit
    the remaining count is always between 0 and [max]; a request is turned
    away only with remaining 0; and a Redis failure can only let a request
    through, never turn away one that a healthy Redis would have let
    through. *)
Theorem isAllowed_verdict (l : limiter) (key : string) (now : Z) (rnd : string)
    (fault : option nat) (s : store) :
  0 <= max l ->
  0 <= remaining (isAllowed l key now rnd fault s).2 <= max l /\
  (allowed (isAllowed l key now rnd fault s).2 = false ->
   remaining (isAllowed l key now rnd fault s).2 = 0 /\
   redis l = true /\
   allowed (isAllowed l key now rnd None s).2 = false).
Proof.
  intros Hmax. unfold isAllowed.
  destruct (redis l); cbn [negb snd failOpen allowed remaining];
    [| split; [lia | discriminate]].
  change (bool_decide (None = Some 0%nat)) with false.
  change (bool_decide (None = Some 1%nat)) with false.
  change (bool_decide (None = Some 2%nat)) with false.
  change (bool_decide (None = Some 3%nat)) with false. cbv iota.
  destruct (bool_decide (fault = Some 0%nat)); cbn [snd failOpen allowed remaining];
    [split; [lia | discriminate] |].
  destruct (bool_decide (fault = Some 1%nat)); cbn [snd failOpen allowed remaining];
    [split; [lia | discriminate] |].
  set (count := zcard _ _).
  assert (0 <= count) by (unfold count, zcard; lia).
  destruct (Z.leb_spec (max l) count); cbn [snd allowed remaining];
    [split; [lia | intros _; repeat split] |].
  destruct (bool_decide (fault = Some 2%nat)); cbn [snd failOpen allowed remaining];
    [split; [lia | discriminate] |].
  destruct (bool_decide (fault = Some 3%nat)); cbn [snd failOpen allowed remaining];
    [split; [lia | discriminate] |].
  split; [lia | discriminate].
Qed.

Lemma isAllowed_verdict_witness :
  0 <= max twoPerSecond /\
  0 <= remaining (isAllowed twoPerSecond "u1" 1000 "0.1" (Some 1%nat) emptyStore).2
    <= max twoPerSecond.
Proof.
  assert (H : 0 <= max twoPerSecond) by (cbn; lia).
  split; [exact H |].
  exact (proj1 (isAllowed_verdict twoPerSecond "u1" 1000 "0.1" (Some 1%nat) emptyStore H)).
Defined.

End RateLimitFacts.

(** ** What a finished job says about the store ([routes/chat.js]) *)
Module PipelineReport.
Import JSString Quota Uploads.
Local Open Scope string_scope.

Section Sheet.

Variables (jobId userId : string).
Variables (file : option (list row)) (limit : option contactLimit)
          (analysis : analysisResult) (insertOk : bool) (now : Z).
(** The store when the pipeline starts. *)
Variable d0 : db.

(** The job tells what the run did to the store: completed, with as many
    contacts imported as rows were added and counted, the rest of the
    file's rows skipped; or failed, with the store as it was. *)
Definition sheetReported (jobs : gmap string job) (d : db) : Prop :=
  exists j, jobs !! jobId = Some j /\
    match job_status j, result j with
    | completed, Some (SheetResult i t s) =>
        exists data rows,
          file = Some data /\ t = length data /\ length rows = i /\ (i <= t)%nat /\
          ((s = None /\ rows = [] /\ d = d0) \/
           (s = Some (t - i)%nat /\ rows <> [] /\
            d = increment_contact_count userId (Z.of_nat i) (insertContacts rows d0)))
    | failed, None => d = d0
    | _, _ => False
    end.

Definition sheetInv (ph : sheetPhase) (jobs : gmap string job) (d : db) : Prop :=
  match ph with
  | Reading => d = d0
  | Analyzing data => is_Some (jobs !! jobId) /\ file = Some data /\ d = d0
  | Inserting data toInsert =>
      is_Some (jobs !! jobId) /\ file = Some data /\ d = d0 /\ toInsert <> [] /\
      (length toInsert <= length data)%nat
  | Counting data toInsert inserted =>
      is_Some (jobs !! jobId) /\ file = Some data /\ inserted = toInsert /\
      toInsert <> [] /\ (length toInsert <= length data)%nat /\
      d = insertContacts inserted d0
  | SheetDone => sheetReported jobs d
  end.

Lemma set_present (mk : option Z -> job) (jobs : gmap string job) :
  is_Some (jobs !! jobId) ->
  exists j, jobs !! jobId = Some j /\
    setKeepingCreatedAt jobId mk jobs = Some (<[jobId := mk (createdAt j)]> jobs).
Proof.
  intros [j Hj]. exists j. split; [exact Hj |].
  unfold setKeepingCreatedAt. rewrite Hj. reflexivity.
Qed.

Lemma reported_failed (jobs : gmap string job) (e : string) :
  sheetReported (catchFailed jobId e jobs) d0.
Proof.
  unfold sheetReported, catchFailed. eexists. split; [apply lookup_insert_eq |].
  reflexivity.
Qed.

Lemma length_sheetContacts (m : columnMappings) (data : list row) :
  (length (sheetContacts userId m data) <= length data)%nat.
Proof.
  unfold sheetContacts.
  etransitivity; [apply ListFacts.length_filter_le |]. rewrite length_fmap. lia.
Qed.

Lemma length_slice0 {A} (l : list A) (n : option Z) : (length (slice0 l n) <= length l)%nat.
Proof.
  unfold slice0. destruct n as [n |]; [| lia].
  destruct (0 <=? n)%Z; rewrite length_take; lia.
Qed.

Lemma sheetStep_inv ph (jobs : gmap string job) d :
  sheetInv ph jobs d ->
  let st := sheetStep jobId userId file limit analysis insertOk now ph jobs d in
  sheetInv st.1.1 st.1.2 st.2.
Proof.
  destruct ph as [| data | data toInsert | data toInsert inserted |];
    cbn [sheetInv sheetStep].
  - intros ->.
    destruct file as [data |] eqn:Hfile; cbn [fst snd sheetInv].
    + unfold setKeepingCreatedAt. rewrite lookup_insert_eq. cbn [mbind option_bind orCatch].
      split; [rewrite lookup_insert_eq; eauto |]. split; [exact Hfile | reflexivity].
    + apply reported_failed.
  - intros (Hj & Hfile & ->).
    destruct analysis as [err | mappings]; cbn [fst snd sheetInv].
    + destruct (set_present
                  (fun c => {| job_status := failed; progress := 100;
                               message := "Failed to analyze spreadsheet";
                               result := None; error := Some err; createdAt := c |})
                  jobs Hj) as (j & _ & ->).
      cbn [orCatch]. eexists. split; [apply lookup_insert_eq |]. reflexivity.
    + destruct (set_present (processingJob 50 "Importing contacts...") jobs Hj)
        as (j & _ & ->).
      assert (Hj1 : is_Some (<[jobId := processingJob 50 "Importing contacts..."
                                         (createdAt j)]> jobs !! jobId))
        by (rewrite lookup_insert_eq; eauto).
      destruct mappings as [m |]; cbn [fst snd sheetInv]; [| apply reported_failed].
      pose proof (length_slice0 (sheetContacts userId m data) (remainingOrInfinity limit))
        as Hlen.
      pose proof (length_sheetContacts m data) as Hlen'.
      destruct (bool_decide _) eqn:Hempty; cbn [fst snd sheetInv].
      * destruct (set_present
                    (completedJob "No valid contacts found to import"
                       (SheetResult 0 (length data) None)) _ Hj1) as (j1 & _ & ->).
        cbn [orCatch]. eexists. split; [apply lookup_insert_eq |].
        cbn [job_status result completedJob].
        exists data, []. split; [exact Hfile |]. split; [reflexivity |].
        split; [reflexivity |]. split; [lia |]. left. auto.
      * apply bool_decide_eq_false in Hempty.
        split; [exact Hj1 |]. split; [exact Hfile |]. split; [reflexivity |].
        split; [exact Hempty | lia].
  - intros (Hj & Hfile & -> & Hne & Hlen).
    destruct insertOk; cbn [fst snd sheetInv]; [| apply reported_failed].
    repeat split; assumption.
  - intros (Hj & Hfile & -> & Hne & Hlen & ->).
    cbn [fst snd sheetInv].
    destruct (set_present
                (completedJob
                   ("Successfully imported " ++ pretty (length toInsert) ++ " contacts")
                   (SheetResult (length toInsert) (length data)
                      (Some (length data - length toInsert)%nat))) jobs Hj)
      as (j & _ & ->).
    cbn [orCatch]. eexists. split; [apply lookup_insert_eq |].
    cbn [job_status result completedJob].
    exists data, toInsert. split; [exact Hfile |]. split; [reflexivity |].
    split; [reflexivity |]. split; [exact Hlen |]. right. auto.
  - exact id.
Qed.

Lemma processSpreadsheet_reported (jobs : gmap string job) :
  sheetReported
    (processSpreadsheet jobId userId file limit analysis insertOk now jobs d0).1
    (processSpreadsheet jobId userId file limit analysis insertOk now jobs d0).2.
Proof.
  unfold processSpreadsheet.
  assert (H0 : sheetInv Reading jobs d0) by reflexivity.
  pose proof (sheetStep_inv Reading jobs d0 H0) as H1.
  pose proof (sheetStep_keeps jobId userId file limit analysis insertOk now Reading jobs d0
                ltac:(intros [=])) as [A1 R1].
  destruct (sheetStep _ _ _ _ _ _ now Reading jobs d0) as [[ph1 jobs1] d1].
  cbn [fst snd] in H1, A1, R1.
  pose proof (sheetStep_inv ph1 jobs1 d1 H1) as H2.
  pose proof (sheetStep_keeps jobId userId file limit analysis insertOk now ph1 jobs1 d1 A1)
    as [A2 R2].
  destruct (sheetStep _ _ _ _ _ _ now ph1 jobs1 d1) as [[ph2 jobs2] d2].
  cbn [fst snd] in H2, A2, R2.
  pose proof (sheetStep_inv ph2 jobs2 d2 H2) as H3.
  pose proof (sheetStep_keeps jobId userId file limit analysis insertOk now ph2 jobs2 d2 A2)
    as [A3 R3].
  destruct (sheetStep _ _ _ _ _ _ now ph2 jobs2 d2) as [[ph3 jobs3] d3].
  cbn [fst snd] in H3, A3, R3.
  pose proof (sheetStep_inv ph3 jobs3 d3 H3) as H4.
  pose proof (sheetStep_keeps jobId userId file limit analysis insertOk now ph3 jobs3 d3 A3)
    as [A4 R4].
  destruct (sheetStep _ _ _ _ _ _ now ph3 jobs3 d3) as [[ph4 jobs4] d4].
  cbn [fst snd] in *. cbn [sheetRank] in R1.
  destruct ph4; cbn [sheetRank] in R4; try lia. exact H4.
Qed.

End Sheet.

Section Card.

Variables (jobId userId : string).
Variables (reading : extraction) (insertError : option string).
Variable d0 : db.

Definition cardReported (jobs : gmap string job) (d : db) : Prop :=
  exists j, jobs !! jobId = Some j /\
    match job_status j, result j with
    | completed, Some (CardResult c extracted) =>
        reading = Extracted (Some extracted) /\ c = cardContact userId extracted /\
        d = increment_contact_count userId 1 (insertContacts [c] d0)
    | failed, None => d = d0
    | _, _ => False
    end.

Definition cardInv (ph : cardPhase) (jobs : gmap string job) (d : db) : Prop :=
  match ph with
  | CardStart => d = d0
  | Extracting => is_Some (jobs !! jobId) /\ d = d0
  | Storing structured =>
      is_Some (jobs !! jobId) /\ reading = Extracted structured /\ d = d0
  | InsertingCard c extracted =>
      is_Some (jobs !! jobId) /\ reading = Extracted (Some extracted) /\
      c = cardContact userId extracted /\ d = d0
  | CountingCard c extracted =>
      is_Some (jobs !! jobId) /\ reading = Extracted (Some extracted) /\
      c = cardContact userId extracted /\ d = insertContacts [c] d0
  | CardDone => cardReported jobs d
  end.

Lemma cardReported_failed (jobs : gmap string job) (e : string) :
  cardReported (catchFailed jobId e jobs) d0.
Proof.
  unfold cardReported, catchFailed. eexists. split; [apply lookup_insert_eq |].
  reflexivity.
Qed.

Lemma cardStep_inv ph (jobs : gmap string job) d :
  cardInv ph jobs d ->
  let st := cardStep jobId userId reading insertError ph jobs d in
  cardInv st.1.1 st.1.2 st.2.
Proof.
  destruct ph as [| | structured | c extracted | c extracted |];
    cbn [cardInv cardStep].
  - intros ->. unfold setKeepingCreatedAt.
    destruct (jobs !! jobId) as [j |] eqn:Hj; cbn [mbind option_bind fst snd cardInv].
    + split; [rewrite lookup_insert_eq; eauto | reflexivity].
    + apply cardReported_failed.
  - intros (Hj & ->).
    destruct reading as [err | structured] eqn:Hreading; cbn [fst snd cardInv].
    + destruct (set_present jobId
                  (fun c => {| job_status := failed; progress := 100;
                               message := "Failed to extract text";
                               result := None; error := Some err; createdAt := c |})
                  jobs Hj) as (j & _ & ->).
      cbn [orCatch]. eexists. split; [apply lookup_insert_eq |]. reflexivity.
    + destruct (set_present jobId (processingJob 70 "Saving contact...") jobs Hj)
        as (j & _ & ->).
      cbn [fst snd cardInv]. split; [rewrite lookup_insert_eq; eauto |].
      split; [exact Hreading | reflexivity].
  - intros (Hj & Hreading & ->).
    destruct structured as [extracted |]; cbn [fst snd cardInv];
      [| apply cardReported_failed].
    repeat split; assumption.
  - intros (Hj & Hreading & -> & ->).
    destruct insertError; cbn [fst snd cardInv]; [apply cardReported_failed |].
    repeat split; assumption.
  - intros (Hj & Hreading & -> & ->). cbn [fst snd cardInv].
    destruct (set_present jobId
                (completedJob "Contact created successfully"
                   (CardResult (cardContact userId extracted) extracted)) jobs Hj)
      as (j & _ & ->).
    cbn [orCatch]. eexists. split; [apply lookup_insert_eq |].
    cbn [job_status result completedJob]. repeat split. exact Hreading.
  - exact id.
Qed.

Lemma processNamecard_reported (jobs : gmap string job) :
  cardReported
    (processNamecard jobId userId reading insertError jobs d0).1
    (processNamecard jobId userId reading insertError jobs d0).2.
Proof.
  unfold processNamecard.
  assert (H0 : cardInv CardStart jobs d0) by reflexivity.
  pose proof (cardStep_inv CardStart jobs d0 H0) as H1.
  pose proof (cardStep_keeps jobId userId reading insertError CardStart jobs d0
                ltac:(intros [=])) as [A1 R1].
  destruct (cardStep _ _ _ _ CardStart jobs d0) as [[ph1 jobs1] d1].
  cbn [fst snd] in H1, A1, R1.
  pose proof (cardStep_inv ph1 jobs1 d1 H1) as H2.
  pose proof (cardStep_keeps jobId userId reading insertError ph1 jobs1 d1 A1) as [A2 R2].
  destruct (cardStep _ _ _ _ ph1 jobs1 d1) as [[ph2 jobs2] d2].
  cbn [fst snd] in H2, A2, R2.
  pose proof (cardStep_inv ph2 jobs2 d2 H2) as H3.
  pose proof (cardStep_keeps jobId userId reading insertError ph2 jobs2 d2 A2) as [A3 R3].
  destruct (cardStep _ _ _ _ ph2 jobs2 d2) as [[ph3 jobs3] d3].
  cbn [fst snd] in H3, A3, R3.
  pose proof (cardStep_inv ph3 jobs3 d3 H3) as H4.
  pose proof (cardStep_keeps jobId userId reading insertError ph3 jobs3 d3 A3) as [A4 R4].
  destruct (cardStep _ _ _ _ ph3 jobs3 d3) as [[ph4 jobs4] d4].
  cbn [fst snd] in H4, A4, R4.
  pose proof (cardStep_inv ph4 jobs4 d4 H4) as H5.
  pose proof (cardStep_keeps jobId userId reading insertError ph4 jobs4 d4 A4) as [A5 R5].
  destruct (cardStep _ _ _ _ ph4 jobs4 d4) as [[ph5 jobs5] d5].
  cbn [fst snd] in *. cbn [cardRank] in R1.
  destruct ph5; cbn [cardRank] in R5; try lia. exact H5.
Qed.

End Card.


End PipelineReport.

(** ** Repeated clean-ups of the job map *)
Module Sweeps.
Import Uploads.

Lemma expired_later (t1 t2 : Z) (j : job) :
  t1 <= t2 -> expired t1 j = true -> expired t2 j = true.
Proof.
  unfold expired. destruct (createdAt j) as [t |]; [| discriminate].
  intros Hle H%Z.ltb_lt. apply Z.ltb_lt. lia.
Qed.

(** The clean-up only ever removes: what is left after two runs is what
    the later run alone leaves, so a run that fires late or twice changes
    nothing; and a job a run keeps is the job that was there. *)
Theorem sweep_twice (t1 t2 : Z) (jobs : gmap string job) :
  t1 <= t2 ->
  sweep t2 (sweep t1 jobs) = sweep t2 jobs /\
  sweep t1 (sweep t2 jobs) = sweep t2 jobs /\
  sweep t2 jobs ⊆ sweep t1 jobs /\ sweep t1 jobs ⊆ jobs.
Proof.
  intros Hle. unfold sweep.
  assert (Hboth : forall kv : string * job,
            expired t2 kv.2 = false -> expired t1 kv.2 = false).
  { intros kv H2. destruct (expired t1 kv.2) eqn:H1; [| reflexivity].
    rewrite (expired_later t1 t2 _ Hle H1) in H2. discriminate. }
  repeat split.
  - apply map_filter_filter_l. intros k j _ H. apply (Hboth (k, j) H).
  - apply map_filter_filter_r. intros k j _ H. apply (Hboth (k, j) H).
  - apply map_filter_subseteq_ext. intros k j _ H. apply (Hboth (k, j) H).
  - apply map_filter_subseteq.
Qed.

Lemma sweep_twice_witness :
  1705320000000 <= 1705320900000 /\
  sweep 1705320900000
    (sweep 1705320000000
       (createJob "job-1" "Starting file processing..." 1705310000000 ∅)) =
  sweep 1705320900000 (createJob "job-1" "Starting file processing..." 1705310000000 ∅).
Proof.
  split; [lia |].
  exact (proj1 (sweep_twice 1705320000000 1705320900000
                  (createJob "job-1" "Starting file processing..." 1705310000000 ∅)
                  ltac:(lia))).
Defined.

End Sweeps.

(** ** How far a recurrence moves a due date ([routes/reminders.js]) *)
Module RecurrenceWindow.
Import JSDate Recurrence.

Section LocalZone.

Variable LocalTZA : Z.

(** The days [k] months add to a date. *)
Lemma advanceMonths_days (t k : Z) :
  advanceMonths LocalTZA t k =
  t + (MakeDay (getFullYear LocalTZA t) (getMonth LocalTZA t + k) (getDate LocalTZA t)
       - MakeDay (getFullYear LocalTZA t) (getMonth LocalTZA t) (getDate LocalTZA t))
      * msPerDay.
Proof.
  unfold advanceMonths, getFullYear, getMonth, getDate. cbv zeta.
  rewrite UTC_MakeDate_shift, (MakeDay_fields (LocalTime LocalTZA t)). reflexivity.
Qed.

Lemma LeapOfYear_range y : 0 <= LeapOfYear y <= 1.
Proof. unfold LeapOfYear. destruct (_ =? _); lia. Qed.

(** Three months on are 89 to 92 days on. *)
Lemma MakeDay_quarter y m dt :
  0 <= m <= 11 ->
  MakeDay y m dt + 89 <= MakeDay y (m + 3) dt <= MakeDay y m dt + 92.
Proof.
  intros Hm.
  replace (m + 3) with (m + 1 + 1 + 1) by lia.
  rewrite !MakeDay_month_succ.
  pose proof (LeapOfYear_range y). pose proof (LeapOfYear_range (y + 1)).
  pose proof (month_index_cases m ltac:(lia)) as Hc.
  destruct_or!; subst m;
    repeat match goal with
           | |- context [Z.div ?a 12] =>
               let v := eval vm_compute in (Z.div a 12) in change (Z.div a 12) with v
           | |- context [Z.modulo ?a 12] =>
               let v := eval vm_compute in (Z.modulo a 12) in change (Z.modulo a 12) with v
           end;
    rewrite ?Z.add_0_r; cbn [DaysInMonth]; lia.
Qed.

Lemma advanceMonths_one (t : Z) :
  advanceMonths LocalTZA t 1 =
  t + DaysInMonth (getFullYear LocalTZA t) (getMonth LocalTZA t) * msPerDay.
Proof.
  rewrite advanceMonths_days, MakeDay_month_succ.
  pose proof (fields_of_time (LocalTime LocalTZA t)) as (Hm & _ & _). cbv zeta in Hm.
  unfold getFullYear, getMonth.
  rewrite Z.div_small, Z.mod_small, Z.add_0_r by lia. f_equal. lia.
Qed.

Lemma advanceMonths_three (t : Z) :
  t + 89 * msPerDay <= advanceMonths LocalTZA t 3 <= t + 92 * msPerDay.
Proof.
  rewrite advanceMonths_days.
  pose proof (fields_of_time (LocalTime LocalTZA t)) as (Hm & _ & _). cbv zeta in Hm.
  pose proof (MakeDay_quarter (getFullYear LocalTZA t) (getMonth LocalTZA t)
                (getDate LocalTZA t) Hm).
  unfold msPerDay. lia.
Qed.

End LocalZone.



End RecurrenceWindow.

(** ** GET /api/reminders/today ([routes/reminders.js]) *)
Module Today.
Import JSDate.

Section LocalZone.

Variable LocalTZA : Z.

(** [new Date(year, month, date)]: local midnight of that day; a year
    from 0 to 99 is taken as 1900 + year. *)
Definition newDate (year month date : Z) : option Z :=
  let yr := if (0 <=? year) && (year <=? 99) then 1900 + year else year in
  TimeClip (UTC LocalTZA (MakeDate (MakeDay yr month date) 0)).

(** The bounds GET /api/reminders/today selects between, at time [now]:
    [todayStart] and [todayEnd]. [None] stands for the [RangeError] that
    [toISOString] throws on an invalid date. *)
Definition todayWindow (now : Z) : option (Z * Z) :=
  todayStart ← newDate (getFullYear LocalTZA now) (getMonth LocalTZA now)
                       (getDate LocalTZA now);
  todayEnd ← setDate LocalTZA todayStart (getDate LocalTZA todayStart + 1);
  Some (todayStart, todayEnd).

(** The calendar date of a time value in the host zone. *)
Definition localDate (t : Z) : Z * Z * Z :=
  (getFullYear LocalTZA t, getMonth LocalTZA t, getDate LocalTZA t).

(** The calendar date [toISOString] prints (year, month from 0, day): the
    response's [date] is [todayStart.toISOString().split('T')[0]]. *)
Definition isoDate (t : Z) : Z * Z * Z :=
  (YearFromTime t, MonthFromTime t, DateFromTime t).

Lemma isoDate_Day t1 t2 : Day t1 = Day t2 <-> isoDate t1 = isoDate t2.
Proof.
  split.
  - intros H. unfold isoDate, DateFromTime, MonthFromTime, InLeapYear, DayWithinYear,
      YearFromTime. rewrite H. reflexivity.
  - unfold isoDate. intros [= Hy Hm Hd].
    rewrite <- (MakeDay_fields t1), <- (MakeDay_fields t2). congruence.
Qed.

Lemma YearFromTime_epoch t : 0 <= t -> 1970 <= YearFromTime t.
Proof.
  intros Ht. unfold YearFromTime.
  pose proof (YearFromDay_spec (Day t)) as [_ Hs].
  assert (0 <= Day t) by (unfold Day, msPerDay; Z.div_mod_to_equations; lia).
  destruct (Z.le_gt_cases 1970 (YearFromDay (Day t))) as [Hle | Hgt]; [exact Hle |].
  pose proof (DayFromYear_mono (YearFromDay (Day t) + 1) 1970 ltac:(lia)) as Hm.
  change (DayFromYear 1970) with 0 in Hm. lia.
Qed.

End LocalZone.

Lemma bind_window (a : option Z) (f : Z -> option Z) (s e : Z) :
  a = Some s -> f s = Some e -> (x ← a; y ← f x; Some (x, y)) = Some (s, e).
Proof. intros -> H. cbn. rewrite H. reflexivity. Qed.

Section Window.

Variables (LocalTZA now : Z).
Hypothesis Hz : - msPerDay < LocalTZA <= msPerDay.
Hypothesis Hlo : msPerDay <= now.
Hypothesis Hhi : now + 2 * msPerDay <= maxTime.

(** Local midnight of the day that contains [now]. *)
Definition midnight : Z := Day (LocalTime LocalTZA now) * msPerDay - LocalTZA.

Lemma midnight_bounds : midnight <= now < midnight + msPerDay.
Proof.
  unfold midnight, LocalTime, Day, msPerDay. Z.div_mod_to_equations. lia.
Qed.

Lemma newDate_midnight :
  newDate LocalTZA (getFullYear LocalTZA now) (getMonth LocalTZA now)
    (getDate LocalTZA now) = Some midnight.
Proof.
  unfold newDate, getFullYear, getMonth, getDate.
  assert (Hlt : 0 <= LocalTime LocalTZA now)
    by (unfold LocalTime; unfold msPerDay in Hz, Hlo; lia).
  pose proof (YearFromTime_epoch _ Hlt) as Hy.
  destruct (Z.leb_spec (YearFromTime (LocalTime LocalTZA now)) 99); [lia |].
  rewrite andb_false_r, MakeDay_fields.
  pose proof midnight_bounds as Hb.
  replace (UTC LocalTZA (MakeDate (Day (LocalTime LocalTZA now)) 0)) with midnight
    by (unfold midnight, UTC, MakeDate; lia).
  apply TimeClip_in_range.
  generalize dependent midnight. intros m Hb.
  unfold maxTime, msPerDay in *. lia.
Qed.

Lemma setDate_midnight :
  setDate LocalTZA midnight (getDate LocalTZA midnight + 1) = Some (midnight + msPerDay).
Proof.
  rewrite setDate_plus, Z.mul_1_l. apply TimeClip_in_range.
  pose proof midnight_bounds as Hb.
  generalize dependent midnight. intros m Hb.
  unfold maxTime, msPerDay in *. lia.
Qed.

Lemma todayWindow_midnight :
  todayWindow LocalTZA now = Some (midnight, midnight + msPerDay).
Proof.
  exact (bind_window _ (fun s => setDate LocalTZA s (getDate LocalTZA s + 1)) _ _
           newDate_midnight setDate_midnight).
Qed.

Lemma localDate_iso t : localDate LocalTZA t = isoDate (LocalTime LocalTZA t).
Proof. reflexivity. Qed.

Lemma midnight_same_day (due : Z) :
  midnight <= due < midnight + msPerDay <->
  Day (LocalTime LocalTZA due) = Day (LocalTime LocalTZA now).
Proof.
  unfold midnight, LocalTime, Day, msPerDay. split; intros H; Z.div_mod_to_equations; lia.
Qed.

Lemma midnight_utc_day :
  Day midnight = if 0 <? LocalTZA then Day (LocalTime LocalTZA now) - 1
                 else Day (LocalTime LocalTZA now).
Proof.
  unfold midnight. generalize (Day (LocalTime LocalTZA now)). intros D.
  unfold Day, msPerDay in *. destruct (Z.ltb_spec 0 LocalTZA); Z.div_mod_to_equations; lia.
Qed.

Lemma Day_before : Day (LocalTime LocalTZA (now - msPerDay)) = Day (LocalTime LocalTZA now) - 1.
Proof. unfold LocalTime, Day, msPerDay. Z.div_mod_to_equations. lia. Qed.

End Window.



(** On that host the window of 15 January runs from the 14th, 16:00 UTC,
    and the response reports the 14th. *)
Example today_in_kuala_lumpur :
  todayWindow 28800000 1705280400000 = Some (1705248000000, 1705334400000) /\
  isoDate 1705248000000 = (2024, 0, 14) /\
  localDate 28800000 1705280400000 = (2024, 0, 15).
Proof. vm_compute. repeat split; reflexivity. Qed.

End Today.

(** ** The counter helpers' fallbacks ([services/supabase.js]) *)
Module ContactCount.
Import JSString Quota.
Local Open Scope string_scope.

(** The fallback of [decrementContactCount] ([services/supabase.js]), the
    part that runs when the procedure call reports an error: read the
    profile, write [Math.max(0, count - n)] back. The stored procedure
    itself is not among the sources. *)
Definition stepFallbackDec (userId : string) (count : Z) (ph : fallbackPhase) (d : db)
    : fallbackPhase * db :=
  match ph with
  | RpcFailed => (ProfileRead (profiles d !! userId), d)
  | ProfileRead (Some p) =>
      (Written, updateContactCount userId (Z.max 0 (orZero (contact_count p) - count)) d)
  | ProfileRead None => (Written, d)
  | Written => (Written, d)
  end.

(** The fallback run without interruption. *)
Definition decrementFallback (userId : string) (count : Z) (d : db) : db :=
  let '(ph1, d1) := stepFallbackDec userId count RpcFailed d in
  (stepFallbackDec userId count ph1 d1).2.

Lemma countOf_update (userId : string) (n : Z) (d : db) (p : profile) :
  profiles d !! userId = Some p -> countOf userId (updateContactCount userId n d) = n.
Proof.
  intros Hp. unfold countOf, updateContactCount. cbn [profiles].
  rewrite lookup_alter_eq, Hp. reflexivity.
Qed.

Lemma profile_update (userId : string) (n : Z) (d : db) (p : profile) :
  profiles d !! userId = Some p ->
  profiles (updateContactCount userId n d) !! userId =
    Some {| subscription_plan := subscription_plan p; contact_count := Some n |}.
Proof.
  intros Hp. unfold updateContactCount. cbn [profiles].
  rewrite lookup_alter_eq, Hp. reflexivity.
Qed.

(** Two calls of [incrementContactCount] whose procedure call failed, for
    the same user: when both read the profile before either writes, the
    counter ends at the count read plus the second writer's amount, and
    the first writer's increment is gone; run one after the other, both
    amounts are added. *)
Theorem fallback_interleaving_loses_increment
    (userId : string) (a b : Z) (d : db) (p : profile) :
  profiles d !! userId = Some p ->
  (let '(a1, d1) := stepFallback userId a RpcFailed d in
   let '(b1, d2) := stepFallback userId b RpcFailed d1 in
   let '(a2, d3) := stepFallback userId a a1 d2 in
   let '(b2, d4) := stepFallback userId b b1 d3 in
   a2 = Written /\ b2 = Written /\ countOf userId d4 = countOf userId d + b) /\
  countOf userId (incrementContactCount userId b false
                    (incrementContactCount userId a false d)) = countOf userId d + a + b.
Proof.
  intros Hp.
  assert (Hc : countOf userId d = orZero (contact_count p))
    by (unfold countOf; rewrite Hp; reflexivity).
  split.
  - cbn [stepFallback]. rewrite Hp. cbn [stepFallback].
    split; [reflexivity |]. split; [reflexivity |].
    erewrite countOf_update; [lia | apply profile_update, Hp].
  - unfold incrementContactCount. cbn [stepFallback snd]. rewrite Hp.
    cbn [stepFallback snd]. erewrite profile_update by exact Hp.
    cbn [stepFallback snd contact_count orZero].
    erewrite countOf_update; [lia | apply profile_update, Hp].
Qed.

Lemma fallback_interleaving_loses_increment_witness :
  profiles freeAt49 !! "u1" =
    Some {| subscription_plan := Some "free"; contact_count := Some 49 |} /\
  countOf "u1" (incrementContactCount "u1" 2 false
                  (incrementContactCount "u1" 1 false freeAt49)) =
    countOf "u1" freeAt49 + 1 + 2.
Proof.
  assert (H : profiles freeAt49 !! "u1" =
              Some {| subscription_plan := Some "free"; contact_count := Some 49 |})
    by (vm_compute; reflexivity).
  split; [exact H |].
  exact (proj2 (fallback_interleaving_loses_increment "u1" 1 2 freeAt49 _ H)).
Defined.

(** The decrement fallback never writes a negative count, and it undoes
    the increment fallback: adding [n] contacts and removing [n] leaves a
    non-negative counter where it was. Removing first does not: a counter
    below [n] is floored at 0 and comes back as [n]. *)
Theorem decrement_fallback_floor (userId : string) (n : Z) (d : db) (p : profile) :
  profiles d !! userId = Some p ->
  0 <= countOf userId (decrementFallback userId n d) /\
  countOf userId (decrementFallback userId n d) = Z.max 0 (countOf userId d - n) /\
  (0 <= countOf userId d -> 0 <= n ->
   countOf userId (decrementFallback userId n (incrementContactCount userId n false d)) =
     countOf userId d) /\
  (countOf userId d <= n ->
   countOf userId (incrementContactCount userId n false (decrementFallback userId n d)) = n).
Proof.
  intros Hp.
  assert (Hc : countOf userId d = orZero (contact_count p))
    by (unfold countOf; rewrite Hp; reflexivity).
  assert (Hdec : forall d' p', profiles d' !! userId = Some p' ->
            countOf userId (decrementFallback userId n d') =
              Z.max 0 (countOf userId d' - n) /\
            exists q, profiles (decrementFallback userId n d') !! userId = Some q).
  { intros d' p' Hp'. unfold decrementFallback. cbn [stepFallbackDec]. rewrite Hp'.
    cbn [stepFallbackDec snd]. split.
    - erewrite countOf_update by exact Hp'. unfold countOf. rewrite Hp'. reflexivity.
    - eexists. apply profile_update, Hp'. }
  assert (Hinc : forall d' p', profiles d' !! userId = Some p' ->
            countOf userId (incrementContactCount userId n false d') =
              countOf userId d' + n /\
            exists q, profiles (incrementContactCount userId n false d') !! userId = Some q).
  { intros d' p' Hp'. unfold incrementContactCount. cbn [stepFallback]. rewrite Hp'.
    cbn [stepFallback snd]. split.
    - erewrite countOf_update by exact Hp'. unfold countOf. rewrite Hp'. reflexivity.
    - eexists. apply profile_update, Hp'. }
  destruct (Hdec d p Hp) as [Hd [q Hq]]. destruct (Hinc d p Hp) as [Hi [q' Hq']].
  split; [lia |]. split; [exact Hd |]. split.
  - intros H0 Hn. rewrite (proj1 (Hdec _ _ Hq')). lia.
  - intros Hle. rewrite (proj1 (Hinc _ _ Hq)). lia.
Qed.

Lemma decrement_fallback_floor_witness :
  profiles freeAt49 !! "u1" =
    Some {| subscription_plan := Some "free"; contact_count := Some 49 |} /\
  0 <= countOf "u1" (decrementFallback "u1" 60 freeAt49).
Proof.
  assert (H : profiles freeAt49 !! "u1" =
              Some {| subscription_plan := Some "free"; contact_count := Some 49 |})
    by (vm_compute; reflexivity).
  split; [exact H |].
  exact (proj1 (decrement_fallback_floor "u1" 60 freeAt49 _ H)).
Defined.

End ContactCount.

(** ** PUT /api/contacts/:id ([routes/contacts.js]) *)
Module ContactUpdate.
Import JSString.
Local Open Scope string_scope.

(** A JSON object with string-or-null values, and a row of the [contacts]
    table by column; the table by primary key [id]. *)
Abbreviation fields := (gmap string (option string)).
Abbreviation table := (gmap string fields).

Inductive updateResponse : Type :=
  | Updated (row : fields)
  | UpdateRejected (httpStatus : Z) (code : string).

(** [validateContact({ name })] finds no error. *)
Definition validName (name : option string) : bool :=
  truthy name && (2 <=? String.length (trim (orElse name "")))%nat.

(** The object the handler hands to [.update]: the body without [id],
    [user_id] and [created_at], with [updated_at] set and a truthy email
    in lower case and trimmed. *)
Definition patchOf (updates : fields) (now : string) : fields :=
  let updates := delete "created_at" (delete "user_id" (delete "id" updates)) in
  let updates := <["updated_at" := Some now]> updates in
  match updates !! "email" with
  | Some (Some e) =>
      if String.eqb e "" then updates
      else <["email" := Some (trim (toLowerCase e))]> updates
  | _ => updates
  end.

(** PUT /api/contacts/:id, behind [authenticateToken]. [now] is the
    timestamp [new Date().toISOString()] and [storeOk] whether the store
    accepts the update. The update applies to the row with this [id] whose
    [user_id] is the caller's; none such is answered 404. *)
Definition updateContact (userId id : string) (updates : fields) (now : string)
    (storeOk : bool) (t : table) : table * updateResponse :=
  let nameRejected :=
    match updates !! "name" with
    | Some name => negb (validName name)
    | None => false
    end in
  if nameRejected then (t, UpdateRejected 400 "VALIDATION_ERROR")
  else
    match t !! id with
    | Some row =>
        if bool_decide (row !! "user_id" = Some (Some userId)) then
          if storeOk then
            let row' := patchOf updates now ∪ row in
            (<[id := row']> t, Updated row')
          else (t, UpdateRejected 500 "INTERNAL_ERROR")
        else (t, UpdateRejected 404 "NOT_FOUND")
    | None => (t, UpdateRejected 404 "NOT_FOUND")
    end.

Definition protected (column : string) : Prop :=
  column = "id" \/ column = "user_id" \/ column = "created_at".

Lemma patchOf_protected (updates : fields) (now column : string) :
  protected column -> patchOf updates now !! column = None.
Proof.
  intros Hc. unfold patchOf. cbv zeta.
  set (base := <["updated_at" := Some now]>
                 (delete "created_at" (delete "user_id" (delete "id" updates)))).
  assert (Hbase : base !! column = None).
  { unfold base. destruct Hc as [-> | [-> | ->]].
    - rewrite lookup_insert_ne by discriminate.
      rewrite !lookup_delete_ne by discriminate. apply lookup_delete_eq.
    - rewrite lookup_insert_ne by discriminate.
      rewrite lookup_delete_ne by discriminate. apply lookup_delete_eq.
    - rewrite lookup_insert_ne by discriminate. apply lookup_delete_eq. }
  destruct (base !! "email") as [[e |] |]; try exact Hbase.
  destruct (String.eqb e ""); [exact Hbase |].
  rewrite lookup_insert_ne; [exact Hbase |].
  destruct Hc as [-> | [-> | ->]]; discriminate.
Qed.


Definition amyRow : fields :=
  {[ "id" := Some "c1"; "user_id" := Some "u1"; "name" := Some "Amy Tan";
     "created_at" := Some "2024-01-15T10:00:00.000Z" ]}.


(** A body that names another owner and a mixed-case email: the owner
    stays, the email is stored in lower case and trimmed. *)
Example update_ignores_owner :
  let t' := (updateContact "u1" "c1"
               {[ "user_id" := Some "u2"; "email" := Some " Amy@Example.COM " ]}
               "2024-02-01T00:00:00.000Z" true {[ "c1" := amyRow ]}).1 in
  (t' !! "c1") ≫= (fun r => r !! "user_id") = Some (Some "u1") /\
  (t' !! "c1") ≫= (fun r => r !! "email") = Some (Some "amy@example.com").
Proof. vm_compute. split; reflexivity. Qed.

End ContactUpdate.

(** ** Authentication middleware ([middleware/auth.js]) *)
Module Auth.
Import JSString Quota.
Local Open Scope string_scope.

(** What the middleware leaves on the request: [req.user] (by its id),
    [req.token] and [req.userProfile]; [None] for [null] or [undefined]. *)
Record session : Type := {
  user : option string;
  token : option string;
  userProfile : option profile;
}.

Definition anonymous : session := {| user := None; token := None; userProfile := None |}.

Inductive authResult : Type :=
  | Proceed (req : session)
  | Denied (httpStatus : Z) (code : string).

(** [authHeader.slice(7)]. *)
Fixpoint slice (n : nat) (s : string) : string :=
  match n, s with
  | S k, String _ rest => slice k rest
  | _, _ => s
  end.

(** The token of an [Authorization] header: what follows ["Bearer "], or
    the header itself. *)
Definition tokenOf (authHeader : string) : string :=
  if startsWith authHeader "Bearer " then slice 7 authHeader else authHeader.

Section Services.

(** [getUserByToken]: the id of the user the authentication service knows
    the token for, if it does. [getUserProfile]: that user's profile row,
    if the read succeeds and finds one. Both helpers catch their own
    failures and report them in their result, so the [catch] block of the
    middleware (the 500 answer of [authenticateToken], the anonymous
    request of [optionalAuth]) is not reached from them and has no
    branch here. *)
Variable getUserByToken : string -> option string.
Variable getUserProfile : string -> option profile.

Definition authenticateToken (authHeader : option string) : authResult :=
  if negb (truthy authHeader) then Denied 401 "NO_TOKEN"
  else
    let token := tokenOf (orElse authHeader "") in
    if String.eqb token "" then Denied 401 "INVALID_TOKEN_FORMAT"
    else
      match getUserByToken token with
      | None => Denied 401 "INVALID_TOKEN"
      | Some userId =>
          Proceed {| user := Some userId; token := Some token;
                  userProfile := getUserProfile userId |}
      end.

Definition optionalAuth (authHeader : option string) : authResult :=
  if negb (truthy authHeader) then Proceed anonymous
  else
    let token := tokenOf (orElse authHeader "") in
    if String.eqb token "" then Proceed anonymous
    else
      match getUserByToken token with
      | Some userId =>
          Proceed {| user := Some userId; token := Some token;
                  userProfile := getUserProfile userId |}
      | None => Proceed anonymous
      end.

(** [getUserId(req)]. *)
Definition getUserId (req : session) : option string := orNull (user req).

(** [checkContactLimit()] on the request a middleware passed on. *)
Definition thenCheckContactLimit (p : authResult) : option gate :=
  match p with
  | Proceed req => Some (checkContactLimit (user req) (userProfile req))
  | Denied _ _ => None
  end.

(** [optionalAuth] is [authenticateToken] with every refusal turned into
    an anonymous request: it never refuses, and it names a user exactly
    when [authenticateToken] lets the request through, the same user with
    the same token and profile. Behind [authenticateToken] a request
    always carries a user and a non-empty token the service knows, so the
    quota gate's own 401 cannot occur; behind [optionalAuth] it occurs
    exactly for the anonymous requests. *)
Theorem optionalAuth_is_lenient_authenticateToken (authHeader : option string) :
  optionalAuth authHeader =
    Proceed (match authenticateToken authHeader with
          | Proceed req => req
          | Denied _ _ => anonymous
          end) /\
  match authenticateToken authHeader with
  | Proceed req =>
      exists userId t,
        user req = Some userId /\ token req = Some t /\ t <> "" /\
        getUserByToken t = Some userId /\ userProfile req = getUserProfile userId /\
        checkContactLimit (user req) (userProfile req) <> Unauthorized
  | Denied httpStatus _ =>
      httpStatus = 401 /\
      thenCheckContactLimit (optionalAuth authHeader) = Some Unauthorized
  end.
Proof.
  unfold optionalAuth, authenticateToken.
  destruct (truthy authHeader); cbn [negb]; [| split; [reflexivity | split; reflexivity]].
  cbv zeta. destruct (String.eqb_spec (tokenOf (orElse authHeader "")) "") as [He | Hne];
    [split; [reflexivity | split; reflexivity] |].
  destruct (getUserByToken (tokenOf (orElse authHeader ""))) as [userId |] eqn:Hu;
    [| split; [reflexivity | split; reflexivity]].
  split; [reflexivity |].
  exists userId, (tokenOf (orElse authHeader "")). cbn [user token userProfile].
  repeat split; try assumption.
  unfold checkContactLimit. destruct (_ <=? _)%Z; discriminate.
Qed.

End Services.

Example tokenOf_bearer : tokenOf "Bearer abc.def" = "abc.def" /\ tokenOf "abc.def" = "abc.def".
Proof. split; reflexivity. Qed.

End Auth.

(** ** Completing a reminder again ([routes/reminders.js]) *)
Module CompleteAgain.
Import JSString JSDate Recurrence Reminders.

(** What one completion of a recurring reminder in range does. *)
Lemma complete_recurring (LocalTZA now : Z) (newId userId id : string)
    (notes : option string) (db : gmap string reminder) (r : reminder)
    (rule : string) (t : Z) :
  db !! id = Some r -> user_id r = userId ->
  recurrence r = Some rule -> knownRule rule = true ->
  due_date r = Some t -> - maxTime <= t -> t + 366 * msPerDay <= maxTime ->
  db !! newId = None ->
  exists nextDue,
    calculateNextRecurrence LocalTZA (Some t) (Some rule) = Iso nextDue /\
    (complete LocalTZA now newId userId id notes db).1 =
      <[newId := successor userId (applyUpdates now notes r) nextDue]>
        (<[id := applyUpdates now notes r]> db).
Proof.
  intros Hid Hu Hrec Hk Hdue Hlo Hhi Hnew.
  destruct (calc_known_in_range LocalTZA t rule Hk Hlo Hhi) as (nextDue & Hc & _).
  exists nextDue. split; [exact Hc |].
  assert (Hne : id <> newId) by (intros ->; congruence).
  unfold complete. rewrite Hid, Hu, String.eqb_refl.
  cbn [applyUpdates recurrence due_date]. rewrite Hrec, Hdue, (truthy_known rule Hk), Hc.
  rewrite lookup_insert_ne, Hnew by exact Hne. reflexivity.
Qed.

(** The handler does not look at the status of the row it completes:
    completing a recurring reminder a second time (a repeated request, a
    double tap) inserts a second successor, equal to the first in every
    column, due on the same date. *)
Theorem complete_twice_two_successors
    (LocalTZA now1 now2 : Z) (new1 new2 userId id : string)
    (notes1 notes2 : option string) (db : gmap string reminder) (r : reminder)
    (rule : string) (t : Z) :
  db !! id = Some r -> user_id r = userId ->
  recurrence r = Some rule -> knownRule rule = true ->
  due_date r = Some t -> - maxTime <= t -> t + 366 * msPerDay <= maxTime ->
  db !! new1 = None -> db !! new2 = None -> new1 <> new2 ->
  let db1 := (complete LocalTZA now1 new1 userId id notes1 db).1 in
  let db2 := (complete LocalTZA now2 new2 userId id notes2 db1).1 in
  exists s,
    db2 !! new1 = Some s /\ db2 !! new2 = Some s /\
    status s = "pending"%string /\ recurrence s = Some rule /\
    (exists nextDue, due_date s = Some nextDue /\ t <= nextDue) /\
    dom db2 = {[new1; new2]} ∪ dom db.
Proof.
  intros Hid Hu Hrec Hk Hdue Hlo Hhi Hn1 Hn2 Hne db1 db2.
  assert (Hi1 : id <> new1) by (intros ->; congruence).
  assert (Hi2 : id <> new2) by (intros ->; congruence).
  destruct (complete_recurring LocalTZA now1 new1 userId id notes1 db r rule t
              Hid Hu Hrec Hk Hdue Hlo Hhi Hn1) as (nextDue & Hc & H1).
  fold db1 in H1.
  set (r1 := applyUpdates now1 notes1 r) in *.
  assert (Hid1 : db1 !! id = Some r1)
    by (rewrite H1, lookup_insert_ne, lookup_insert_eq by congruence; reflexivity).
  assert (Hn21 : db1 !! new2 = None)
    by (rewrite H1, !lookup_insert_ne by congruence; exact Hn2).
  destruct (complete_recurring LocalTZA now2 new2 userId id notes2 db1 r1 rule t
              Hid1 Hu Hrec Hk Hdue Hlo Hhi Hn21) as (nextDue' & Hc' & H2).
  fold db2 in H2.
  assert (nextDue' = nextDue) by congruence. subst nextDue'.
  exists (successor userId r1 nextDue).
  split; [rewrite H2, !lookup_insert_ne, H1 by congruence; apply lookup_insert_eq |].
  split; [rewrite H2, lookup_insert_eq; reflexivity |].
  split; [reflexivity |]. split; [exact Hrec |]. split.
  - exists nextDue. split; [reflexivity |].
    destruct (calc_known_in_range LocalTZA t rule Hk Hlo Hhi) as (n & Hn & Hle).
    congruence.
  - rewrite H2, dom_insert_L, dom_insert_lookup_L by eauto.
    rewrite H1, dom_insert_L, dom_insert_lookup_L by eauto.
    change ({[new1; new2]} : gset string) with (({[new1]} : gset string) ∪ {[new2]}).
    rewrite (union_comm_L {[new1]} {[new2]}), <- union_assoc_L. reflexivity.
Qed.

Lemma complete_twice_two_successors_witness :
  ({[ "r1" := weeklyCall ]} : gmap string reminder) !! "r1" = Some weeklyCall /\
  exists s,
    (complete 0 1705400000001 "r3" "u1" "r1" None
       (complete 0 1705400000000 "r2" "u1" "r1" None {[ "r1" := weeklyCall ]}).1).1
      !! "r3" = Some s.
Proof.
  split; [apply lookup_singleton_eq |].
  destruct (complete_twice_two_successors 0 1705400000000 1705400000001 "r2" "r3" "u1" "r1"
              None None {[ "r1" := weeklyCall ]} weeklyCall "weekly" 1705312800000
              (lookup_singleton_eq _ _) eq_refl eq_refl eq_refl eq_refl
              ltac:(unfold maxTime; lia)
              ltac:(unfold maxTime, msPerDay; lia)
              ltac:(apply lookup_singleton_ne; discriminate)
              ltac:(apply lookup_singleton_ne; discriminate)
              ltac:(discriminate))
    as (s & _ & Hs & _).
  exists s. exact Hs.
Defined.

End CompleteAgain.

(** ** What a tenant's requests can write ([routes/contacts.js],
    [routes/chat.js]) *)
Module TenantIsolation.
Import JSString Quota Uploads.
Local Open Scope string_scope.

(** From [d] to [d'] only the tenant [userId] was written for: rows were
    added, all owned by that tenant, no row was removed or changed, no
    other tenant's profile changed, and the tenant's own profile kept its
    plan. *)
Definition ownWrites (userId : string) (d d' : db) : Prop :=
  (exists rows, contacts d' = (contacts d ++ rows)%list /\
                Forall (fun c => user_id c = userId) rows) /\
  (forall u, u <> userId -> profiles d' !! u = profiles d !! u) /\
  subscription_plan <$> profiles d' !! userId = subscription_plan <$> profiles d !! userId.

Lemma ownWrites_refl userId d : ownWrites userId d d.
Proof.
  split; [exists []; split; [symmetry; apply app_nil_r | constructor] |].
  split; [reflexivity | reflexivity].
Qed.

Lemma ownWrites_trans userId d1 d2 d3 :
  ownWrites userId d1 d2 -> ownWrites userId d2 d3 -> ownWrites userId d1 d3.
Proof.
  intros ((r1 & E1 & F1) & P1 & S1) ((r2 & E2 & F2) & P2 & S2). split; [| split].
  - exists (r1 ++ r2)%list. split; [rewrite E2, E1, app_assoc; reflexivity |].
    apply Forall_app. split; assumption.
  - intros u Hu. rewrite (P2 u Hu). apply P1, Hu.
  - rewrite S2. exact S1.
Qed.

Lemma ownWrites_insert userId rows d :
  Forall (fun c => user_id c = userId) rows -> ownWrites userId d (insertContacts rows d).
Proof.
  intros H. split; [exists rows; split; [reflexivity | exact H] |].
  split; [reflexivity | reflexivity].
Qed.

Lemma ownWrites_increment userId n d :
  ownWrites userId d (increment_contact_count userId n d).
Proof.
  split; [exists []; split; [symmetry; apply app_nil_r | constructor] |].
  unfold increment_contact_count. cbn [profiles]. split.
  - intros u Hu. apply lookup_alter_ne. congruence.
  - rewrite lookup_alter_eq. destruct (profiles d !! userId); reflexivity.
Qed.

Lemma ownWrites_commit userId rows n d :
  Forall (fun c => user_id c = userId) rows ->
  ownWrites userId d (increment_contact_count userId n (insertContacts rows d)).
Proof.
  intros H. eapply ownWrites_trans; [apply ownWrites_insert, H | apply ownWrites_increment].
Qed.

Lemma transformRows_owner userId m cat i data :
  Forall (fun c => user_id c = userId) (transformRows userId m cat i data).1.
Proof.
  revert i. induction data as [| r data IH]; intros i; [constructor |].
  cbn [transformRows]. specialize (IH (S i)).
  destruct (transformRows userId m cat (S i) data) as [cs es]. cbn [fst] in IH.
  destruct m as [m |]; [| exact IH].
  destruct (unidentifiable _); cbn [fst]; [exact IH |].
  constructor; [reflexivity | exact IH].
Qed.

Lemma sheetContacts_owner userId m data :
  Forall (fun c => user_id c = userId) (sheetContacts userId m data).
Proof.
  unfold sheetContacts. apply RateLimit.Forall_filter_keeps.
  apply Forall_fmap, Forall_forall. intros r _. reflexivity.
Qed.

Lemma slice0_owner {A} (P : A -> Prop) (l : list A) (n : option Z) :
  Forall P l -> Forall P (slice0 l n).
Proof.
  intros H. unfold slice0. destruct n as [n |]; [| exact H].
  destruct (0 <=? n)%Z; apply Forall_take, H.
Qed.

Section Sheet.

Variables (jobId userId : string).
Variables (file : option (list row)) (limit : option contactLimit)
          (analysis : analysisResult) (insertOk : bool) (now : Z).

(** The rows a phase carries are the tenant's. *)
Definition carriesOwn (ph : sheetPhase) : Prop :=
  match ph with
  | Inserting _ toInsert => Forall (fun c => user_id c = userId) toInsert
  | Counting _ _ inserted => Forall (fun c => user_id c = userId) inserted
  | _ => True
  end.

Lemma sheetStep_own ph (jobs : gmap string job) d :
  carriesOwn ph ->
  let st := sheetStep jobId userId file limit analysis insertOk now ph jobs d in
  carriesOwn st.1.1 /\ ownWrites userId d st.2.
Proof.
  destruct ph as [| data | data toInsert | data toInsert inserted |];
    cbn [carriesOwn sheetStep]; intros Hown.
  - destruct file; cbn [fst snd carriesOwn]; split; auto using ownWrites_refl.
  - destruct analysis as [err | mappings]; cbn [fst snd carriesOwn];
      [split; auto using ownWrites_refl |].
    destruct (setKeepingCreatedAt _ _ _); cbn [fst snd carriesOwn];
      [| split; auto using ownWrites_refl].
    destruct mappings as [m |]; cbn [fst snd carriesOwn];
      [| split; auto using ownWrites_refl].
    destruct (bool_decide _); cbn [fst snd carriesOwn]; split;
      auto using ownWrites_refl.
    apply slice0_owner, sheetContacts_owner.
  - destruct insertOk; cbn [fst snd carriesOwn]; split; auto using ownWrites_refl.
    apply ownWrites_insert, Hown.
  - cbn [fst snd carriesOwn]. split; [exact I | apply ownWrites_increment].
  - cbn [fst snd carriesOwn]. split; [exact I | apply ownWrites_refl].
Qed.

Lemma processSpreadsheet_own (jobs : gmap string job) (d : db) :
  ownWrites userId d
    (processSpreadsheet jobId userId file limit analysis insertOk now jobs d).2.
Proof.
  unfold processSpreadsheet.
  pose proof (sheetStep_own Reading jobs d I) as [C1 W1].
  destruct (sheetStep _ _ _ _ _ _ now Reading jobs d) as [[ph1 jobs1] d1].
  cbn [fst snd] in C1, W1.
  pose proof (sheetStep_own ph1 jobs1 d1 C1) as [C2 W2].
  destruct (sheetStep _ _ _ _ _ _ now ph1 jobs1 d1) as [[ph2 jobs2] d2].
  cbn [fst snd] in C2, W2.
  pose proof (sheetStep_own ph2 jobs2 d2 C2) as [C3 W3].
  destruct (sheetStep _ _ _ _ _ _ now ph2 jobs2 d2) as [[ph3 jobs3] d3].
  cbn [fst snd] in C3, W3.
  pose proof (sheetStep_own ph3 jobs3 d3 C3) as [C4 W4].
  destruct (sheetStep _ _ _ _ _ _ now ph3 jobs3 d3) as [[ph4 jobs4] d4].
  cbn [fst snd] in *.
  eauto using ownWrites_trans.
Qed.

End Sheet.

Section Card.

Variables (jobId userId : string).
Variables (reading : extraction) (insertError : option string).

Definition cardCarriesOwn (ph : cardPhase) : Prop :=
  match ph with
  | InsertingCard c _ => user_id c = userId
  | CountingCard c _ => user_id c = userId
  | _ => True
  end.

Lemma cardStep_own ph (jobs : gmap string job) d :
  cardCarriesOwn ph ->
  let st := cardStep jobId userId reading insertError ph jobs d in
  cardCarriesOwn st.1.1 /\ ownWrites userId d st.2.
Proof.
  destruct ph as [| | structured | c extracted | c extracted |];
    cbn [cardCarriesOwn cardStep]; intros Hown.
  - destruct (setKeepingCreatedAt _ _ _); cbn [fst snd cardCarriesOwn]; split;
      auto using ownWrites_refl.
  - destruct reading; cbn [fst snd cardCarriesOwn]; [split; auto using ownWrites_refl |].
    destruct (setKeepingCreatedAt _ _ _); cbn [fst snd cardCarriesOwn]; split;
      auto using ownWrites_refl.
  - destruct structured; cbn [fst snd cardCarriesOwn]; split; auto using ownWrites_refl.
  - destruct insertError; cbn [fst snd cardCarriesOwn]; split; auto using ownWrites_refl.
    apply ownWrites_insert. constructor; [exact Hown | constructor].
  - cbn [fst snd cardCarriesOwn]. split; [exact I | apply ownWrites_increment].
  - cbn [fst snd cardCarriesOwn]. split; [exact I | apply ownWrites_refl].
Qed.

Lemma processNamecard_own (jobs : gmap string job) (d : db) :
  ownWrites userId d (processNamecard jobId userId reading insertError jobs d).2.
Proof.
  unfold processNamecard.
  pose proof (cardStep_own CardStart jobs d I) as [C1 W1].
  destruct (cardStep _ _ _ _ CardStart jobs d) as [[ph1 jobs1] d1].
  cbn [fst snd] in C1, W1.
  pose proof (cardStep_own ph1 jobs1 d1 C1) as [C2 W2].
  destruct (cardStep _ _ _ _ ph1 jobs1 d1) as [[ph2 jobs2] d2].
  cbn [fst snd] in C2, W2.
  pose proof (cardStep_own ph2 jobs2 d2 C2) as [C3 W3].
  destruct (cardStep _ _ _ _ ph2 jobs2 d2) as [[ph3 jobs3] d3].
  cbn [fst snd] in C3, W3.
  pose proof (cardStep_own ph3 jobs3 d3 C3) as [C4 W4].
  destruct (cardStep _ _ _ _ ph3 jobs3 d3) as [[ph4 jobs4] d4].
  cbn [fst snd] in C4, W4.
  pose proof (cardStep_own ph4 jobs4 d4 C4) as [C5 W5].
  destruct (cardStep _ _ _ _ ph4 jobs4 d4) as [[ph5 jobs5] d5].
  cbn [fst snd] in *.
  eauto 6 using ownWrites_trans.
Qed.

End Card.

(** Tenant isolation of the write paths: whatever a tenant sends to POST
    /api/contacts, POST /api/contacts/bulk or the spreadsheet import, and
    whatever a background spreadsheet or business card job of that tenant
    runs into, the store afterwards holds every row it held, unchanged,
    plus rows owned by that tenant only; no other tenant's profile has
    changed, and the tenant's own profile has kept its plan. *)
Theorem writes_stay_with_the_tenant (userId : string) (d : db) :
  (forall b duplicates insertOk,
     ownWrites userId d (createContact (Some userId) b duplicates insertOk d).1) /\
  (forall bodies insertOk,
     ownWrites userId d (bulkCreate (Some userId) bodies insertOk d).1) /\
  (forall file mappings skipDuplicates defaultCategory insertOk,
     ownWrites userId d
       (importSpreadsheet (Some userId) file mappings skipDuplicates defaultCategory
          insertOk d).1) /\
  (forall jobId file limit analysis insertOk now jobs,
     ownWrites userId d
       (processSpreadsheet jobId userId file limit analysis insertOk now jobs d).2) /\
  (forall jobId reading insertError jobs,
     ownWrites userId d (processNamecard jobId userId reading insertError jobs d).2).
Proof.
  split; [| split; [| split; [| split]]].
  - intros b duplicates insertOk. unfold createContact.
    destruct (checkContactLimit _ _); cbn [fst]; try apply ownWrites_refl.
    destruct (negb (validateContact b)); [apply ownWrites_refl |].
    destruct (_ && _); [apply ownWrites_refl |].
    destruct (negb insertOk); cbn [fst]; [apply ownWrites_refl |].
    apply ownWrites_commit. constructor; [reflexivity | constructor].
  - intros bodies insertOk. unfold bulkCreate.
    destruct (checkContactLimit _ _); cbn [fst]; try apply ownWrites_refl.
    destruct bodies as [[| b cs] |]; cbn [fst]; try apply ownWrites_refl.
    destruct (_ <? _)%nat; [apply ownWrites_refl |].
    destruct (_ <? _)%Z; [apply ownWrites_refl |].
    destruct (negb insertOk); cbn [fst]; [apply ownWrites_refl |].
    apply ownWrites_commit, Forall_fmap, Forall_forall. intros c _. reflexivity.
  - intros file mappings skipDuplicates defaultCategory insertOk.
    unfold importSpreadsheet.
    destruct (checkContactLimit _ _); cbn [fst]; try apply ownWrites_refl.
    destruct file as [data |]; cbn [fst]; [| apply ownWrites_refl].
    destruct (_ <? _)%Z; [apply ownWrites_refl |].
    pose proof (transformRows_owner userId mappings defaultCategory 0 data) as Hown.
    destruct (transformRows userId mappings defaultCategory 0 data) as [contacts0 es].
    cbn [fst] in Hown.
    destruct (skipDuplicates && negb (bool_decide (contacts0 = []))); cbv beta iota zeta.
    + match goal with |- context [filter ?P contacts0] =>
        pose proof (RateLimit.Forall_filter_keeps _ P contacts0 Hown) as Hown1;
        generalize dependent (filter P contacts0)
      end.
      intros contacts1 Hown1.
      destruct (negb (bool_decide (contacts1 = [])) && negb insertOk); cbn [fst];
        [apply ownWrites_refl |].
      destruct (bool_decide (contacts1 = [])); [apply ownWrites_refl |].
      apply ownWrites_commit, Hown1.
    + destruct (negb (bool_decide (contacts0 = [])) && negb insertOk); cbn [fst];
        [apply ownWrites_refl |].
      destruct (bool_decide (contacts0 = [])); [apply ownWrites_refl |].
      apply ownWrites_commit, Hown.
  - intros. apply processSpreadsheet_own.
  - intros. apply processNamecard_own.
Qed.

End TenantIsolation.

(** ** Requests of one tenant, one after another *)
Module SequentialQuota.
Import JSString Quota Uploads.
Local Open Scope string_scope.

(** A request to one of the routes behind the quota gate, with what the
    services it calls answer. *)
Inductive call : Type :=
  | CreateOne (b : contactBody) (duplicates : list contact) (insertOk : bool)
  | CreateBulk (bodies : option (list contactBody)) (insertOk : bool)
  | ImportSheet (file : option (list row)) (mappings : option columnMappings)
      (skipDuplicates : bool) (defaultCategory : string) (insertOk : bool)
  | UploadSheet (filePresent : bool) (file : option (list row))
      (analysis : analysisResult) (insertOk : bool) (jobId : string) (now : Z)
      (jobs : gmap string job).

(** The store after the request has been served to its end; for an upload
    that is the end of its background job. *)
Definition serve (userId : string) (d : db) (c : call) : db :=
  match c with
  | CreateOne b duplicates insertOk =>
      (createContact (Some userId) b duplicates insertOk d).1
  | CreateBulk bodies insertOk => (bulkCreate (Some userId) bodies insertOk d).1
  | ImportSheet file mappings skipDuplicates defaultCategory insertOk =>
      (importSpreadsheet (Some userId) file mappings skipDuplicates defaultCategory
         insertOk d).1
  | UploadSheet filePresent file analysis insertOk jobId now jobs =>
      match uploadSpreadsheet (Some userId) filePresent file jobId now jobs d with
      | (Accepted _, _, _, limit) =>
          (processSpreadsheet jobId userId file limit analysis insertOk now
             (createJob jobId "Starting file processing..." now jobs) d).2
      | (UploadRejected _ _, _, _, _) => d
      end
  end.

(** A write the gate let through: nothing, or rows within the headroom
    together with their count. *)
Definition gatedWrite (userId : string) (d d' : db) : Prop :=
  d' = d \/
  exists rows,
    Z.of_nat (length rows) <= specRemaining (profiles d !! userId) /\
    d' = increment_contact_count userId (Z.of_nat (length rows)) (insertContacts rows d).

Section Sheet.

Variables (jobId userId : string).
Variables (file : option (list row)) (limit : contactLimit)
          (analysis : analysisResult) (insertOk : bool) (now : Z).
Variable d0 : db.
Hypothesis Hpos : 0 < remaining limit.
Hypothesis Hrem : remaining limit = specRemaining (profiles d0 !! userId).

Definition sheetGated (ph : sheetPhase) (d : db) : Prop :=
  match ph with
  | Reading | Analyzing _ => d = d0
  | Inserting _ toInsert => d = d0 /\ Z.of_nat (length toInsert) <= remaining limit
  | Counting _ _ inserted =>
      d = insertContacts inserted d0 /\ Z.of_nat (length inserted) <= remaining limit
  | SheetDone => gatedWrite userId d0 d
  end.

Lemma sheetStep_gated ph (jobs : gmap string job) d :
  sheetGated ph d ->
  let st := sheetStep jobId userId file (Some limit) analysis insertOk now ph jobs d in
  sheetGated st.1.1 st.2.
Proof.
  destruct ph as [| data | data toInsert | data toInsert inserted |];
    cbn [sheetGated sheetStep].
  - intros ->. destruct file; cbn [fst snd sheetGated]; [reflexivity | left; reflexivity].
  - intros ->. destruct analysis as [err | [m |]]; cbn [fst snd sheetGated].
    + left; reflexivity.
    + destruct (setKeepingCreatedAt _ _ _); cbn [fst snd sheetGated]; [| left; reflexivity].
      destruct (bool_decide _); cbn [fst snd sheetGated]; [left; reflexivity |].
      split; [reflexivity |].
      unfold remainingOrInfinity. destruct (Z.eqb_spec (remaining limit) 0); [lia |].
      apply slice0_length, Hpos.
    + destruct (setKeepingCreatedAt _ _ _); cbn [fst snd sheetGated]; left; reflexivity.
  - intros [-> Hlen]. destruct insertOk; cbn [fst snd sheetGated]; [| left; reflexivity].
    split; [reflexivity | exact Hlen].
  - intros [-> Hlen]. cbn [fst snd sheetGated]. right. exists inserted.
    split; [lia | reflexivity].
  - exact id.
Qed.

Lemma processSpreadsheet_gated (jobs : gmap string job) :
  gatedWrite userId d0
    (processSpreadsheet jobId userId file (Some limit) analysis insertOk now jobs d0).2.
Proof.
  unfold processSpreadsheet.
  assert (H0 : sheetGated Reading d0) by reflexivity.
  pose proof (sheetStep_gated Reading jobs d0 H0) as H1.
  pose proof (sheetStep_keeps jobId userId file (Some limit) analysis insertOk now
                Reading jobs d0 ltac:(intros [=])) as [A1 R1].
  destruct (sheetStep _ _ _ _ _ _ now Reading jobs d0) as [[ph1 jobs1] d1].
  cbn [fst snd] in H1, A1, R1.
  pose proof (sheetStep_gated ph1 jobs1 d1 H1) as H2.
  pose proof (sheetStep_keeps jobId userId file (Some limit) analysis insertOk now
                ph1 jobs1 d1 A1) as [A2 R2].
  destruct (sheetStep _ _ _ _ _ _ now ph1 jobs1 d1) as [[ph2 jobs2] d2].
  cbn [fst snd] in H2, A2, R2.
  pose proof (sheetStep_gated ph2 jobs2 d2 H2) as H3.
  pose proof (sheetStep_keeps jobId userId file (Some limit) analysis insertOk now
                ph2 jobs2 d2 A2) as [A3 R3].
  destruct (sheetStep _ _ _ _ _ _ now ph2 jobs2 d2) as [[ph3 jobs3] d3].
  cbn [fst snd] in H3, A3, R3.
  pose proof (sheetStep_gated ph3 jobs3 d3 H3) as H4.
  pose proof (sheetStep_keeps jobId userId file (Some limit) analysis insertOk now
                ph3 jobs3 d3 A3) as [A4 R4].
  destruct (sheetStep _ _ _ _ _ _ now ph3 jobs3 d3) as [[ph4 jobs4] d4].
  cbn [fst snd] in *. cbn [sheetRank] in R1.
  destruct ph4; cbn [sheetRank] in R4; try lia. exact H4.
Qed.

End Sheet.

Lemma serve_gated (userId : string) (d : db) (c : call) :
  gatedWrite userId d (serve userId d c).
Proof.
  destruct c as [b duplicates insertOk | bodies insertOk
                | file mappings skipDuplicates defaultCategory insertOk
                | filePresent file analysis insertOk jobId now jobs]; cbn [serve].
  - pose proof (createContact_quota userId b duplicates insertOk d) as [H _].
    unfold createContact in *.
    destruct (checkContactLimit _ _); cbn [fst]; try (left; reflexivity).
    destruct (negb (validateContact b)); [left; reflexivity |].
    destruct (_ && _); [left; reflexivity |].
    destruct (negb insertOk); [left; reflexivity |].
    right. exists [newContact userId b]. split; [cbn; lia | reflexivity].
  - destruct bodies as [cs |]; cycle 1.
    { unfold bulkCreate. destruct (checkContactLimit _ _); left; reflexivity. }
    pose proof (bulkCreate_quota userId cs insertOk d) as [H _].
    unfold bulkCreate in *.
    destruct (checkContactLimit _ _); cbn [fst]; try (left; reflexivity).
    destruct cs as [| c0 cs]; [left; reflexivity |].
    destruct (_ <? _)%nat; [left; reflexivity |].
    destruct (_ <? _)%Z; [left; reflexivity |].
    destruct (negb insertOk); [left; reflexivity |].
    right. exists (prepareContact userId <$> c0 :: cs).
    split; [| reflexivity]. destruct H as (_ & H & _). exact H.
  - unfold importSpreadsheet.
    destruct (checkContactLimit (Some userId) (profiles d !! userId))
      as [| c m pl | limit] eqn:Hg; cbn [fst]; try (left; reflexivity).
    destruct file as [data |]; [| left; reflexivity].
    destruct (gate_remaining _ _ _ Hg) as [Hr Hpos].
    destruct (Z.ltb_spec (remaining limit) (Z.of_nat (length data))) as [Hover | Hfit];
      [left; reflexivity |].
    pose proof (transformRows_length userId mappings defaultCategory 0 data) as Hlen.
    destruct (transformRows userId mappings defaultCategory 0 data) as [contacts0 es].
    cbn [fst snd] in Hlen.
    destruct (skipDuplicates && negb (bool_decide (contacts0 = []))); cbv beta iota zeta.
    + match goal with |- context [filter ?P contacts0] =>
        pose proof (ListFacts.length_filter_le P contacts0) as Hf;
        generalize dependent (filter P contacts0)
      end.
      intros contacts1 Hf.
      destruct (negb (bool_decide (contacts1 = [])) && negb insertOk); cbn [fst];
        [left; reflexivity |].
      destruct (bool_decide (contacts1 = [])); [left; reflexivity |].
      right. exists contacts1. split; [lia | reflexivity].
    + destruct (negb (bool_decide (contacts0 = [])) && negb insertOk); cbn [fst];
        [left; reflexivity |].
      destruct (bool_decide (contacts0 = [])); [left; reflexivity |].
      right. exists contacts0. split; [lia | reflexivity].
  - unfold uploadSpreadsheet.
    destruct (checkContactLimit (Some userId) (profiles d !! userId))
      as [| c m pl | limit] eqn:Hg; try (left; reflexivity).
    destruct filePresent; cbn [negb]; [| left; reflexivity].
    destruct (sheetStep _ _ _ _ _ _ _ _ _ _) as [[ph jobs1] d1].
    destruct (gate_remaining _ _ _ Hg) as [Hr Hpos].
    apply processSpreadsheet_gated; [lia | exact Hr].
Qed.

Lemma ceilingOf_plan (p p' : profile) :
  subscription_plan p' = subscription_plan p -> ceilingOf (Some p') = ceilingOf (Some p).
Proof. intros H. unfold ceilingOf. cbn. rewrite H. reflexivity. Qed.

Lemma gatedWrite_counts (userId : string) (d d' : db) (p : profile) :
  profiles d !! userId = Some p ->
  gatedWrite userId d d' ->
  exists p',
    profiles d' !! userId = Some p' /\
    subscription_plan p' = subscription_plan p /\
    countOf userId d <= countOf userId d' <= Z.max (countOf userId d) (ceilingOf (Some p)) /\
    countOf userId d' - countOf userId d =
    Z.of_nat (length (contacts d')) - Z.of_nat (length (contacts d)).
Proof.
  intros Hp [-> | (rows & Hlen & ->)].
  - exists p. repeat split; try lia. exact Hp.
  - exists {| subscription_plan := subscription_plan p;
              contact_count := Some (orZero (contact_count p) + Z.of_nat (length rows)) |}.
    assert (Hc : countOf userId
                   (increment_contact_count userId (Z.of_nat (length rows))
                      (insertContacts rows d)) =
                 countOf userId d + Z.of_nat (length rows)).
    { rewrite (countOf_increment userId _ (insertContacts rows d) p) by exact Hp.
      reflexivity. }
    rewrite Hc. cbn [increment_contact_count insertContacts contacts profiles].
    rewrite lookup_alter_eq, Hp, length_app, Nat2Z.inj_add.
    rewrite Hp in Hlen. unfold specRemaining in Hlen. rewrite <- ceilingOf_spec in Hlen.
    assert (Hcur : currentOf (Some p) = countOf userId d).
    { unfold currentOf, countOf. rewrite Hp. reflexivity. }
    rewrite Hcur in Hlen.
    repeat split; lia.
Qed.



End SequentialQuota.
